(** * RemoteManualAgentJobManager: a shallow embedding and its properties

    The development follows [backend/job_managers/remote_manual_agent.py]:
    a job manager that owns a fixed list of agent slots, selects agents
    round-robin, dispatches jobs through asynchronous remote calls, keeps
    the agents' task directories in sync and fails the jobs of an agent
    that goes away.

    Python objects are modelled as follows.
    - [self] is the record [State]; every method is a function in the
      monad [M], which threads the state and propagates Python exceptions.
    - Lists indexed by agent id ([_agents], [_running_on_agent]) are lists
      with stdpp's lookup and insert; an index out of range raises
      [IndexError] as in Python.
    - Dictionaries are [gmap]s with string keys.
    - What the manager does to the outside world (results handed to the
      upstream job-ended callback, remote calls issued on a connection,
      lines printed, timers armed) is recorded in log fields of [State].
    - What the outside world does to the manager is a parameter of the
      method concerned: what [rpyc.connect] gives, whether the transport
      raises on a remote call, whether the file system lets the archive
      be built. *)

From Stdlib Require Import String Ascii Arith Lia.
From stdpp Require Import base option list gmap strings.

Local Open Scope string_scope.
Local Open Scope list_scope.
Local Open Scope nat_scope.

(** ** Python run-time model *)

Module Py.

(** The exceptions that the modelled code can raise. *)
Inductive exn : Type :=
| IndexError       (* list index out of range *)
| ValueError       (* list.remove(x): x not in list; relpath of an empty path *)
| AttributeError   (* attribute access on None *)
| TransportError   (* anything raised by an rpyc connection *)
| EnvironmentError. (* IOError or OSError from the file system *)

(** [l.remove(x)]: deletes the first occurrence of [x]; raises
    [ValueError] (here [None]) when there is none. *)
Fixpoint list_remove `{EqDecision A} (x : A) (l : list A) : option (list A) :=
  match l with
  | [] => None
  | y :: l' => if decide (x = y) then Some l'
               else (y ::.) <$> list_remove x l'
  end.

(** [enumerate(l)], with an explicit start index. *)
Fixpoint enumerate_from {A} (k : nat) (l : list A) : list (nat * A) :=
  match l with
  | [] => []
  | x :: l' => (k, x) :: enumerate_from (S k) l'
  end.

Definition enumerate {A} (l : list A) : list (nat * A) := enumerate_from 0 l.

End Py.

(** ** Data *)

(** Job ids, paths and content hashes are strings.  A task-directory
    snapshot maps a relative path to a content hash; a job result is the
    dictionary handed to the job-ended callback.  Both are written
    [gmap string string] throughout. *)

(** An open rpyc connection, as an opaque handle. *)
Definition Conn := nat.

(** The part of a task that [_execute_job] reads. *)
Record Task := { get_course_id : string; get_id : string }.

(** The value an rpyc asynchronous call resolves to: either the remote
    side raised ([.error] is true) or it returned [.value]. *)
Inductive AsyncResult (A : Type) : Type :=
| AsyncError
| AsyncValue (value : A).
Arguments AsyncError {A}.
Arguments AsyncValue {A} value.

(** Remote calls attempted on a connection. *)
Inductive RemoteCall : Type :=
| CallUpdateImageAliases (agent : Conn) (image_aliases : gmap string string)
| CallNewJob (agent_id : nat) (agent : Conn) (jobid course task : string)
             (inputdata : gmap string string) (debug : bool)
| CallGetTaskDirectoryHashes (agent : Conn) (local_td : gmap string string)
| CallUpdateTaskDirectory (agent : Conn) (archive : list (string * string))
                          (to_delete : list string).

(** Lines written with [print]. *)
Inductive Message : Type :=
| MsgRetrieveError                 (* "An error occured while retrieving list of files ..." *)
| MsgNonSafePath (path : string)   (* "Agent returned non-safe file path: " + path *)
| MsgAgentException (agent_id : nat) (jobid : string)
                                   (* "Agent {} made an exception while running jobid {}" *)
| MsgAgentDisconnected              (* "Agent disconnected" *)
| MsgCannotConnect (host : string) (port : nat)
                                   (* "Cannot connect to agent {}-{}" *)
| MsgAgentConnected.               (* "Agent connected" *)

(** What the file system does while the archive of changed files is
    built: whether the temporary archive can be created
    ([tempfile.TemporaryFile()], [tarfile.open]), whether [tar.add] can
    read the file of a given name, and whether the archive can be
    finished ([tar.close()], [flush], [seek]).  Where the answer is
    [false] the call raises. *)
Record Files := {
  tmpfile_opens : bool;
  file_readable : string → bool;
  tar_closes : bool
}.

(** Timers armed with [threading.Timer(delay, target).start()]. *)
Inductive Timer : Type :=
| TimerSynchronizeTaskDir (delay : nat)
| TimerTryAgentConnection (delay : nat).

Record State := mkState {
  closed : bool;                                   (* self._closed *)
  is_testing : bool;                               (* self._is_testing *)
  image_aliases : gmap string string;              (* self._image_aliases *)
  agents_info : list (string * nat);               (* self._agents_info *)
  agents : list (option Conn);                     (* self._agents *)
  next_agent : nat;                                (* self._next_agent *)
  running_on_agent : list (list string);           (* self._running_on_agent *)
  last_content_in_task_directory : gmap string string;
                                 (* self._last_content_in_task_directory *)
  reported : list (string * gmap string string);   (* results given upstream *)
  calls : list RemoteCall;                         (* remote calls attempted *)
  printed : list Message;                          (* stdout *)
  timers : list Timer                              (* timers started *)
}.

Definition set_closed (b : bool) (s : State) : State :=
  mkState b (is_testing s) (image_aliases s) (agents_info s)
          (agents s) (next_agent s)
          (running_on_agent s) (last_content_in_task_directory s)
          (reported s) (calls s) (printed s) (timers s).

Definition set_agents (f : list (option Conn) → list (option Conn)) (s : State) : State :=
  mkState (closed s) (is_testing s) (image_aliases s) (agents_info s)
          (f (agents s)) (next_agent s)
          (running_on_agent s) (last_content_in_task_directory s)
          (reported s) (calls s) (printed s) (timers s).

Definition set_next_agent (f : nat → nat) (s : State) : State :=
  mkState (closed s) (is_testing s) (image_aliases s) (agents_info s)
          (agents s) (f (next_agent s))
          (running_on_agent s) (last_content_in_task_directory s)
          (reported s) (calls s) (printed s) (timers s).

Definition set_running_on_agent (f : list (list string) → list (list string))
    (s : State) : State :=
  mkState (closed s) (is_testing s) (image_aliases s) (agents_info s)
          (agents s) (next_agent s)
          (f (running_on_agent s)) (last_content_in_task_directory s)
          (reported s) (calls s) (printed s) (timers s).

Definition set_last_content (m : gmap string string) (s : State) : State :=
  mkState (closed s) (is_testing s) (image_aliases s) (agents_info s)
          (agents s) (next_agent s)
          (running_on_agent s) m (reported s) (calls s) (printed s) (timers s).

Definition add_reports (rs : list (string * gmap string string)) (s : State) : State :=
  mkState (closed s) (is_testing s) (image_aliases s) (agents_info s)
          (agents s) (next_agent s)
          (running_on_agent s) (last_content_in_task_directory s)
          (reported s ++ rs) (calls s) (printed s) (timers s).

Definition add_reported (r : string * gmap string string) : State → State :=
  add_reports [r].

Definition add_calls (cs : list RemoteCall) (s : State) : State :=
  mkState (closed s) (is_testing s) (image_aliases s) (agents_info s)
          (agents s) (next_agent s)
          (running_on_agent s) (last_content_in_task_directory s)
          (reported s) (calls s ++ cs) (printed s) (timers s).

Definition add_call (c : RemoteCall) : State → State := add_calls [c].

Definition add_prints (ms : list Message) (s : State) : State :=
  mkState (closed s) (is_testing s) (image_aliases s) (agents_info s)
          (agents s) (next_agent s)
          (running_on_agent s) (last_content_in_task_directory s)
          (reported s) (calls s) (printed s ++ ms) (timers s).

Definition add_printed (m : Message) : State → State := add_prints [m].

Definition add_timer (t : Timer) (s : State) : State :=
  mkState (closed s) (is_testing s) (image_aliases s) (agents_info s)
          (agents s) (next_agent s)
          (running_on_agent s) (last_content_in_task_directory s)
          (reported s) (calls s) (printed s) (timers s ++ [t]).

(** ** The state-and-exception monad *)

(** How a method call ends: it returns, it raises (the state keeps every
    mutation made before the exception), or the model ran out of fuel. *)
Inductive outcome (A : Type) : Type :=
| Returned (a : A) (s : State)
| Raised (e : Py.exn) (s : State)
| OutOfFuel.
Arguments Returned {A} a s.
Arguments Raised {A} e s.
Arguments OutOfFuel {A}.

Definition M (A : Type) : Type := State → outcome A.

Definition ret {A} (a : A) : M A := λ s, Returned a s.
Definition raise {A} (e : Py.exn) : M A := λ s, Raised e s.
Definition bind {A B} (k : A → M B) (m : M A) : M B :=
  λ s, match m s with
       | Returned a s' => k a s'
       | Raised e s' => Raised e s'
       | OutOfFuel => OutOfFuel
       end.

#[global] Instance M_ret : MRet M := @ret.
#[global] Instance M_bind : MBind M := @bind.
Definition modify (f : State → State) : M unit := λ s, Returned tt (f s).
Definition gets {A} (f : State → A) : M A := λ s, Returned (f s) s.

(** [try: m except: h] with a bare [except]. *)
Definition try_except {A} (m : M A) (h : M A) : M A :=
  λ s, match m s with
       | Raised _ s' => h s'
       | o => o
       end.

(** Unwraps a lookup, raising [e] when it fails. *)
Definition or_raise {A} (o : option A) (e : Py.exn) : M A :=
  match o with Some a => ret a | None => raise e end.

(** The state in which a call ends, when it ends. *)
Definition final_state {A} (o : outcome A) : option State :=
  match o with
  | Returned _ s | Raised _ s => Some s
  | OutOfFuel => None
  end.

(** ** [os.path] on POSIX

    The functions of Python 2.7's [posixpath] that the archive loop of
    [_synchronize_task_dir_p2] calls, on byte strings. *)

Module PosixPath.

Definition sep : string := "/".
Definition curdir : string := ".".
Definition pardir : string := "..".

(** [s.startswith(p)] *)
Definition startswith (s p : string) : bool := String.prefix p s.

(** [s.endswith('/')] *)
Fixpoint endswith_sep (s : string) : bool :=
  match s with
  | EmptyString => false
  | String c EmptyString => Ascii.eqb c "/"
  | String _ s' => endswith_sep s'
  end.

(** [needle in hay] on strings: the substring test. *)
Fixpoint str_in (needle hay : string) : bool :=
  String.prefix needle hay ||
  match hay with
  | EmptyString => false
  | String _ hay' => str_in needle hay'
  end.

(** [s.split('/')] *)
Fixpoint split_sep (s : string) : list string :=
  match s with
  | EmptyString => [EmptyString]
  | String c s' =>
      if Ascii.eqb c "/" then EmptyString :: split_sep s'
      else match split_sep s' with
           | [] => [String c EmptyString]
           | w :: ws => String c w :: ws
           end
  end.

(** [[x for x in s.split(sep) if x]] *)
Definition components (s : string) : list string :=
  filter (λ x, x ≠ EmptyString) (split_sep s).

(** One step of [join(a, *p)]: the loop body for the next part [b]. *)
Definition join2 (path b : string) : string :=
  if startswith b "/" then b
  else if bool_decide (path = "") || endswith_sep path then path +:+ b
  else path +:+ "/" +:+ b.

(** [join(a, *p)] *)
Definition join (a : string) (p : list string) : string :=
  foldl join2 a p.

(** The loop body of [normpath] over one component. *)
Definition normpath_step (initial_slashes : nat) (new_comps : list string)
    (comp : string) : list string :=
  if bool_decide (comp = "") || bool_decide (comp = ".") then new_comps
  else if negb (bool_decide (comp = ".."))
          || (bool_decide (initial_slashes = 0) && bool_decide (new_comps = []))
          || (negb (bool_decide (new_comps = []))
              && bool_decide (last new_comps = Some ".."))
  then new_comps ++ [comp]
  else removelast new_comps.  (* pop() when there is something to pop *)

(** [normpath(path)] *)
Definition normpath (path : string) : string :=
  if bool_decide (path = "") then "."
  else
    let initial_slashes :=
      if startswith path "/" then
        if startswith path "//" && negb (startswith path "///") then 2 else 1
      else 0 in
    let comps := foldl (normpath_step initial_slashes) [] (split_sep path) in
    let path' := String.concat "/" comps in
    let path' := String.concat "" (replicate initial_slashes "/") +:+ path' in
    if bool_decide (path' = "") then "." else path'.

Section WithCwd.
(** [os.getcwd()] *)
Variable cwd : string.

(** [abspath(path)] *)
Definition abspath (path : string) : string :=
  normpath (if startswith path "/" then path else join cwd [path]).

(** [commonprefix([l1, l2])] on two lists of components: [posixpath]
    takes the lexicographic minimum and maximum of the two lists and
    cuts the minimum at the first index where they differ, which is
    the longest common prefix of the two. *)
Fixpoint commonprefix (l1 l2 : list string) : list string :=
  match l1, l2 with
  | x :: l1', y :: l2' =>
      if bool_decide (x = y) then x :: commonprefix l1' l2' else []
  | _, _ => []
  end.

(** [relpath(path, start)]; [None] is [ValueError("no path specified")]. *)
Definition relpath (path start : string) : option string :=
  if bool_decide (path = "") then None
  else
    let start_list := components (abspath start) in
    let path_list := components (abspath path) in
    let i := length (commonprefix start_list path_list) in
    let rel_list := replicate (length start_list - i) pardir ++ drop i path_list in
    match rel_list with
    | [] => Some curdir
    | a :: p => Some (join a p)
    end.
End WithCwd.

End PosixPath.

(** ** Snapshots *)

(** Modelled from the spec: [directory_compare_from_hash] is imported from
    [common.base], which is not part of the sources at hand.  Following
    section 4.1, [changed] holds the paths present in [current] whose hash
    differs from [baseline] or that are absent from [baseline]; [deleted]
    holds the paths present in [baseline] but absent from [current]. *)
Definition directory_compare_from_hash (current baseline : gmap string string)
    : list string * list string :=
  ((map_to_list (filter (λ ph, baseline !! ph.1 ≠ Some ph.2) current)).*1,
   (map_to_list (filter (λ ph, current !! ph.1 = None) baseline)).*1).

(** ** The job manager *)

Module Manager.

(** Modelled from the spec: [AbstractJobManager._job_ended] lives in
    [backend/job_managers/abstract.py], which is not part of the sources
    at hand.  Following the upstream contract [reportJobEnded(jobID,
    result)], it hands the result of the job to the job-ended callback;
    the delivery is recorded in [reported]. *)
Definition AbstractJobManager_job_ended (jobid : string)
    (result : gmap string string) : M unit :=
  modify (add_reported (jobid, result)).

(** [_job_ended(self, jobid, result, agent_id=None)] *)
Definition job_ended (jobid : string) (result : gmap string string)
    (agent_id : option nat) : M unit :=
  match agent_id with
  | Some i =>
      l ← (λ s, or_raise (running_on_agent s !! i) Py.IndexError s);
      l' ← or_raise (Py.list_remove jobid l) Py.ValueError;
      modify (set_running_on_agent <[i := l']>)
  | None => ret tt
  end;;
  AbstractJobManager_job_ended jobid result.

(** [available_agents] of [_select_agent]. *)
Definition available_agents (s : State) : list nat :=
  omap (λ '(i, j), match j : option Conn with Some _ => Some i | None => None end)
       (Py.enumerate (agents s)).

(** [_select_agent(self)] *)
Definition select_agent : M (option nat) :=
  available ← gets available_agents;
  if decide (length available = 0) then ret None
  else
    cursor ← gets next_agent;
    chosen_agent ← or_raise (available !! (cursor mod length available))
                            Py.IndexError;
    modify (set_next_agent (λ n, n + 1));;
    ret (Some chosen_agent).

(** *** Results built by the manager *)

(** [{'result': 'crash', 'text': 'There are not any agent available ...'}] *)
Definition crash_no_agent : gmap string string :=
  {[ "result" := "crash";
     "text" := "There are not any agent available for grading. Please retry later. If this error persists, please contact the course administrator." ]}.

(** [{'result': 'crash', 'text': 'Remote agent shutdown'}] *)
Definition crash_agent_shutdown : gmap string string :=
  {[ "result" := "crash"; "text" := "Remote agent shutdown" ]}.

(** [{"result": "crash"}] *)
Definition crash_agent_exception : gmap string string :=
  {[ "result" := "crash" ]}.

(** *** Dispatch *)

(** What the transport does with the [try] block of [_execute_job] on a
    given agent: the block runs to its end, the remote call raises when
    it is issued, or registering the completion callback raises. *)
Inductive TryOutcome : Type :=
| CallAccepted
| CallRaises
| AddCallbackRaises.

(** [self._agents[i] = v] and [self._running_on_agent[i] = v] *)
Definition assign_agent (i : nat) (v : option Conn) : M unit :=
  λ s, if decide (i < length (agents s))
       then Returned tt (set_agents <[i := v]> s)
       else Raised Py.IndexError s.

Definition assign_running (i : nat) (v : list string) : M unit :=
  λ s, if decide (i < length (running_on_agent s))
       then Returned tt (set_running_on_agent <[i := v]> s)
       else Raised Py.IndexError s.

(** [map(f, self._running_on_agent[agent_id])] of Python 2, whose
    function argument removes elements from the very list it walks.
    The list iterator keeps an index into the list object; at each step
    it stops when the index has reached the current length, and
    otherwise yields the element now at that index and moves on by one.
    [f] mutates that same object through [self._running_on_agent], so
    every step reads the list again from the state. *)
Fixpoint map_running (fuel : nat) (f : string → M unit) (agent_id index : nat)
    : M unit :=
  match fuel with
  | 0 => λ _, OutOfFuel
  | S fuel' =>
      l ← gets (λ s, default [] (running_on_agent s !! agent_id));
      match l !! index with
      | None => ret tt
      | Some jid => f jid;; map_running fuel' f agent_id (S index)
      end
  end.

(** [_agent_shutdown(self, agent_id)]; closing the serving thread has no
    effect on the modelled state and whatever it raises is swallowed. *)
Definition agent_shutdown (agent_id : nat) : M unit :=
  l ← (λ s, or_raise (running_on_agent s !! agent_id) Py.IndexError s);
  map_running (S (length l))
    (λ jid, job_ended jid crash_agent_shutdown (Some agent_id)) agent_id 0;;
  try_except
    (assign_agent agent_id None;;
     assign_running agent_id [])
    (ret tt).

(** The body of the [try] in [_execute_job]. *)
Definition dispatch (env : nat → TryOutcome) (jobid : string) (task : Task)
    (inputdata : gmap string string) (debug : bool) (agent_id : nat) : M unit :=
  agent ← (λ s, or_raise (agents s !! agent_id) Py.IndexError s);
  conn ← or_raise agent Py.AttributeError;
  modify (add_call (CallNewJob agent_id conn jobid (get_course_id task)
                               (get_id task) inputdata debug));;
  match env agent_id with
  | CallRaises => raise Py.TransportError
  | after_call =>
      l ← (λ s, or_raise (running_on_agent s !! agent_id) Py.IndexError s);
      modify (set_running_on_agent <[agent_id := l ++ [jobid]]>);;
      match after_call with
      | AddCallbackRaises => raise Py.TransportError
      | _ => ret tt
      end
  end.

(** [_execute_job(self, jobid, task, inputdata, debug)]; the recursive
    call of the [except] branch consumes one unit of fuel. *)
Fixpoint execute_job_fuel (fuel : nat) (env : nat → TryOutcome)
    (jobid : string) (task : Task) (inputdata : gmap string string)
    (debug : bool) : M unit :=
  match fuel with
  | 0 => λ _, OutOfFuel
  | S fuel' =>
      agent_id ← select_agent;
      match agent_id with
      | None => job_ended jobid crash_no_agent None
      | Some agent_id =>
          try_except
            (dispatch env jobid task inputdata debug agent_id)
            (agent_shutdown agent_id;;
             execute_job_fuel fuel' env jobid task inputdata debug)
      end
  end.

(** Every failed attempt disconnects one agent, so one attempt more than
    there are slots is enough (lemma [execute_job_fuel_enough]). *)
Definition execute_job (env : nat → TryOutcome) (jobid : string) (task : Task)
    (inputdata : gmap string string) (debug : bool) : M unit :=
  λ s, execute_job_fuel (S (length (agents s))) env jobid task inputdata debug s.

(** [_execute_job_callback(self, jobid, callback_return_val, agent_id)] *)
Definition execute_job_callback (jobid : string)
    (callback_return_val : AsyncResult (gmap string string)) (agent_id : nat)
    : M unit :=
  match callback_return_val with
  | AsyncError =>
      modify (add_printed (MsgAgentException agent_id jobid));;
      job_ended jobid crash_agent_exception (Some agent_id)
  | AsyncValue value => job_ended jobid value (Some agent_id)
  end.

(** [_on_agent_disconnection(self, agent_id)] *)
Definition on_agent_disconnection (agent_id : nat) : M unit :=
  modify (add_printed MsgAgentDisconnected);;
  agent_shutdown agent_id.

(** *** Synchronisation of the task directory *)

(** [for x in l: body(x)] over a list that the body does not change. *)
Fixpoint for_each {A} (l : list A) (body : A → M unit) : M unit :=
  match l with
  | [] => ret tt
  | x :: l' => body x;; for_each l' body
  end.

(** A remote call made while an agent is synchronised.  The call is
    attempted; [raises c] tells whether the transport raises on it, be
    it when the call is issued, when it is waited for or when its
    callback is registered.  No caller catches that exception. *)
Definition remote_call (raises : RemoteCall → bool) (c : RemoteCall) : M unit :=
  modify (add_call c);;
  if raises c then raise Py.TransportError else ret tt.

(** [_synchronize_image_aliases(self, agent)] *)
Definition synchronize_image_aliases (raises : RemoteCall → bool)
    (agent : Conn) : M unit :=
  aliases ← gets image_aliases;
  remote_call raises (CallUpdateImageAliases agent aliases).

(** [_synchronize_task_dir(self, agent)]: the request is issued; the
    callback holds [agent] and [local_td]. *)
Definition synchronize_task_dir (raises : RemoteCall → bool)
    (agent : Conn) : M unit :=
  local_td ← gets last_content_in_task_directory;
  remote_call raises (CallGetTaskDirectoryHashes agent local_td).

(** [_on_agent_connection(self)] *)
Definition on_agent_connection : M unit :=
  modify (add_printed MsgAgentConnected).

(** [_get_rpyc_server(self, agent_id)]: the service class given to
    [rpyc.connect], as its two hooks.  rpyc runs [on_connect] when the
    connection is set up, inside [rpyc.connect], and [on_disconnect]
    when the connection goes away. *)
Record MasterBackendServer := {
  on_connect : M unit;
  on_disconnect : M unit
}.

Definition get_rpyc_server (agent_id : nat) : MasterBackendServer :=
  {| on_connect := on_agent_connection;
     on_disconnect := on_agent_disconnection agent_id |}.

(** [_try_synchronize_task_dir(self)]; [current] is what
    [directory_content_with_hash(get_tasks_directory())] reads from the
    file system at this tick. *)
Definition try_synchronize_task_dir (raises : RemoteCall → bool)
    (current : gmap string string) : M unit :=
  is_closed ← gets closed;
  if is_closed : bool then ret tt
  else
    last ← gets last_content_in_task_directory;
    let '(changed, deleted) := directory_compare_from_hash current last in
    (if decide (length changed ≠ 0 ∨ length deleted ≠ 0) then
       modify (set_last_content current);;
       all_agents ← gets agents;
       for_each all_agents (λ agent,
         match agent with
         | Some a => synchronize_task_dir raises a
         | None => ret tt
         end)
     else ret tt);;
    testing ← gets is_testing;
    if testing : bool then ret tt
    else modify (add_timer (TimerSynchronizeTaskDir 60)).

(** [_try_agent_connection(self)]; [connect entry] is what
    [rpyc.connect] gives for that entry, [None] when it raises.  A
    connection that is set up runs the [on_connect] hook of its service
    before [rpyc.connect] returns.  The two calls that follow are
    outside the [try]: what they raise ends the round. *)
Definition try_agent_connection (raises : RemoteCall → bool)
    (connect : nat → option Conn) : M unit :=
  is_closed ← gets closed;
  if is_closed : bool then ret tt
  else
    infos ← gets agents_info;
    for_each (Py.enumerate infos) (λ '(entry, info),
      agent ← (λ s, or_raise (agents s !! entry) Py.IndexError s);
      match agent with
      | Some _ => ret tt
      | None =>
          match connect entry with
          | None =>
              assign_agent entry None;;
              modify (add_printed (MsgCannotConnect info.1 info.2))
          | Some conn =>
              on_connect (get_rpyc_server entry);;
              assign_agent entry (Some conn);;
              synchronize_image_aliases raises conn;;
              synchronize_task_dir raises conn
          end
      end);;
    testing ← gets is_testing;
    if testing : bool then ret tt
    else modify (add_timer (TimerTryAgentConnection 10)).

Section TaskDirectory.
(** [get_tasks_directory()] of [common.base] and [os.getcwd()]. *)
Variables (tasks_directory cwd : string).
(** The file system under the archive. *)
Variable files : Files.

(** The test of the archive loop:
    [os.path.relpath(os.path.join(get_tasks_directory(), path),
    get_tasks_directory()) == path and ".." not in path]. *)
Definition path_is_safe (path : string) : M bool :=
  rel ← or_raise (PosixPath.relpath cwd
                    (PosixPath.join tasks_directory [path]) tasks_directory)
                 Py.ValueError;
  ret (bool_decide (rel = path) && negb (PosixPath.str_in ".." path)).

(** The [for path in to_update] loop; the archive under construction
    is the list of its members [(arcname, name)].  [tar.add] raises
    when the file cannot be read, for one that has gone since the
    snapshot was taken; nothing catches that. *)
Fixpoint add_to_archive (to_update : list string)
    (tar : list (string * string)) : M (list (string * string)) :=
  match to_update with
  | [] => ret tar
  | path :: rest =>
      safe ← path_is_safe path;
      if safe : bool then
        let name := PosixPath.join tasks_directory [path] in
        (if file_readable files name then ret tt
         else raise Py.EnvironmentError);;
        add_to_archive rest (tar ++ [(path, name)])
      else
        modify (add_printed (MsgNonSafePath path));;
        add_to_archive rest tar
  end.

(** [_synchronize_task_dir_p2(self, agent, local_td, async_value_remote_td)];
    the remote mapping is [None] when the agent has synchronisation
    disabled. *)
Definition synchronize_task_dir_p2 (raises : RemoteCall → bool)
    (agent : Conn) (local_td : gmap string string)
    (async_value_remote_td : AsyncResult (option (gmap string string)))
    : M unit :=
  match async_value_remote_td with
  | AsyncError => modify (add_printed MsgRetrieveError)
  | AsyncValue None => ret tt
  | AsyncValue (Some remote_td) =>
      let '(to_update, to_delete) :=
        directory_compare_from_hash local_td remote_td in
      (if tmpfile_opens files then ret tt else raise Py.EnvironmentError);;
      tar ← add_to_archive to_update [];
      (if tar_closes files then ret tt else raise Py.EnvironmentError);;
      remote_call raises (CallUpdateTaskDirectory agent tar to_delete)
  end.
End TaskDirectory.

(** [__init__]: the state once the constructor has run.  The constructor
    arms the synchronisation timer, tries to connect, and only then sets
    the cursor and the running lists; connecting reads neither, so they
    are set from the start here.  When connecting raises, so does the
    constructor, and no manager is returned. *)
Definition init (infos : list (string * nat)) (aliases : gmap string string)
    (testing : bool) (content : gmap string string)
    (raises : RemoteCall → bool) (connect : nat → option Conn)
    : outcome unit :=
  let s0 := mkState false testing aliases infos
              (replicate (length infos) None) 0
              (replicate (length infos) [])
              content [] [] []
              [TimerSynchronizeTaskDir (if testing then 2 else 60)] in
  try_agent_connection raises connect s0.

(** [number_agents_available(self)] *)
Definition number_agents_available (s : State) : nat :=
  length (filter (λ entry, entry ≠ None) (agents s)).

(** The loop of [close]: [for i, entry in enumerate(self._agents)].  The
    body assigns to [self._agents[i]] only, so the list keeps its length
    and the walk reads entry [i] from the state at step [i].  For an
    entry that is not [None] the slot is set to [None] and the
    connection is closed; [notifies i] tells whether closing that
    connection makes rpyc run the [on_disconnect] hook of its service,
    that is [_on_agent_disconnection(i)], before [close] goes on.  The
    serving threads, which the state does not hold, are stopped and
    joined there too. *)
Fixpoint close_loop (notifies : nat → bool) (remaining i : nat) : M unit :=
  match remaining with
  | 0 => ret tt
  | S remaining' =>
      entry ← gets (λ s, agents s !! i);
      match entry with
      | None => ret tt
      | Some None => close_loop notifies remaining' (S i)
      | Some (Some _) =>
          assign_agent i None;;
          (if notifies i then on_agent_disconnection i else ret tt);;
          close_loop notifies remaining' (S i)
      end
  end.

(** [close(self)] *)
Definition close (notifies : nat → bool) : M unit :=
  modify (set_closed true);;
  n ← gets (λ s, length (agents s));
  close_loop notifies n 0.

End Manager.

(** * Vocabulary of the statements *)

Section Vocabulary.
Import Manager.

(** A slot is connected when its entry of [_agents] is not [None]. *)
Definition connected (s : State) (i : nat) : Prop :=
  ∃ c, agents s !! i = Some (Some c).

Definition no_agent_connected (s : State) : Prop :=
  Forall (λ a, a = None) (agents s).

(** [n] calls of [_select_agent] in a row, with what they return. *)
Fixpoint select_agent_times (n : nat) : M (list (option nat)) :=
  match n with
  | 0 => mret []
  | S n' => r ← select_agent; rs ← select_agent_times n'; mret (r :: rs)
  end.

(** The elements at even positions (0, 2, 4, ...) of a list, and those
    at odd positions. *)
Fixpoint alternate {A} (l : list A) : list A * list A :=
  match l with
  | [] => ([], [])
  | x :: l' => let '(a, b) := alternate l' in (x :: b, a)
  end.
Definition evens {A} (l : list A) : list A := (alternate l).1.
Definition odds {A} (l : list A) : list A := (alternate l).2.

(** The state [_agent_shutdown agent_id] leaves when it has reported a
    crash for the jobs [js] and left [l'] in the list it walked. *)
Definition after_shutdown (agent_id : nat) (js l' : list string) (s : State)
    : State :=
  let s1 := add_reports ((λ j, (j, crash_agent_shutdown)) <$> js) s in
  if decide (agent_id < length (agents s)) then
    set_running_on_agent <[agent_id := []]> (set_agents <[agent_id := None]> s1)
  else set_running_on_agent <[agent_id := l']> s1.

(** A [new_job] call for the given job, on whichever agent. *)
Definition is_new_job_call (jobid : string) (task : Task)
    (inputdata : gmap string string) (debug : bool) (c : RemoteCall) : Prop :=
  ∃ agent_id conn,
    c = CallNewJob agent_id conn jobid (get_course_id task) (get_id task)
                   inputdata debug.

(** A manager with [n] connected agents and nothing running. *)
Definition idle_pool (n : nat) : State :=
  mkState false true ∅ (replicate n ("localhost", 4001))
          (replicate n (Some 0)) 0 (replicate n []) ∅ [] [] [] [].

(** The hash requests of one synchronisation round: one per connected
    agent, in slot order, each carrying the local snapshot. *)
Definition sync_requests (s : State) (local_td : gmap string string)
    : list RemoteCall :=
  (λ a, CallGetTaskDirectoryHashes a local_td) <$> omap id (agents s).

(** What a tick of the synchronisation timer is expected to do, given
    the snapshot [current] read at that tick. *)
Definition sync_cycle_ok (raises : RemoteCall → bool)
    (current : gmap string string) (s : State) : Prop :=
  ∃ s', try_synchronize_task_dir raises current s = Returned tt s'
        ∧ let '(changed, deleted) :=
            directory_compare_from_hash current
              (last_content_in_task_directory s) in
          (changed ≠ [] ∨ deleted ≠ [] →
             last_content_in_task_directory s' = current
             ∧ calls s' = calls s ++ sync_requests s current)
          ∧ (changed = [] ∧ deleted = [] →
             last_content_in_task_directory s'
             = last_content_in_task_directory s
             ∧ calls s' = calls s).

(** All the job ids recorded as running, slot after slot. *)
Definition flat (s : State) : list string := concat (running_on_agent s).

(** No job id occurs twice in the running list of a slot, and none
    occurs in the lists of two slots. *)
Definition running_sets_disjoint (s : State) : Prop :=
  (∀ i l, running_on_agent s !! i = Some l → NoDup l)
  ∧ (∀ i i' l l' j,
       running_on_agent s !! i = Some l →
       running_on_agent s !! i' = Some l' →
       j ∈ l → j ∈ l' → i = i').

(** What can happen to the manager: the entry points that the
    dispatcher, the rpyc threads and the timers call. *)
Inductive Event : Type :=
| EvSubmit (env : nat → TryOutcome) (jobid : string) (task : Task)
           (inputdata : gmap string string) (debug : bool)
| EvJobDone (jobid : string)
            (callback_return_val : AsyncResult (gmap string string))
            (agent_id : nat)
| EvDisconnected (agent_id : nat)
| EvConnectionTimer (raises : RemoteCall → bool) (connect : nat → option Conn)
| EvSynchronizeTimer (raises : RemoteCall → bool)
    (current : gmap string string)
| EvTaskDirectoryHashes (tasks_directory cwd : string) (files : Files)
    (raises : RemoteCall → bool) (agent : Conn)
    (local_td : gmap string string)
    (async_value_remote_td : AsyncResult (option (gmap string string))).

Definition handle (ev : Event) : M unit :=
  match ev with
  | EvSubmit env jobid task inputdata debug =>
      execute_job env jobid task inputdata debug
  | EvJobDone jobid r agent_id => execute_job_callback jobid r agent_id
  | EvDisconnected agent_id => on_agent_disconnection agent_id
  | EvConnectionTimer raises connect => try_agent_connection raises connect
  | EvSynchronizeTimer raises current => try_synchronize_task_dir raises current
  | EvTaskDirectoryHashes tasks_directory cwd files raises agent local_td r =>
      synchronize_task_dir_p2 tasks_directory cwd files raises agent local_td r
  end.

(** An exception ends the entry point where it is raised; the state
    keeps what was done before. *)
Definition step (s : State) (ev : Event) : State :=
  default s (final_state (handle ev s)).

Definition run (evs : list Event) (s : State) : State := foldl step s evs.

(** Every submitted job id is new: it is in no running list at the
    moment it is submitted. *)
Fixpoint fresh_submissions (evs : list Event) (s : State) : Prop :=
  match evs with
  | [] => True
  | ev :: evs' =>
      match ev with
      | EvSubmit _ jobid _ _ _ => jobid ∉ flat s
      | _ => True
      end
      ∧ fresh_submissions evs' (step s ev)
  end.

(** [frame R m]: whenever [m] ends, by returning or by raising, the
    states before and after are related by [R]. *)
Definition frame {A} (R : State → State → Prop) (m : M A) : Prop :=
  ∀ s s', final_state (m s) = Some s' → R s s'.

(** The running lists have only lost job ids. *)
Definition shrinks (s s' : State) : Prop := flat s' ⊆+ flat s.

(** [p] is an initial segment of [l]. *)
Fixpoint list_startswith (l p : list string) : bool :=
  match p, l with
  | [], _ => true
  | x :: p', y :: l' => bool_decide (x = y) && list_startswith l' p'
  | _ :: _, [] => false
  end.

(** The path, joined to the tasks directory and made absolute, lies in
    the tasks directory: the components of the directory are an initial
    segment of the components of the path. *)
Definition resolves_inside (tasks_directory cwd path : string) : bool :=
  list_startswith
    (PosixPath.components
       (PosixPath.abspath cwd (PosixPath.join tasks_directory [path])))
    (PosixPath.components (PosixPath.abspath cwd tasks_directory)).

(** One of the components of the path is [..]. *)
Definition has_pardir_component (path : string) : bool :=
  bool_decide (".." ∈ PosixPath.split_sep path).

(** A path escapes the tasks directory when it holds a parent-directory
    escape or resolves outside the directory.  The first is read as
    widely as can be: two dots in a row anywhere in the path, which
    covers every path with a [..] component (lemma
    [has_pardir_component_str_in]). *)
Definition escapes (tasks_directory cwd path : string) : bool :=
  PosixPath.str_in ".." path || negb (resolves_inside tasks_directory cwd path).

(** The test of the archive loop as a function of the path alone. *)
Definition path_accepted (tasks_directory cwd path : string) : bool :=
  match PosixPath.relpath cwd (PosixPath.join tasks_directory [path])
          tasks_directory with
  | Some rel => bool_decide (rel = path) && negb (PosixPath.str_in ".." path)
  | None => false
  end.


(** The retry of a submission is unbounded: whatever the bound, the
    submission comes to make more attempts (remote calls) than that. *)
Definition retry_unbounded (env : nat → TryOutcome) (jobid : string)
    (task : Task) (inputdata : gmap string string) (debug : bool)
    (s : State) : Prop :=
  ∀ bound, ∃ fuel s',
    final_state (execute_job_fuel fuel env jobid task inputdata debug s) = Some s'
    ∧ bound < length (calls s') - length (calls s).

(** A manager with [n] slots, none of them connected, and nothing
    running. *)
Definition disconnected_pool (n : nat) : State :=
  mkState false true ∅ (replicate n ("localhost", 4001))
          (replicate n None) 0 (replicate n []) ∅ [] [] [] [].

(** The three lists indexed by agent id have one entry per configured
    agent. *)
Definition well_formed (s : State) : Prop :=
  length (agents s) = length (agents_info s)
  ∧ length (running_on_agent s) = length (agents_info s).

(** What no entry point but [close] changes: the closed flag, the
    configuration and the number of slots; the cursor never goes back. *)
Definition stable (s s' : State) : Prop :=
  closed s' = closed s
  ∧ is_testing s' = is_testing s
  ∧ image_aliases s' = image_aliases s
  ∧ agents_info s' = agents_info s
  ∧ length (agents s') = length (agents s)
  ∧ length (running_on_agent s') = length (running_on_agent s)
  ∧ next_agent s ≤ next_agent s'.

(** What a round of [_try_agent_connection] makes of a slot: a slot
    that holds a connection keeps it, an empty one gets what
    [rpyc.connect] gives. *)
Definition reconnect (connect : nat → option Conn) (entry : nat)
    (agent : option Conn) : option Conn :=
  match agent with
  | Some c => Some c
  | None => connect entry
  end.

(** The connection a round opens for an entry of [_agents_info], and the
    message it prints for it, given the slots [ag] at the start of the
    round. *)
Definition opened (connect : nat → option Conn) (ag : list (option Conn))
    (p : nat * (string * nat)) : option Conn :=
  match ag !! p.1 with
  | Some None => connect p.1
  | _ => None
  end.

Definition announced (connect : nat → option Conn) (ag : list (option Conn))
    (p : nat * (string * nat)) : option Message :=
  match ag !! p.1 with
  | Some None =>
      Some (match connect p.1 with
            | Some _ => MsgAgentConnected
            | None => MsgCannotConnect p.2.1 p.2.2
            end)
  | _ => None
  end.

Definition new_connections (connect : nat → option Conn) (s : State)
    : list Conn :=
  omap (opened connect (agents s)) (Py.enumerate (agents_info s)).

Definition connection_messages (connect : nat → option Conn) (s : State)
    : list Message :=
  omap (announced connect (agents s)) (Py.enumerate (agents_info s)).

(** None of the given remote calls raises. *)
Definition all_pass (raises : RemoteCall → bool) (cs : list RemoteCall)
    : Prop :=
  Forall (λ c, raises c = false) cs.

(** A transport on which no call raises, and a file system on which
    nothing fails. *)
Definition reliable : RemoteCall → bool := λ _, false.

Definition sound_files : Files :=
  {| tmpfile_opens := true; file_readable := λ _, true; tar_closes := true |}.

(** Every path of the list that passes the test of the archive loop
    names a file that [tar.add] can read. *)
Definition all_readable (tasks_directory cwd : string) (files : Files)
    (to_update : list string) : Prop :=
  Forall (λ p, path_accepted tasks_directory cwd p = true →
               file_readable files (PosixPath.join tasks_directory [p]) = true)
         to_update.

(** The two calls made on a connection that has just been opened. *)
Definition greeting (aliases content : gmap string string) (conn : Conn)
    : list RemoteCall :=
  [CallUpdateImageAliases conn aliases;
   CallGetTaskDirectoryHashes conn content].

(** The timer a periodic method arms again, unless the manager is under
    test. *)
Definition rearm (t : Timer) (s : State) : State :=
  if is_testing s then s else add_timer t s.

(** A manager with two connected agents, the first of which runs three
    jobs. *)
Definition busy_pool : State :=
  mkState false true ∅ [("localhost", 4001); ("localhost", 4002)]
          [Some 0; Some 1] 0 [["j1"; "j2"; "j3"]; []] ∅ [] [] [] [].

End Vocabulary.

(** * Properties *)

(** Unfolds the monad operations, so that a method applied to a state
    reduces to a [match] on outcomes. *)
Ltac unfold_monad :=
  unfold or_raise, try_except, mbind, M_bind, bind, mret, M_ret, gets,
         modify, raise, ret in *.

(** ** Python lists *)

Section PyLists.
Context `{EqDecision A}.
Implicit Types (x y : A) (l : list A).

Lemma enumerate_from_lookup {B} (l : list B) k i p :
  Py.enumerate_from k l !! i = Some p ↔ p.1 = k + i ∧ l !! i = Some p.2.
Proof.
  revert k i. induction l as [|b l IH]; intros k i; simpl.
  - rewrite !lookup_nil. split; [done|by intros [_ ?]].
  - destruct i as [|i]; simpl.
    + destruct p as [n b']. simpl. rewrite Nat.add_0_r.
      split; [by intros [= -> ->]|by intros [-> [= ->]]].
    + rewrite IH. replace (S k + i) with (k + S i) by lia. done.
Qed.

Lemma elem_of_enumerate {B} (l : list B) i b :
  (i, b) ∈ Py.enumerate l ↔ l !! i = Some b.
Proof.
  unfold Py.enumerate. rewrite list_elem_of_lookup. split.
  - intros [j Hj]. apply enumerate_from_lookup in Hj as [Hi Hb].
    simpl in *. by subst.
  - intros Hb. exists i. apply enumerate_from_lookup. done.
Qed.

Lemma enumerate_from_fst_lt {B} (l : list B) (k : nat) (p : nat * B) :
  p ∈ Py.enumerate_from k l → (k ≤ p.1)%nat.
Proof.
  intros [i Hi]%list_elem_of_lookup.
  apply enumerate_from_lookup in Hi as [-> _]. lia.
Qed.

Lemma list_remove_lookup l i x :
  NoDup l → l !! i = Some x → Py.list_remove x l = Some (delete i l).
Proof.
  revert i. induction l as [|y l IH]; intros i Hnd Hi; [done|].
  apply NoDup_cons in Hnd as [Hy Hnd]. simpl.
  destruct i as [|i]; simpl in *.
  - simplify_eq. by rewrite decide_True.
  - rewrite decide_False.
    + by rewrite (IH i).
    + intros ->. apply Hy. by eapply list_elem_of_lookup_2.
Qed.

Lemma list_remove_elem_of l x : x ∈ l → is_Some (Py.list_remove x l).
Proof.
  induction l as [|y l IH]; [by intros ?%elem_of_nil|].
  intros Hx. simpl. destruct (decide (x = y)); [by eexists|].
  apply elem_of_cons in Hx as [?|Hx]; [done|].
  destruct (IH Hx) as [l' ->]. by eexists.
Qed.

Lemma list_remove_sublist l l' x : Py.list_remove x l = Some l' → l' `sublist_of` l.
Proof.
  revert l'. induction l as [|y l IH]; intros l'; [done|]. simpl.
  destruct (decide (x = y)).
  - intros [= <-]. by apply sublist_cons.
  - destruct (Py.list_remove x l) as [l0|]; [|done].
    intros [= <-]. apply sublist_skip. by apply IH.
Qed.

Lemma list_remove_length l l' x :
  Py.list_remove x l = Some l' → length l = S (length l').
Proof.
  revert l'. induction l as [|y l IH]; intros l'; [done|]. simpl.
  destruct (decide (x = y)).
  - by intros [= <-].
  - destruct (Py.list_remove x l) as [l0|]; [|done].
    intros [= <-]. simpl. f_equal. by apply IH.
Qed.
End PyLists.

(** ** Agent selection *)

Section SelectAgent.
Import Manager.

Lemma elem_of_available_agents s i :
  i ∈ available_agents s ↔ connected s i.
Proof.
  unfold available_agents, connected. rewrite list_elem_of_omap. split.
  - intros [[k [c|]] [Hin Hp]]; simplify_eq.
    apply elem_of_enumerate in Hin. eauto.
  - intros [c Hc]. exists (i, Some c). split; [|done].
    by apply elem_of_enumerate.
Qed.

Lemma NoDup_omap_enumerate_from (l : list (option Conn)) k :
  NoDup (omap (λ '(i, j), match j : option Conn with
                          | Some _ => Some i | None => None end)
              (Py.enumerate_from k l)).
Proof.
  revert k. induction l as [|a l IH]; intros k; simpl; [constructor|].
  destruct a as [c|]; simpl; [|apply IH].
  apply NoDup_cons. split; [|apply IH].
  rewrite list_elem_of_omap. intros [[j b] [Hin Hp]].
  apply enumerate_from_fst_lt in Hin. simpl in *.
  destruct b; simplify_eq. lia.
Qed.

Lemma NoDup_available_agents s : NoDup (available_agents s).
Proof. apply NoDup_omap_enumerate_from. Qed.

Lemma available_agents_nil s :
  no_agent_connected s ↔ available_agents s = [].
Proof.
  unfold no_agent_connected. rewrite Forall_lookup. split.
  - intros Hall. apply elem_of_nil_inv. intros i Hi.
    apply elem_of_available_agents in Hi as [c Hc].
    by specialize (Hall _ _ Hc).
  - intros Hnil i [c|] Hi; [|done].
    assert (i ∈ available_agents s) as Hin
      by (apply elem_of_available_agents; by exists c).
    rewrite Hnil in Hin. by apply elem_of_nil in Hin.
Qed.

(** [_select_agent] in closed form. *)
Lemma select_agent_None s :
  available_agents s = [] → select_agent s = Returned None s.
Proof.
  intros Hnil. unfold select_agent. unfold_monad. by rewrite Hnil.
Qed.

Lemma select_agent_Some s :
  available_agents s ≠ [] →
  ∃ i, available_agents s
         !! (next_agent s mod length (available_agents s)) = Some i
       ∧ select_agent s = Returned (Some i) (set_next_agent (λ n, n + 1) s).
Proof.
  intros Hne. unfold select_agent. unfold_monad.
  assert (length (available_agents s) ≠ 0) as Hlen
    by (by destruct (available_agents s)).
  rewrite decide_False by done.
  destruct (lookup_lt_is_Some_2 (available_agents s)
              (next_agent s mod length (available_agents s))) as [i Hi].
  { by apply Nat.mod_upper_bound. }
  exists i. by rewrite Hi.
Qed.

(** Whatever [_select_agent] does, it only ever touches the cursor. *)
Lemma select_agent_frame s :
  ∃ r s', select_agent s = Returned r s'
          ∧ s' = (if r is Some _ then set_next_agent (λ n, n + 1) s else s)
          ∧ (r = None ↔ available_agents s = []).
Proof.
  destruct (decide (available_agents s = [])) as [Hnil|Hne].
  - exists None, s. by rewrite select_agent_None.
  - destruct (select_agent_Some s Hne) as (i & _ & ->).
    exists (Some i), (set_next_agent (λ n, n + 1) s). naive_solver.
Qed.

Lemma select_agent_times_spec n s :
  available_agents s ≠ [] →
  ∃ s', select_agent_times n s =
          Returned ((λ i, available_agents s
                            !! ((next_agent s + i) mod length (available_agents s)))
                      <$> seq 0 n) s'
        ∧ agents s' = agents s
        ∧ running_on_agent s' = running_on_agent s
        ∧ next_agent s' = next_agent s + n.
Proof.
  intros Hne. revert s Hne. induction n as [|n IH]; intros s Hne.
  - exists s. simpl. unfold_monad. rewrite Nat.add_0_r. done.
  - destruct (select_agent_Some s Hne) as (i & Hi & Hsel).
    set (s1 := set_next_agent (λ n, n + 1) s) in *.
    assert (available_agents s1 = available_agents s) as Hav by done.
    destruct (IH s1) as (s' & Hrun & Hag & Hrn & Hnx); [by rewrite Hav|].
    exists s'. simpl. unfold_monad. rewrite Hsel, Hrun, Hav.
    subst s1. simpl in *.
    split_and!; [|done|done|lia].
    f_equal. f_equal.
    + by rewrite Nat.add_0_r.
    + rewrite <- seq_shift, <- list_fmap_compose. apply list_fmap_ext.
      intros _ j _. simpl. do 2 f_equal. lia.
Qed.

(** The residues of [N] consecutive numbers are the numbers below [N]. *)
Lemma consecutive_residues (c k N : nat) :
  N ≠ 0 → (λ i, (c + i) mod N) <$> seq k N ≡ₚ seq 0 N.
Proof.
  intros HN. apply submseteq_length_Permutation.
  - apply NoDup_submseteq.
    + apply NoDup_fmap_2_strong; [|apply NoDup_seq].
      intros i j [Hi1 Hi2]%elem_of_seq [Hj1 Hj2]%elem_of_seq Heq.
      pose proof (Nat.div_mod_eq (c + i) N) as Ei.
      pose proof (Nat.div_mod_eq (c + j) N) as Ej.
      rewrite Heq in Ei.
      assert ((c + i) `div` N = (c + j) `div` N) by nia. nia.
    + intros x [i [-> _]]%list_elem_of_fmap. apply elem_of_seq.
      pose proof (Nat.mod_upper_bound (c + i) N HN). lia.
  - by rewrite length_fmap, !length_seq.
Qed.

Lemma lookup_all_indices {B} (l : list B) :
  (λ i, l !! i) <$> seq 0 (length l) = Some <$> l.
Proof.
  induction l as [|b l IH]; [done|]. csimpl. f_equal.
  by rewrite <- IH, <- seq_shift, <- list_fmap_compose.
Qed.

Lemma round_robin_window (av : list nat) (c k : nat) :
  av ≠ [] →
  (λ i, av !! ((c + i) mod length av)) <$> seq k (length av) ≡ₚ Some <$> av.
Proof.
  intros Hne. rewrite <- lookup_all_indices.
  rewrite <- (consecutive_residues c k (length av)) by (by destruct av).
  by rewrite <- list_fmap_compose.
Qed.
End SelectAgent.

(** ** Round-robin selection *)

Section RoundRobin.
Import Manager.

(** C3.  While the connected slots stay the same non-empty set of [N]
    slots, any [N] consecutive calls of [_select_agent] (the calls number
    [k] to [k + N - 1] of a run) return each connected slot exactly once:
    what they return is a permutation of the connected slots, which are
    listed without repetition.  With no connected slot the call returns
    [None]. *)
Theorem select_agent_round_robin (s : State) (k : nat) :
  let N := length (available_agents s) in
  N ≠ 0 →
  (∀ i, i ∈ available_agents s ↔ connected s i)
  ∧ NoDup (available_agents s)
  ∧ (∃ rs s', select_agent_times (k + N) s = Returned rs s'
              ∧ agents s' = agents s
              ∧ take N (drop k rs) ≡ₚ Some <$> available_agents s)
  ∧ (∀ s0, no_agent_connected s0 → ∃ s', select_agent s0 = Returned None s').
Proof.
  intros N HN. split_and!.
  - apply elem_of_available_agents.
  - apply NoDup_available_agents.
  - assert (available_agents s ≠ []) as Hne by (by destruct (available_agents s)).
    destruct (select_agent_times_spec (k + N) s Hne) as (s' & Hrun & Hag & _ & _).
    eexists _, s'. split_and!; [exact Hrun|exact Hag|].
    rewrite <- fmap_drop, <- fmap_take.
    rewrite seq_app, drop_app_length' by (by rewrite length_seq).
    rewrite take_ge by (by rewrite length_seq).
    by apply round_robin_window.
  - intros s0 Hno. exists s0. by apply select_agent_None, available_agents_nil.
Qed.

(** C10.  Called while no slot is connected, [_select_agent] returns
    [None] and the whole state is as before; in any call the running sets
    are untouched, and the cursor moves (by one) exactly when a slot is
    returned. *)
Theorem select_agent_no_agent_frame (s : State) :
  no_agent_connected s →
  select_agent s = Returned None s
  ∧ ∀ s0, ∃ r s', select_agent s0 = Returned r s'
                  ∧ running_on_agent s' = running_on_agent s0
                  ∧ agents s' = agents s0
                  ∧ (r = None → s' = s0)
                  ∧ (is_Some r → next_agent s' = next_agent s0 + 1).
Proof.
  intros Hno. split.
  - by apply select_agent_None, available_agents_nil.
  - intros s0. destruct (select_agent_frame s0) as (r & s' & Hsel & -> & _).
    exists r. eexists. split; [exact Hsel|].
    destruct r; split_and!; done.
Qed.
End RoundRobin.

(** ** Reporting and fault recovery *)

Section FaultRecovery.
Import Manager.

Lemma state_eta s :
  mkState (closed s) (is_testing s) (image_aliases s) (agents_info s)
          (agents s) (next_agent s) (running_on_agent s)
          (last_content_in_task_directory s) (reported s) (calls s)
          (printed s) (timers s) = s.
Proof. by destruct s. Qed.

Lemma job_ended_None jobid result s :
  job_ended jobid result None s = Returned tt (add_reported (jobid, result) s).
Proof. done. Qed.

Lemma job_ended_Some jobid result i s l l' :
  running_on_agent s !! i = Some l →
  Py.list_remove jobid l = Some l' →
  job_ended jobid result (Some i) s
  = Returned tt (add_reported (jobid, result)
                   (set_running_on_agent <[i := l']> s)).
Proof.
  intros Hl Hrm. unfold job_ended. unfold_monad.
  rewrite Hl. simpl. by rewrite Hrm.
Qed.

Lemma job_ended_IndexError jobid result i s :
  running_on_agent s !! i = None →
  job_ended jobid result (Some i) s = Raised Py.IndexError s.
Proof. intros Hl. unfold job_ended. unfold_monad. by rewrite Hl. Qed.

Lemma job_ended_ValueError jobid result i s l :
  running_on_agent s !! i = Some l →
  Py.list_remove jobid l = None →
  job_ended jobid result (Some i) s = Raised Py.ValueError s.
Proof.
  intros Hl Hrm. unfold job_ended. unfold_monad.
  rewrite Hl. simpl. by rewrite Hrm.
Qed.

Lemma evens_cons {A} (x : A) l : evens (x :: l) = x :: odds l.
Proof. unfold evens, odds. simpl. by destruct (alternate l). Qed.

Lemma odds_cons {A} (x : A) l : odds (x :: l) = evens l.
Proof. unfold evens, odds. simpl. by destruct (alternate l). Qed.

Lemma evens_take_drop {A} (l : list A) : evens l = take 1 l ++ odds (drop 1 l).
Proof.
  destruct l as [|x l]; [done|]. rewrite evens_cons. simpl. by rewrite drop_0.
Qed.

Lemma odds_drop {A} (l : list A) : odds l = evens (drop 1 l).
Proof. destruct l as [|x l]; [done|]. rewrite odds_cons. simpl. by rewrite drop_0. Qed.

(** The walk of [_agent_shutdown] over the running list of [agent_id]:
    it always ends; the jobs it reports come from the list; when the list
    has no repetition, the reported jobs are those at every other
    position from the start index on, the others are left in the list. *)
Lemma map_running_spec agent_id fuel index s l :
  running_on_agent s !! agent_id = Some l →
  length l - index < fuel →
  ∃ js l',
    map_running fuel
      (λ jid, job_ended jid crash_agent_shutdown (Some agent_id))
      agent_id index s
    = Returned tt
        (add_reports ((λ j, (j, crash_agent_shutdown)) <$> js)
           (set_running_on_agent <[agent_id := l']> s))
    ∧ l' `sublist_of` l
    ∧ js ⊆ l
    ∧ (NoDup l → js = evens (drop index l)
                 ∧ l' = take index l ++ odds (drop index l)).
Proof.
  revert index s l. induction fuel as [|fuel IH]; intros index s l Hl Hfuel; [lia|].
  simpl. unfold_monad. rewrite Hl. simpl.
  destruct (l !! index) as [jid|] eqn:Hjid.
  - assert (jid ∈ l) as Hin by (by eapply list_elem_of_lookup_2).
    destruct (list_remove_elem_of l jid Hin) as [l1 Hl1].
    rewrite (job_ended_Some _ _ _ _ _ _ Hl Hl1).
    set (s1 := add_reported _ _).
    assert (running_on_agent s1 !! agent_id = Some l1) as Hs1.
    { simpl. apply list_lookup_insert_eq. by eapply lookup_lt_Some. }
    pose proof (list_remove_length _ _ _ Hl1) as Hlen.
    pose proof (lookup_lt_Some _ _ _ Hjid) as Hlt.
    destruct (IH (S index) s1 l1 Hs1) as (js & l' & -> & Hsub & Hjs & Hnd); [lia|].
    exists (jid :: js), l'. split_and!.
    + f_equal. unfold add_reports, set_running_on_agent. simpl.
      rewrite list_insert_insert_eq. by rewrite <- (assoc_L (++)).
    + etrans; [exact Hsub|]. by eapply list_remove_sublist.
    + intros j [->|Hj]%elem_of_cons; [done|].
      apply Hjs in Hj. eapply elem_of_sublist; [exact Hj|].
      by eapply list_remove_sublist.
    + intros Hndl. rewrite (list_remove_lookup _ _ _ Hndl Hjid) in Hl1.
      injection Hl1 as <-.
      destruct Hnd as [-> ->]; [by eapply sublist_NoDup, sublist_delete|].
      rewrite (drop_S _ _ _ Hjid), evens_cons.
      rewrite delete_take_drop.
      replace (S index) with (length (take index l) + 1)
        by (rewrite length_take; lia).
      rewrite drop_app_add, take_app_add.
      rewrite <- (assoc_L (++)), <- evens_take_drop, <- odds_drop.
      by rewrite odds_cons.
  - exists [], l. split_and!.
    + f_equal. unfold add_reports, set_running_on_agent. simpl.
      rewrite list_insert_id, app_nil_r by done. by rewrite state_eta.
    + done.
    + set_solver.
    + intros _. apply lookup_ge_None in Hjid.
      rewrite drop_ge, take_ge by lia. by rewrite app_nil_r.
Qed.
End FaultRecovery.

Section Shutdown.
Import Manager.

Lemma agent_shutdown_IndexError agent_id s :
  running_on_agent s !! agent_id = None →
  agent_shutdown agent_id s = Raised Py.IndexError s.
Proof. intros Hl. unfold agent_shutdown. unfold_monad. by rewrite Hl. Qed.

Lemma agent_shutdown_spec agent_id s l :
  running_on_agent s !! agent_id = Some l →
  ∃ js l',
    agent_shutdown agent_id s = Returned tt (after_shutdown agent_id js l' s)
    ∧ l' `sublist_of` l
    ∧ js ⊆ l
    ∧ (NoDup l → js = evens l ∧ l' = odds l).
Proof.
  intros Hl.
  destruct (map_running_spec agent_id (S (length l)) 0 s l Hl)
    as (js & l' & Hrun & Hsub & Hjs & Hnd); [lia|].
  exists js, l'. split_and!; try done.
  unfold agent_shutdown. unfold_monad. rewrite Hl. cbv beta match.
  rewrite Hrun.
    unfold after_shutdown, assign_agent, assign_running. simpl.
    pose proof (lookup_lt_Some _ _ _ Hl) as Hlt.
    destruct (decide (agent_id < length (agents s))); [|done].
    simpl. rewrite length_insert, decide_True by done.
    unfold set_running_on_agent, set_agents. simpl.
    by rewrite list_insert_insert_eq.
Qed.

(** The agent list after a shutdown that returns. *)
Lemma agent_shutdown_agents agent_id s s' :
  agent_shutdown agent_id s = Returned tt s' →
  agents s' = <[agent_id := None]> (agents s).
Proof.
  destruct (running_on_agent s !! agent_id) as [l|] eqn:Hl.
  - destruct (agent_shutdown_spec _ _ _ Hl) as (js & l' & -> & _).
    intros [= <-]. unfold after_shutdown.
    destruct (decide _) as [|Hge]; simpl; [done|].
    rewrite list_insert_ge; [done|lia].
  - by rewrite agent_shutdown_IndexError.
Qed.

Lemma agent_shutdown_calls agent_id s s' :
  agent_shutdown agent_id s = Returned tt s' → calls s' = calls s.
Proof.
  destruct (running_on_agent s !! agent_id) as [l|] eqn:Hl.
  - destruct (agent_shutdown_spec _ _ _ Hl) as (js & l' & -> & _).
    intros [= <-]. unfold after_shutdown. by destruct (decide _).
  - by rewrite agent_shutdown_IndexError.
Qed.

Lemma agent_shutdown_not_OutOfFuel agent_id s :
  agent_shutdown agent_id s ≠ OutOfFuel.
Proof.
  destruct (running_on_agent s !! agent_id) as [l|] eqn:Hl.
  - by destruct (agent_shutdown_spec _ _ _ Hl) as (js & l' & -> & _).
  - by rewrite agent_shutdown_IndexError.
Qed.

(** Fault recovery on a slot whose running list has no repetition: a
    crash is reported for the jobs at even positions of the list, and
    for no other; the slot ends disconnected with an empty list. *)
Lemma agent_shutdown_reports agent_id s l :
  running_on_agent s !! agent_id = Some l →
  NoDup l →
  agent_id < length (agents s) →
  ∃ s', agent_shutdown agent_id s = Returned tt s'
        ∧ reported s' = reported s ++ ((λ j, (j, crash_agent_shutdown)) <$> evens l)
        ∧ running_on_agent s' !! agent_id = Some []
        ∧ agents s' !! agent_id = Some None.
Proof.
  intros Hl Hnd Hlt.
  destruct (agent_shutdown_spec _ _ _ Hl) as (js & l' & -> & _ & _ & Hjs).
  destruct (Hjs Hnd) as [-> ->]. eexists. split; [done|].
  unfold after_shutdown. rewrite decide_True by done. simpl.
  split_and!; [done| |].
  - apply list_lookup_insert_eq. by eapply lookup_lt_Some.
  - by apply list_lookup_insert_eq.
Qed.

(** C1 (as the code behaves).  With two jobs running on slot 0, fault
    recovery reports a crash for the first one only: the walk over the
    running list loses the second job when the first is removed from
    under it.  The slot's list is then emptied, so the second job is
    dropped without any result. *)
Theorem agent_shutdown_skips_second_job :
  let s := mkState false false ∅ [("agent0", 4001)] [Some 0] 0
                   [["j1"; "j2"]] ∅ [] [] [] [] in
  ∃ s', agent_shutdown 0 s = Returned tt s'
        ∧ reported s' = [("j1", crash_agent_shutdown)]
        ∧ running_on_agent s' = [[]]
        ∧ agents s' = [None]
        ∧ "j2" ∉ (reported s').*1.
Proof.
  eexists. split; [vm_compute; reflexivity|]. simpl.
  split_and!; try reflexivity.
  intros Hin. apply list_elem_of_singleton in Hin. discriminate.
Qed.
End Shutdown.

(** ** Dispatch *)

Section Availability.
Import Manager.

Lemma select_agent_cases s :
  (available_agents s = [] ∧ select_agent s = Returned None s)
  ∨ (∃ i, connected s i
          ∧ select_agent s = Returned (Some i) (set_next_agent (λ n, n + 1) s)).
Proof.
  destruct (decide (available_agents s = [])) as [Hnil|Hne].
  - left. split; [done|]. by apply select_agent_None.
  - right. destruct (select_agent_Some s Hne) as (i & Hi & Hsel).
    exists i. split; [|done].
    apply elem_of_available_agents. by eapply list_elem_of_lookup_2.
Qed.

Lemma available_agents_ext s s' :
  agents s = agents s' → available_agents s = available_agents s'.
Proof. unfold available_agents. by intros ->. Qed.

Lemma available_agents_length s :
  length (available_agents s) ≤ length (agents s).
Proof.
  rewrite <- (length_seq (length (agents s)) 0). apply submseteq_length.
  apply NoDup_submseteq; [apply NoDup_available_agents|].
  intros i [c Hc]%elem_of_available_agents. apply elem_of_seq.
  apply lookup_lt_Some in Hc. lia.
Qed.

Lemma available_agents_disconnect_perm s s' i :
  connected s i →
  agents s' = <[i := None]> (agents s) →
  available_agents s ≡ₚ i :: available_agents s'.
Proof.
  intros [c' Hc'] Hag. pose proof (lookup_lt_Some _ _ _ Hc') as Hlt.
  assert (i ∉ available_agents s') as Hi.
  { intros [c Hc]%elem_of_available_agents. rewrite Hag in Hc.
    by rewrite list_lookup_insert_eq in Hc. }
  apply NoDup_Permutation.
  - apply NoDup_available_agents.
  - apply NoDup_cons. split; [done|apply NoDup_available_agents].
  - intros j. rewrite elem_of_cons, !elem_of_available_agents.
    unfold connected. rewrite Hag.
    destruct (decide (i = j)) as [->|Hne].
    + rewrite list_lookup_insert_eq by done.
      split; [by left|]. intros _. by exists c'.
    + rewrite list_lookup_insert_ne by done.
      split; [by right|]. by intros [?|?].
Qed.

Lemma available_agents_disconnect s s' i :
  connected s i →
  agents s' = <[i := None]> (agents s) →
  length (available_agents s) = S (length (available_agents s')).
Proof.
  intros Hi Hag.
  by rewrite (available_agents_disconnect_perm s s' i Hi Hag).
Qed.

End Availability.

Section Dispatch.
Import Manager.
Context (env : nat → TryOutcome) (jobid : string) (task : Task)
        (inputdata : gmap string string) (debug : bool).

(** The [try] block on a connected agent, by what the transport does. *)
Lemma dispatch_connected i s c :
  agents s !! i = Some (Some c) →
  let s1 := add_call (CallNewJob i c jobid (get_course_id task) (get_id task)
                                 inputdata debug) s in
  dispatch env jobid task inputdata debug i s =
    match env i with
    | CallRaises => Raised Py.TransportError s1
    | after_call =>
        match running_on_agent s !! i with
        | None => Raised Py.IndexError s1
        | Some l =>
            let s2 := set_running_on_agent <[i := l ++ [jobid]]> s1 in
            match after_call with
            | AddCallbackRaises => Raised Py.TransportError s2
            | _ => Returned tt s2
            end
        end
    end.
Proof.
  intros Hc. unfold dispatch. unfold_monad. rewrite Hc. simpl.
  destruct (env i); simpl; try done;
    by destruct (running_on_agent s !! i).
Qed.

(** One round of [_execute_job]. *)
Lemma execute_job_fuel_S fuel s :
  execute_job_fuel (S fuel) env jobid task inputdata debug s =
    match select_agent s with
    | Returned None s1 => job_ended jobid crash_no_agent None s1
    | Returned (Some i) s1 =>
        match dispatch env jobid task inputdata debug i s1 with
        | Raised _ s2 =>
            (agent_shutdown i;;
             execute_job_fuel fuel env jobid task inputdata debug) s2
        | o => o
        end
    | Raised e s1 => Raised e s1
    | OutOfFuel => OutOfFuel
    end.
Proof.
  cbn [execute_job_fuel]. unfold_monad.
  destruct (select_agent s) as [[i|] s1|e s1|]; done.
Qed.

(** Each failed attempt disconnects the agent it was made on, so the
    recursion ends: with more fuel than connected agents the model never
    runs out, and the outcome does not depend on the fuel. *)
Lemma execute_job_fuel_irrelevant fuel fuel' s :
  length (available_agents s) < fuel →
  length (available_agents s) < fuel' →
  execute_job_fuel fuel env jobid task inputdata debug s
  = execute_job_fuel fuel' env jobid task inputdata debug s
  ∧ execute_job_fuel fuel env jobid task inputdata debug s ≠ OutOfFuel.
Proof.
  revert fuel' s. induction fuel as [|fuel IH]; intros fuel' s Hf Hf'; [lia|].
  destruct fuel' as [|fuel']; [lia|]. rewrite !execute_job_fuel_S.
  destruct (select_agent_cases s) as [[_ ->]|(i & [c Hc] & ->)]; [by split|].
  rewrite (dispatch_connected i _ c) by done. cbv zeta.
  set (s1 := add_call _ _).
  assert (∀ s2, agents s2 = agents s →
    (agent_shutdown i;; execute_job_fuel fuel env jobid task inputdata debug) s2
    = (agent_shutdown i;; execute_job_fuel fuel' env jobid task inputdata debug) s2
    ∧ (agent_shutdown i;; execute_job_fuel fuel env jobid task inputdata debug) s2
      ≠ OutOfFuel) as Hretry.
  { intros s2 Hs2. unfold_monad.
    destruct (agent_shutdown i s2) as [[] s3|e s3|] eqn:Hsh; [|done|].
    - apply agent_shutdown_agents in Hsh. rewrite Hs2 in Hsh.
      assert (length (available_agents s) = S (length (available_agents s3)))
        as Hlt by (apply (available_agents_disconnect s s3 i); [by exists c|done]).
      apply IH; lia.
    - by apply agent_shutdown_not_OutOfFuel in Hsh. }
  destruct (env i); [|by apply Hretry|].
  - destruct (running_on_agent _ !! i); [by split|by apply Hretry].
  - destruct (running_on_agent _ !! i); by apply Hretry.
Qed.

Lemma execute_job_fuel_enough fuel s :
  length (agents s) < fuel →
  execute_job_fuel fuel env jobid task inputdata debug s
  = execute_job env jobid task inputdata debug s
  ∧ execute_job env jobid task inputdata debug s ≠ OutOfFuel.
Proof.
  intros Hf. pose proof (available_agents_length s).
  unfold execute_job.
  split; [apply execute_job_fuel_irrelevant; lia|].
  apply (execute_job_fuel_irrelevant _ (S (length (agents s)))); lia.
Qed.
End Dispatch.

Section Submission.
Import Manager.
Context (env : nat → TryOutcome) (jobid : string) (task : Task)
        (inputdata : gmap string string) (debug : bool).

(** C2.  A submission made while every entry of [_agents] is [None]
    returns at once, in its first round and whatever the transport would
    do, in the state of before plus one result for the job: a crash whose
    text says that no agent is available.  No remote call is attempted. *)
Theorem execute_job_no_agent (s : State) (fuel : nat) :
  no_agent_connected s →
  let s' := add_reported (jobid, crash_no_agent) s in
  execute_job_fuel (S fuel) env jobid task inputdata debug s = Returned tt s'
  ∧ execute_job env jobid task inputdata debug s = Returned tt s'
  ∧ reported s' = reported s ++ [(jobid, crash_no_agent)]
  ∧ calls s' = calls s
  ∧ crash_no_agent !! "result" = Some "crash"
  ∧ crash_no_agent !! "text" =
      Some "There are not any agent available for grading. Please retry later. If this error persists, please contact the course administrator.".
Proof.
  intros Hno s'. apply available_agents_nil in Hno.
  assert (∀ n, execute_job_fuel (S n) env jobid task inputdata debug s
               = Returned tt s') as Hrun.
  { intros n. rewrite execute_job_fuel_S, select_agent_None by done.
    apply job_ended_None. }
  split_and!; try done. apply Hrun.
Qed.

Lemma available_agents_all_connected s :
  Forall is_Some (agents s) →
  length (available_agents s) = length (agents s).
Proof.
  intros Hall. rewrite <- (length_seq (length (agents s)) 0).
  apply Permutation_length, NoDup_Permutation.
  - apply NoDup_available_agents.
  - apply NoDup_seq.
  - intros i. rewrite elem_of_available_agents, elem_of_seq. split.
    + intros [c Hc]. apply lookup_lt_Some in Hc. lia.
    + intros [_ Hlt]. destruct (lookup_lt_is_Some_2 (agents s) i) as [a Ha]; [lia|].
      rewrite Forall_lookup in Hall. destruct (Hall _ _ Ha) as [c ->].
      by exists c.
Qed.

(** When the remote call raises on every agent, a submission tries each
    connected agent once, always with the same job, and then gives up
    with the no-agent crash. *)
Lemma execute_job_all_raise fuel s :
  (∀ i, env i = CallRaises) →
  length (running_on_agent s) = length (agents s) →
  length (available_agents s) < fuel →
  ∃ s' new,
    execute_job_fuel fuel env jobid task inputdata debug s = Returned tt s'
    ∧ calls s' = calls s ++ new
    ∧ length new = length (available_agents s)
    ∧ Forall (is_new_job_call jobid task inputdata debug) new
    ∧ last (reported s') = Some (jobid, crash_no_agent).
Proof.
  intros Henv. revert s. induction fuel as [|fuel IH]; intros s Hlen Hf; [lia|].
  rewrite execute_job_fuel_S.
  destruct (select_agent_cases s) as [[Hnil ->]|(i & [c Hc] & ->)].
  - exists (add_reported (jobid, crash_no_agent) s), [].
    rewrite Hnil. split_and!; try done.
    + simpl. by rewrite app_nil_r.
    + simpl. by rewrite last_snoc.
  - rewrite (dispatch_connected _ _ _ _ _ i _ c) by done. rewrite Henv. cbv zeta.
    set (s1 := add_call _ _).
    destruct (lookup_lt_is_Some_2 (running_on_agent s1) i) as [l Hl].
    { simpl. rewrite Hlen. by eapply lookup_lt_Some. }
    destruct (agent_shutdown_spec _ _ _ Hl) as (js & l' & Hsh & _).
    unfold_monad. rewrite Hsh.
    set (s3 := after_shutdown i js l' s1).
    assert (i < length (agents s)) as Hlt by (by eapply lookup_lt_Some).
    assert (agents s3 = <[i := None]> (agents s)) as Hag.
    { unfold s3, after_shutdown. simpl. by rewrite decide_True. }
    assert (length (available_agents s) = S (length (available_agents s3)))
      as Hav by (apply (available_agents_disconnect s s3 i); [by exists c|done]).
    destruct (IH s3) as (s' & new & -> & Hcalls & Hnew & Hall & Hlast).
    { unfold s3, after_shutdown. simpl. rewrite decide_True by done. simpl.
      by rewrite !length_insert. }
    { lia. }
    exists s', (CallNewJob i c jobid (get_course_id task) (get_id task)
                           inputdata debug :: new).
    split_and!; try done.
    + rewrite Hcalls. unfold s3, after_shutdown. simpl.
      rewrite decide_True by done. simpl. by rewrite <- (assoc_L (++)).
    + simpl. lia.
    + apply Forall_cons. split; [by exists i, c|done].
Qed.
(** A submission makes at most one attempt per connected agent, each for
    the same job. *)
Lemma execute_job_attempts_bound fuel s s' :
  final_state (execute_job_fuel fuel env jobid task inputdata debug s) = Some s' →
  ∃ new, calls s' = calls s ++ new
         ∧ length new ≤ length (available_agents s)
         ∧ Forall (is_new_job_call jobid task inputdata debug) new.
Proof.
  revert s. induction fuel as [|fuel IH]; intros s; [done|].
  rewrite execute_job_fuel_S.
  destruct (select_agent_cases s) as [[_ ->]|(i & [c Hc] & ->)].
  { rewrite job_ended_None. intros [= <-]. exists [].
    split_and!; [by rewrite app_nil_r|simpl; lia|done]. }
  rewrite (dispatch_connected _ _ _ _ _ i _ c) by done. cbv zeta.
  set (call := CallNewJob i c jobid (get_course_id task) (get_id task)
                          inputdata debug).
  assert (is_new_job_call jobid task inputdata debug call) as Hcall
    by (by exists i, c).
  assert (∀ s1,
    (Some s1 = Some s' ∨
     final_state ((agent_shutdown i;;
                   execute_job_fuel fuel env jobid task inputdata debug) s1)
     = Some s') →
    agents s1 = agents s → calls s1 = calls s ++ [call] →
    ∃ new, calls s' = calls s ++ new
           ∧ length new ≤ length (available_agents s)
           ∧ Forall (is_new_job_call jobid task inputdata debug) new) as Hend.
  { intros s1 Hs' Hag Hcalls.
    assert (1 ≤ length (available_agents s)) as Hpos.
    { assert (i ∈ available_agents s) as Hi
        by (apply elem_of_available_agents; by exists c).
      destruct (available_agents s); [by apply elem_of_nil in Hi|simpl; lia]. }
    destruct Hs' as [[= <-]|Hs'].
    { exists [call]. split_and!; [done|done|by apply Forall_singleton]. }
    unfold_monad.
    destruct (agent_shutdown i s1) as [[] s3|e s3|] eqn:Hsh; simpl in Hs'.
    - pose proof (agent_shutdown_calls _ _ _ Hsh) as Hcalls3.
      apply agent_shutdown_agents in Hsh. rewrite Hag in Hsh.
      pose proof (available_agents_disconnect s s3 i) as Hlen.
      destruct (IH s3 Hs') as (new & Hnew & Hle & Hall).
      exists (call :: new). split_and!.
      + by rewrite Hnew, Hcalls3, Hcalls, <- (assoc_L (++)).
      + rewrite Hlen; [simpl; lia|by exists c|done].
      + by apply Forall_cons.
    - injection Hs' as <-.
      destruct (running_on_agent s1 !! i) as [l|] eqn:Hl.
      + by destruct (agent_shutdown_spec _ _ _ Hl) as (js & l' & Hspec & _);
          rewrite Hspec in Hsh.
      + rewrite agent_shutdown_IndexError in Hsh by done.
        injection Hsh as _ <-.
        exists [call]. split_and!; [done|done|by apply Forall_singleton].
    - done. }
  destruct (env i).
  - destruct (running_on_agent _ !! i); simpl; intros Hs'.
    + eapply Hend; [left; exact Hs'|done|done].
    + eapply Hend; [right; exact Hs'|done|done].
  - simpl. intros Hs'. eapply Hend; [right; exact Hs'|done|done].
  - destruct (running_on_agent _ !! i); simpl; intros Hs';
      (eapply Hend; [right; exact Hs'|done|done]).
Qed.
End Submission.

Section Retry.
Import Manager.

(** C7 (amended).  When the remote call raises on the agent chosen for
    a submission, [_execute_job] runs fault recovery on that slot and then
    itself again, with the same job id, task, input and debug flag.  Fault
    recovery, when it returns, leaves the slot disconnected with an empty
    running list, so the next round chooses among the other agents.  No
    counter limits the rounds, but every failed round disconnects a slot:
    the submission always comes to an end and makes at most as many
    attempts as there were connected agents.  When the call raises on
    every agent, the submission makes exactly one attempt per connected
    agent and then ends with the no-agent crash as the last result
    reported, for this job. *)
Theorem execute_job_retries (env : nat → TryOutcome) (jobid : string)
    (task : Task) (inputdata : gmap string string) (debug : bool)
    (fuel : nat) (s s1 : State) (i : nat) :
  select_agent s = Returned (Some i) s1 →
  env i = CallRaises →
  (∃ s2,
      dispatch env jobid task inputdata debug i s1 = Raised Py.TransportError s2
      ∧ execute_job_fuel (S fuel) env jobid task inputdata debug s
        = (agent_shutdown i;;
           execute_job_fuel fuel env jobid task inputdata debug) s2
      ∧ ∀ s3, agent_shutdown i s2 = Returned tt s3 →
              agents s3 !! i = Some None
              ∧ running_on_agent s3 !! i = Some []
              ∧ ¬ connected s3 i)
  ∧ execute_job env jobid task inputdata debug s ≠ OutOfFuel
  ∧ (∀ s', final_state (execute_job env jobid task inputdata debug s) = Some s' →
       ∃ new, calls s' = calls s ++ new
              ∧ length new ≤ length (available_agents s)
              ∧ Forall (is_new_job_call jobid task inputdata debug) new)
  ∧ ((∀ i', env i' = CallRaises) →
     length (running_on_agent s) = length (agents s) →
     ∃ s' new,
       execute_job env jobid task inputdata debug s = Returned tt s'
       ∧ calls s' = calls s ++ new
       ∧ length new = length (available_agents s)
       ∧ Forall (is_new_job_call jobid task inputdata debug) new
       ∧ last (reported s') = Some (jobid, crash_no_agent))
  ∧ ∀ n, ∃ s' new,
      execute_job (λ _, CallRaises) jobid task inputdata debug (idle_pool n)
      = Returned tt s'
      ∧ calls s' = new
      ∧ length new = n
      ∧ Forall (is_new_job_call jobid task inputdata debug) new
      ∧ last (reported s') = Some (jobid, crash_no_agent).
Proof.
  intros Hsel Henv. split_and!.
  - destruct (select_agent_cases s) as [[_ Hs]|(i' & [c Hc] & Hs)];
      rewrite Hs in Hsel; [done|]. injection Hsel as -> <-.
    eexists. split_and!.
    + rewrite (dispatch_connected _ _ _ _ _ i _ c) by done. by rewrite Henv.
    + rewrite execute_job_fuel_S, Hs.
      rewrite (dispatch_connected _ _ _ _ _ i _ c) by done. by rewrite Henv.
    + intros s3 Hsh.
      assert (i < length (agents s)) as Hlt by (by eapply lookup_lt_Some).
      destruct (running_on_agent s !! i) as [l|] eqn:Hl.
      * destruct (agent_shutdown_spec i
                    (add_call (CallNewJob i c jobid (get_course_id task)
                                 (get_id task) inputdata debug)
                       (set_next_agent (λ n, n + 1) s)) l Hl)
          as (js & l' & Hspec & _).
        rewrite Hspec in Hsh. injection Hsh as <-.
        unfold after_shutdown, connected. simpl.
        rewrite decide_True by done. simpl.
        assert (i < length (running_on_agent s)) as Hlt'
          by (by eapply lookup_lt_Some).
        rewrite !list_lookup_insert_eq by done.
        split_and!; [done|done|]. by intros [? [=]].
      * by rewrite agent_shutdown_IndexError in Hsh.
  - apply (execute_job_fuel_enough _ _ _ _ _ (S (length (agents s)))). lia.
  - intros s'. apply execute_job_attempts_bound.
  - intros Hall Hlen. pose proof (available_agents_length s) as Hle.
    destruct (execute_job_all_raise env jobid task inputdata debug
                (S (length (agents s))) s)
      as (s' & new & Hrun & Hc & Hl & Hnew & Hlast); [done|done|lia|].
    by exists s', new.
  - intros n.
    assert (length (available_agents (idle_pool n)) = n) as Hn.
    { rewrite available_agents_all_connected; simpl.
      - apply length_replicate.
      - apply Forall_replicate. by eexists. }
    destruct (execute_job_all_raise (λ _, CallRaises) jobid task inputdata
                debug (S n) (idle_pool n))
      as (s' & new & Hrun & Hc & Hl & Hall & Hlast).
    { done. } { simpl. by rewrite !length_replicate. } { lia. }
    exists s', new. split_and!; try done; [|lia].
    rewrite <- Hrun. symmetry.
    apply execute_job_fuel_enough. simpl. rewrite length_replicate. lia.
Qed.

(** C7 as stated fails: with two connected agents on which every call
    raises, the submission is tried twice and then ends with the no-agent
    crash; it never makes a third attempt. *)
Lemma retry_unbounded_counterexample :
  ¬ retry_unbounded (λ _, CallRaises) "j1" (Build_Task "c1" "t1") ∅ false
      (idle_pool 2).
Proof.
  intros Hunbounded. destruct (Hunbounded 2) as (fuel & s' & Hs' & Hlt).
  apply execute_job_attempts_bound in Hs' as (new & Hcalls & Hle & _).
  rewrite Hcalls, length_app in Hlt.
  assert (length (available_agents (idle_pool 2)) = 2) as Hn by done.
  lia.
Qed.
End Retry.

Section Completion.
Import Manager.

(** C4 (as the code behaves).  When the agent raised while running the
    job, the result that [_execute_job_callback] hands upstream is a
    crash without any [text] entry. *)
Theorem execute_job_callback_error_without_text :
  let s := mkState false false ∅ [("agent0", 4001)] [Some 0] 0
                   [["j1"]] ∅ [] [] [] [] in
  ∃ s' result,
    execute_job_callback "j1" AsyncError 0 s = Returned tt s'
    ∧ reported s' = [("j1", result)]
    ∧ result !! "result" = Some "crash"
    ∧ result !! "text" = None.
Proof.
  eexists _, _. split; [vm_compute; reflexivity|].
  split_and!; reflexivity.
Qed.

(** The two crash results built elsewhere in the manager do carry a
    text. *)
Lemma other_crash_results_have_text :
  is_Some (crash_no_agent !! "text")
  ∧ crash_agent_shutdown !! "text" = Some "Remote agent shutdown".
Proof. split; [by eexists|done]. Qed.
End Completion.

(** ** Snapshots and the synchronisation timer *)

Section Synchronisation.
Import Manager.

Lemma elem_of_filtered_paths (P : string * string → Prop)
    `{!∀ x, Decision (P x)} (m : gmap string string) (p : string) :
  p ∈ (map_to_list (filter P m)).*1 ↔ ∃ h, m !! p = Some h ∧ P (p, h).
Proof.
  rewrite list_elem_of_fmap. split.
  - intros [[p' h] [-> Hin]]. apply elem_of_map_to_list in Hin.
    apply map_lookup_filter_Some in Hin. by exists h.
  - intros [h Hh]. exists (p, h). split; [done|].
    apply elem_of_map_to_list. by apply map_lookup_filter_Some.
Qed.

(** C8.  [diff(current, baseline)]: the first list holds exactly the
    paths of [current] whose hash differs from the one in [baseline] or
    that [baseline] lacks, the second exactly the paths of [baseline]
    that [current] lacks; neither list repeats a path; a snapshot
    compared with itself gives two empty lists. *)
Theorem directory_compare_from_hash_spec (current baseline : gmap string string) :
  (∀ p, p ∈ (directory_compare_from_hash current baseline).1 ↔
        ∃ h, current !! p = Some h
             ∧ (baseline !! p = None
                ∨ ∃ h', baseline !! p = Some h' ∧ h' ≠ h))
  ∧ (∀ p, p ∈ (directory_compare_from_hash current baseline).2 ↔
          is_Some (baseline !! p) ∧ current !! p = None)
  ∧ NoDup (directory_compare_from_hash current baseline).1
  ∧ NoDup (directory_compare_from_hash current baseline).2
  ∧ directory_compare_from_hash current current = ([], []).
Proof.
  unfold directory_compare_from_hash. simpl. split_and!.
  - intros p. rewrite elem_of_filtered_paths. simpl.
    split; intros [h [Hc Hb]]; exists h; (split; [done|]).
    + destruct (baseline !! p) as [h'|]; [|by left].
      right. exists h'. split; [done|]. by intros ->.
    + destruct Hb as [->|(h' & -> & Hne)]; [done|]. by intros [= ->].
  - intros p. rewrite elem_of_filtered_paths. simpl. unfold is_Some.
    split; [intros (h & ? & ?)|intros [[h ?] ?]]; eauto.
  - apply NoDup_fst_map_to_list.
  - apply NoDup_fst_map_to_list.
  - assert (∀ P `{!∀ x, Decision (P x)},
              (∀ p h, current !! p = Some h → ¬ P (p, h)) →
              (map_to_list (filter P current)).*1 = []) as Hempty.
    { intros P ? HP. apply elem_of_nil_inv. intros p.
      rewrite elem_of_filtered_paths. intros [h [Hh HPh]]. by eapply HP. }
    f_equal; apply Hempty; simpl; intros p h Hh; [by intros []|by rewrite Hh].
Qed.

Lemma for_each_add_calls_nil (s : State) : add_calls [] s = s.
Proof. unfold add_calls. by rewrite app_nil_r, state_eta. Qed.

Lemma add_calls_add_calls (cs cs' : list RemoteCall) (s : State) :
  add_calls cs' (add_calls cs s) = add_calls (cs ++ cs') s.
Proof. unfold add_calls. simpl. by rewrite (assoc_L (++)). Qed.

Lemma remote_call_spec raises c s :
  remote_call raises c s
  = if raises c then Raised Py.TransportError (add_calls [c] s)
    else Returned tt (add_calls [c] s).
Proof. unfold remote_call. unfold_monad. by destruct (raises c). Qed.

(** The loop of a tick when no request raises: one request per
    connected slot, in slot order. *)
Lemma for_each_sync raises (l : list (option Conn)) s :
  all_pass raises ((λ a, CallGetTaskDirectoryHashes a
                           (last_content_in_task_directory s)) <$> omap id l) →
  for_each l (λ agent, match agent with
                       | Some a => synchronize_task_dir raises a
                       | None => mret tt
                       end) s
  = Returned tt
      (add_calls ((λ a, CallGetTaskDirectoryHashes a
                          (last_content_in_task_directory s)) <$> omap id l) s).
Proof.
  revert s. induction l as [|[a|] l IH]; intros s Hpass.
  - simpl. unfold_monad. by rewrite for_each_add_calls_nil.
  - change (omap id (Some a :: l)) with (a :: omap id l) in *.
    rewrite fmap_cons in *. apply Forall_cons in Hpass as [Ha Hpass].
    cbn [for_each]. unfold mbind at 1, M_bind, bind.
    unfold synchronize_task_dir at 1. unfold mbind at 1, M_bind, bind, gets.
    rewrite remote_call_spec, Ha. rewrite IH by done.
    by rewrite add_calls_add_calls.
  - cbn [for_each]. unfold_monad. by rewrite IH.
Qed.

(** The loop of a tick when a request raises: the requests before it
    are issued, the exception ends the loop, the slots after it are not
    asked. *)
Lemma for_each_sync_raises raises (l1 l2 : list (option Conn)) a s :
  all_pass raises ((λ a, CallGetTaskDirectoryHashes a
                           (last_content_in_task_directory s)) <$> omap id l1) →
  raises (CallGetTaskDirectoryHashes a (last_content_in_task_directory s))
  = true →
  for_each (l1 ++ Some a :: l2)
    (λ agent, match agent with
              | Some a => synchronize_task_dir raises a
              | None => mret tt
              end) s
  = Raised Py.TransportError
      (add_calls (((λ a, CallGetTaskDirectoryHashes a
                           (last_content_in_task_directory s)) <$> omap id l1)
                  ++ [CallGetTaskDirectoryHashes a
                        (last_content_in_task_directory s)]) s).
Proof.
  revert s. induction l1 as [|[a1|] l1 IH]; intros s Hpass Ha.
  - simpl. unfold mbind at 1, M_bind, bind.
    unfold synchronize_task_dir. unfold mbind at 1, M_bind, bind, gets.
    by rewrite remote_call_spec, Ha.
  - change (omap id (Some a1 :: l1)) with (a1 :: omap id l1) in *.
    rewrite fmap_cons in *. apply Forall_cons in Hpass as [Ha1 Hpass].
    change ((Some a1 :: l1) ++ Some a :: l2)
      with (Some a1 :: (l1 ++ Some a :: l2)).
    cbn [for_each]. unfold mbind at 1, M_bind, bind.
    unfold synchronize_task_dir at 1. unfold mbind at 1, M_bind, bind, gets.
    rewrite remote_call_spec, Ha1. rewrite IH by done.
    by rewrite add_calls_add_calls.
  - change ((None :: l1) ++ Some a :: l2) with (None :: (l1 ++ Some a :: l2)).
    cbn [for_each]. unfold mbind at 1, M_bind, bind. unfold mret, M_ret, ret.
    by apply IH.
Qed.

(** The state after a tick on a manager that is not closed, when no
    request raises. *)
Lemma try_synchronize_task_dir_open raises current s :
  closed s = false →
  all_pass raises (sync_requests s current)
  ∨ directory_compare_from_hash current (last_content_in_task_directory s)
    = ([], []) →
  try_synchronize_task_dir raises current s =
    let '(changed, deleted) :=
      directory_compare_from_hash current (last_content_in_task_directory s) in
    let s1 := if decide (length changed ≠ 0 ∨ length deleted ≠ 0)
              then add_calls (sync_requests s current) (set_last_content current s)
              else s in
    Returned tt (if is_testing s then s1
                 else add_timer (TimerSynchronizeTaskDir 60) s1).
Proof.
  intros Hopen Hpass. unfold try_synchronize_task_dir.
  unfold mbind at 1, M_bind, bind, gets at 1. rewrite Hopen.
  unfold mbind at 1, M_bind, bind, gets at 1.
  destruct (directory_compare_from_hash _ _) as [changed deleted].
  destruct (decide _) as [Hch|Hch].
  - destruct Hpass as [Hpass|[= -> ->]]; [|simpl in Hch; lia].
    unfold_monad. rewrite for_each_sync by done. simpl.
    by destruct (is_testing s).
  - unfold_monad. by destruct (is_testing s).
Qed.

Lemma try_synchronize_task_dir_closed raises current s :
  closed s = true → try_synchronize_task_dir raises current s = Returned tt s.
Proof.
  intros Hclosed. unfold try_synchronize_task_dir. unfold_monad.
  by rewrite Hclosed.
Qed.

(** A tick in which a request raises. *)
Lemma try_synchronize_task_dir_raises raises current s l1 a l2 :
  closed s = false →
  directory_compare_from_hash current (last_content_in_task_directory s)
  ≠ ([], []) →
  agents s = l1 ++ Some a :: l2 →
  all_pass raises ((λ a, CallGetTaskDirectoryHashes a current) <$> omap id l1) →
  raises (CallGetTaskDirectoryHashes a current) = true →
  try_synchronize_task_dir raises current s
  = Raised Py.TransportError
      (add_calls (((λ a, CallGetTaskDirectoryHashes a current) <$> omap id l1)
                  ++ [CallGetTaskDirectoryHashes a current])
                 (set_last_content current s)).
Proof.
  intros Hopen Hdiff Hag Hpass Ha. unfold try_synchronize_task_dir.
  unfold mbind at 1, M_bind, bind, gets at 1. rewrite Hopen.
  unfold mbind at 1, M_bind, bind, gets at 1.
  destruct (directory_compare_from_hash _ _) as [changed deleted].
  rewrite decide_True.
  - unfold_monad.
    change (agents (set_last_content current s)) with (agents s). rewrite Hag.
    by rewrite (for_each_sync_raises raises l1 l2 a).
  - destruct changed, deleted; simpl; try lia. done.
Qed.

(** C6 (amended).  On a manager that is not closed, a tick of the
    synchronisation timer whose fresh snapshot differs from the stored
    one (some path changed or deleted) stores the fresh snapshot whole
    and requests the hashes of every connected agent, in slot order,
    provided none of these requests raises; a tick that finds no
    difference leaves the stored snapshot as it is and issues no call.
    Nothing catches what a request raises: the tick then ends with that
    exception, the fresh snapshot already stored, the agents after the
    failing one not asked and the timer not armed again. *)
Theorem try_synchronize_task_dir_cycle (raises : RemoteCall → bool)
    (current : gmap string string) (s : State) :
  closed s = false →
  (all_pass raises (sync_requests s current)
   ∨ directory_compare_from_hash current (last_content_in_task_directory s)
     = ([], []) →
   sync_cycle_ok raises current s)
  ∧ (∀ l1 a l2,
       directory_compare_from_hash current (last_content_in_task_directory s)
       ≠ ([], []) →
       agents s = l1 ++ Some a :: l2 →
       all_pass raises ((λ a, CallGetTaskDirectoryHashes a current)
                          <$> omap id l1) →
       raises (CallGetTaskDirectoryHashes a current) = true →
       ∃ s', try_synchronize_task_dir raises current s
             = Raised Py.TransportError s'
             ∧ last_content_in_task_directory s' = current
             ∧ calls s'
               = calls s
                 ++ ((λ a, CallGetTaskDirectoryHashes a current) <$> omap id l1)
                 ++ [CallGetTaskDirectoryHashes a current]
             ∧ timers s' = timers s
             ∧ agents s' = agents s).
Proof.
  intros Hopen. split.
  - intros Hpass. unfold sync_cycle_ok.
    rewrite try_synchronize_task_dir_open by done.
    destruct (directory_compare_from_hash _ _) as [changed deleted].
    eexists. split; [done|]. split.
    + intros Hne. rewrite decide_True.
      * by destruct (is_testing s).
      * destruct Hne as [Hne|Hne]; [left|right]; by destruct changed, deleted.
    + intros [-> ->]. rewrite decide_False by (simpl; lia).
      by destruct (is_testing s).
  - intros l1 a l2 Hdiff Hag Hpass Ha.
    rewrite (try_synchronize_task_dir_raises raises current s l1 a l2) by done.
    eexists. split; [done|]. by split_and!.
Qed.

(** C6 as stated fails on a closed manager: the tick returns at once and
    the stored snapshot stays, although [a.txt] has changed. *)
Lemma try_synchronize_task_dir_closed_counterexample :
  ¬ sync_cycle_ok reliable {[ "a.txt" := "H2" ]}
      (mkState true false ∅ [("agent0", 4001)] [Some 0] 0 [[]]
               {[ "a.txt" := "H1" ]} [] [] [] []).
Proof.
  unfold sync_cycle_ok. rewrite try_synchronize_task_dir_closed by done.
  intros (s' & [= <-] & Hcycle).
  vm_compute in Hcycle. destruct Hcycle as [Hch _].
  destruct Hch as [Heq _]; [by left|]. discriminate Heq.
Qed.
End Synchronisation.

(** ** Frame rules *)

Section Frames.
Context (R : State → State → Prop) `{!PreOrder R}.

Lemma frame_ret {A} (a : A) : frame R (mret a).
Proof. intros s s' [= <-]. reflexivity. Qed.

Lemma frame_raise {A} e : frame R (raise e : M A).
Proof. intros s s' [= <-]. reflexivity. Qed.

Lemma frame_gets {A} (f : State → A) : frame R (gets f).
Proof. intros s s' [= <-]. reflexivity. Qed.

Lemma frame_modify (f : State → State) :
  (∀ s, R s (f s)) → frame R (modify f).
Proof. intros Hf s s' [= <-]. apply Hf. Qed.

Lemma frame_lookup {A} (f : State → option A) e :
  frame R (λ s, or_raise (f s) e s).
Proof. intros s s'. destruct (f s); intros [= <-]; reflexivity. Qed.

Lemma frame_or_raise {A} (o : option A) e : frame R (or_raise o e).
Proof. destruct o; [apply frame_ret|apply frame_raise]. Qed.

Lemma frame_bind {A B} (m : M A) (k : A → M B) :
  frame R m → (∀ a, frame R (k a)) → frame R (m ≫= k).
Proof.
  intros Hm Hk s s'. unfold_monad.
  destruct (m s) as [a s1|e s1|] eqn:Hms; simpl; [| |done].
  - intros Hs'. transitivity s1.
    + apply Hm. by rewrite Hms.
    + by eapply Hk.
  - intros [= <-]. apply Hm. by rewrite Hms.
Qed.

Lemma frame_try_except {A} (m h : M A) :
  frame R m → frame R h → frame R (try_except m h).
Proof.
  intros Hm Hh s s'. unfold try_except.
  destruct (m s) as [a s1|e s1|] eqn:Hms; simpl; [| |done].
  - intros [= <-]. apply Hm. by rewrite Hms.
  - intros Hs'. transitivity s1.
    + apply Hm. by rewrite Hms.
    + by eapply Hh.
Qed.

Lemma frame_for_each {A} (l : list A) (body : A → M unit) :
  (∀ x, frame R (body x)) → frame R (Manager.for_each l body).
Proof.
  intros Hbody. induction l as [|x l IH]; simpl.
  - apply frame_ret.
  - apply frame_bind; [apply Hbody|by intros _].
Qed.
End Frames.

(** ** Running sets *)

Section RunningSets.
Import Manager.

Lemma elem_of_concat (ls : list (list string)) (x : string) :
  x ∈ concat ls ↔ ∃ i l, ls !! i = Some l ∧ x ∈ l.
Proof.
  induction ls as [|l0 ls IH]; simpl.
  - split; [by intros ?%elem_of_nil|by intros (i & l & ? & _)].
  - rewrite elem_of_app, IH. split.
    + intros [Hx|(i & l & Hl & Hx)]; [by exists 0, l0|by exists (S i), l].
    + intros ([|i] & l & Hl & Hx); simplify_eq/=; [by left|].
      right. by exists i, l.
Qed.

Lemma NoDup_concat_iff (ls : list (list string)) :
  NoDup (concat ls) ↔
    (∀ i l, ls !! i = Some l → NoDup l)
    ∧ (∀ i i' l l' j, ls !! i = Some l → ls !! i' = Some l' →
                      j ∈ l → j ∈ l' → i = i').
Proof.
  induction ls as [|l0 ls IH]; simpl.
  - split; [|intros _; constructor]. intros _. split; intros *; by rewrite lookup_nil.
  - rewrite NoDup_app, IH. split.
    + intros (Hl0 & Hsep & Hnd & Hdis). split.
      * intros [|i] l Hl; simplify_eq/=; [done|by eapply Hnd].
      * intros [|i] [|i'] l l' j Hl Hl' Hj Hj'; simplify_eq/=; [done| | |].
        -- destruct (Hsep j Hj). apply elem_of_concat. by exists i', l'.
        -- destruct (Hsep j Hj'). apply elem_of_concat. by exists i, l.
        -- f_equal. by eapply Hdis.
    + intros [Hnd Hdis]. split_and!.
      * by apply (Hnd 0).
      * intros x Hx (i & l & Hl & Hxl)%elem_of_concat.
        by specialize (Hdis 0 (S i) l0 l x eq_refl Hl Hx Hxl).
      * intros i l Hl. by apply (Hnd (S i)).
      * intros i i' l l' j Hl Hl' Hj Hj'.
        by injection (Hdis (S i) (S i') l l' j Hl Hl' Hj Hj').
Qed.

Lemma running_sets_disjoint_flat s :
  running_sets_disjoint s ↔ NoDup (flat s).
Proof. unfold running_sets_disjoint, flat. by rewrite NoDup_concat_iff. Qed.

Lemma submseteq_NoDup (l k : list string) : l ⊆+ k → NoDup k → NoDup l.
Proof.
  intros [k' Hk]%submseteq_Permutation Hnd. rewrite Hk in Hnd.
  by apply NoDup_app in Hnd as [? _].
Qed.

(** Replacing one running list changes the flattened list only there. *)
Lemma concat_insert_perm (ls : list (list string)) i l l' :
  ls !! i = Some l →
  ∃ rest, concat ls ≡ₚ l ++ rest ∧ concat (<[i := l']> ls) ≡ₚ l' ++ rest.
Proof.
  revert i. induction ls as [|l0 ls IH]; intros i Hl; [done|].
  destruct i as [|i]; simplify_eq/=.
  - by exists (concat ls).
  - destruct (IH i Hl) as (rest & Hc & Hc'). exists (l0 ++ rest).
    rewrite Hc, Hc'. split.
    + by rewrite !(assoc_L (++)), (comm (++) l0 l).
    + by rewrite !(assoc_L (++)), (comm (++) l0 l').
Qed.

Lemma concat_insert_submseteq (ls : list (list string)) i l l' :
  ls !! i = Some l → l' ⊆+ l → concat (<[i := l']> ls) ⊆+ concat ls.
Proof.
  intros Hl Hsub. destruct (concat_insert_perm ls i l l' Hl) as (rest & -> & ->).
  by apply submseteq_skips_r.
Qed.

Lemma concat_insert_snoc (ls : list (list string)) i l j :
  ls !! i = Some l → concat (<[i := l ++ [j]]> ls) ≡ₚ j :: concat ls.
Proof.
  intros Hl. destruct (concat_insert_perm ls i l (l ++ [j]) Hl) as (rest & -> & ->).
  by rewrite (comm (++) l [j]).
Qed.

#[global] Instance shrinks_preorder : PreOrder shrinks.
Proof.
  split.
  - intros s. unfold shrinks. reflexivity.
  - intros s1 s2 s3 H12 H23. unfold shrinks in *. by etrans.
Qed.

Lemma shrinks_same_running s s' :
  running_on_agent s' = running_on_agent s → shrinks s s'.
Proof. unfold shrinks, flat. by intros ->. Qed.

Lemma frame_job_ended jobid result agent_id :
  frame shrinks (job_ended jobid result agent_id).
Proof.
  intros s s'. destruct agent_id as [i|].
  - destruct (running_on_agent s !! i) as [l|] eqn:Hl.
    + destruct (Py.list_remove jobid l) as [l'|] eqn:Hrm.
      * rewrite (job_ended_Some _ _ _ _ _ _ Hl Hrm). intros [= <-].
        unfold shrinks, flat. simpl.
        eapply concat_insert_submseteq; [done|].
        by eapply sublist_submseteq, list_remove_sublist.
      * rewrite (job_ended_ValueError _ _ _ _ _ Hl Hrm). intros [= <-]; reflexivity.
    + rewrite (job_ended_IndexError _ _ _ _ Hl). intros [= <-]; reflexivity.
  - rewrite job_ended_None. intros [= <-]. by apply shrinks_same_running.
Qed.

Lemma shrinks_after_shutdown i js l l' s :
  running_on_agent s !! i = Some l → l' `sublist_of` l →
  shrinks s (after_shutdown i js l' s).
Proof.
  intros Hl Hsub. unfold shrinks, flat, after_shutdown.
  destruct (decide _); simpl.
  - eapply concat_insert_submseteq; [done|]. apply submseteq_nil_l.
  - eapply concat_insert_submseteq; [done|]. by apply sublist_submseteq.
Qed.

Lemma frame_agent_shutdown agent_id : frame shrinks (agent_shutdown agent_id).
Proof.
  intros s s'. destruct (running_on_agent s !! agent_id) as [l|] eqn:Hl.
  - destruct (agent_shutdown_spec _ _ _ Hl) as (js & l' & -> & Hsub & _).
    intros [= <-]. by eapply shrinks_after_shutdown.
  - rewrite agent_shutdown_IndexError by done. intros [= <-]; reflexivity.
Qed.

Lemma frame_execute_job_callback jobid r agent_id :
  frame shrinks (execute_job_callback jobid r agent_id).
Proof.
  destruct r; simpl; [|apply frame_job_ended].
  apply frame_bind; [apply _| |intros _; apply frame_job_ended].
  apply frame_modify. intros s. by apply shrinks_same_running.
Qed.

Lemma frame_on_agent_disconnection agent_id :
  frame shrinks (on_agent_disconnection agent_id).
Proof.
  apply frame_bind; [apply _| |intros _; apply frame_agent_shutdown].
  apply frame_modify. intros s. by apply shrinks_same_running.
Qed.
End RunningSets.

(** ** The invariant of the running sets *)

(** Solves [frame shrinks m] for code that leaves the running lists alone. *)
Ltac frame_same_running :=
  repeat first
    [ match goal with |- PreOrder _ => apply _ end
    | apply frame_ret
    | apply frame_raise
    | apply frame_gets
    | apply frame_lookup
    | apply frame_or_raise
    | apply frame_modify; intros ?; by apply shrinks_same_running
    | apply frame_bind; [| |intros ?]
    | apply frame_for_each; [|intros ?]
    | match goal with |- frame _ (if ?b then _ else _) => destruct b end ].

Section Invariant.
Import Manager.

Lemma frame_assign_agent i v : frame shrinks (assign_agent i v).
Proof.
  intros s s'. unfold assign_agent. destruct (decide _); intros [= <-].
  - by apply shrinks_same_running.
  - reflexivity.
Qed.

Lemma frame_try_agent_connection raises connect :
  frame shrinks (try_agent_connection raises connect).
Proof.
  unfold try_agent_connection, synchronize_image_aliases, synchronize_task_dir,
    remote_call, get_rpyc_server, on_agent_connection.
  apply frame_bind; [apply _|frame_same_running|intros is_closed].
  destruct is_closed; [frame_same_running|].
  apply frame_bind; [apply _|frame_same_running|intros infos].
  apply frame_bind; [apply _| |intros _].
  - apply frame_for_each; [apply _|]. intros [entry info].
    apply frame_bind; [apply _|frame_same_running|intros agent].
    destruct agent; [frame_same_running|].
    destruct (connect entry).
    + cbn [on_connect].
      apply frame_bind; [apply _|frame_same_running|intros _].
      apply frame_bind; [apply _|apply frame_assign_agent|intros _].
      frame_same_running.
    + apply frame_bind; [apply _|apply frame_assign_agent|intros _].
      frame_same_running.
  - apply frame_bind; [apply _|frame_same_running|intros testing].
    destruct testing; frame_same_running.
Qed.

Lemma frame_try_synchronize_task_dir raises current :
  frame shrinks (try_synchronize_task_dir raises current).
Proof.
  unfold try_synchronize_task_dir, synchronize_task_dir, remote_call.
  apply frame_bind; [apply _|frame_same_running|intros is_closed].
  destruct is_closed; [frame_same_running|].
  apply frame_bind; [apply _|frame_same_running|intros last].
  destruct (directory_compare_from_hash _ _) as [changed deleted].
  apply frame_bind; [apply _| |intros _].
  - destruct (decide _); [|frame_same_running].
    apply frame_bind; [apply _|frame_same_running|intros _].
    apply frame_bind; [apply _|frame_same_running|intros all_agents].
    apply frame_for_each; [apply _|]. intros [a|]; frame_same_running.
  - apply frame_bind; [apply _|frame_same_running|intros testing].
    destruct testing; frame_same_running.
Qed.

Lemma frame_add_to_archive tasks_directory cwd files to_update tar :
  frame shrinks (add_to_archive tasks_directory cwd files to_update tar).
Proof.
  revert tar. induction to_update as [|path rest IH]; intros tar; simpl.
  - frame_same_running.
  - apply frame_bind; [apply _| |intros safe].
    + unfold path_is_safe. frame_same_running.
    + destruct safe.
      * apply frame_bind; [apply _|frame_same_running|intros _; apply IH].
      * apply frame_bind; [apply _|frame_same_running|intros _; apply IH].
Qed.

Lemma frame_synchronize_task_dir_p2 tasks_directory cwd files raises agent
    local_td r :
  frame shrinks
    (synchronize_task_dir_p2 tasks_directory cwd files raises agent local_td r).
Proof.
  unfold synchronize_task_dir_p2, remote_call. destruct r as [|[remote_td|]].
  - frame_same_running.
  - destruct (directory_compare_from_hash _ _) as [to_update to_delete].
    apply frame_bind; [apply _|frame_same_running|intros _].
    apply frame_bind; [apply _|apply frame_add_to_archive|intros tar].
    frame_same_running.
  - frame_same_running.
Qed.

(** A submission adds the job to at most one running list, and only
    once; all it does besides is to drop jobs with an agent. *)
Lemma execute_job_fuel_flat fuel env jobid task inputdata debug s s' :
  final_state (execute_job_fuel fuel env jobid task inputdata debug s) = Some s' →
  flat s' ⊆+ jobid :: flat s.
Proof.
  revert s. induction fuel as [|fuel IH]; intros s; [done|].
  rewrite execute_job_fuel_S.
  destruct (select_agent_cases s) as [[_ ->]|(i & [c Hc] & ->)].
  { rewrite job_ended_None. intros [= <-]. by apply submseteq_cons. }
  rewrite (dispatch_connected _ _ _ _ _ i _ c) by done. cbv zeta.
  set (s1 := add_call _ _).
  assert (i < length (agents s)) as Hlt by (by eapply lookup_lt_Some).
  assert (∀ s2,
    agents s2 = agents s →
    <[i := []]> (running_on_agent s2) = <[i := []]> (running_on_agent s) →
    (running_on_agent s !! i = None → running_on_agent s2 = running_on_agent s) →
    final_state ((agent_shutdown i;;
                  execute_job_fuel fuel env jobid task inputdata debug) s2)
    = Some s' →
    flat s' ⊆+ jobid :: flat s) as Hretry.
  { intros s2 Hag Hrun Hnone. unfold_monad.
    destruct (running_on_agent s2 !! i) as [l2|] eqn:Hl2.
    - destruct (agent_shutdown_spec _ _ _ Hl2) as (js & l' & -> & _).
      intros Hs'. apply IH in Hs'. etrans; [exact Hs'|].
      apply submseteq_skip. unfold flat, after_shutdown.
      rewrite Hag, decide_True by done. simpl. rewrite Hrun.
      destruct (running_on_agent s !! i) as [l|] eqn:Hl.
      + eapply concat_insert_submseteq; [done|]. apply submseteq_nil_l.
      + rewrite list_insert_ge; [done|]. by apply lookup_ge_None.
    - rewrite agent_shutdown_IndexError by done. intros [= <-].
      apply submseteq_cons. unfold flat.
      destruct (running_on_agent s !! i) as [l|] eqn:Hl.
      + apply lookup_ge_None in Hl2.
        rewrite <- (list_insert_ge (running_on_agent s2) i []) by done.
        rewrite Hrun. eapply concat_insert_submseteq; [done|].
        apply submseteq_nil_l.
      + by rewrite Hnone. }
  change (running_on_agent (set_next_agent (λ n, n + 1) s))
    with (running_on_agent s).
  destruct (running_on_agent s !! i) as [l|] eqn:Hl.
  - assert (flat (set_running_on_agent <[i := l ++ [jobid]]> s1)
            ≡ₚ jobid :: flat s) as Hperm
      by (by apply concat_insert_snoc).
    destruct (env i).
    + simpl. intros [= <-]. by rewrite Hperm.
    + by apply Hretry.
    + apply Hretry; [done| |done].
      simpl. by rewrite list_insert_insert_eq.
  - destruct (env i); by apply Hretry.
Qed.

Lemma step_preserves ev s :
  match ev with
  | EvSubmit _ jobid _ _ _ => jobid ∉ flat s
  | _ => True
  end →
  NoDup (flat s) → NoDup (flat (step s ev)).
Proof.
  intros Hfresh Hnd. unfold step.
  destruct (final_state (handle ev s)) as [s'|] eqn:Hs'; [|done]. simpl.
  assert (frame shrinks (handle ev) → NoDup (flat s')) as Hframe.
  { intros Hf. eapply submseteq_NoDup; [|exact Hnd]. by apply Hf. }
  destruct ev; simpl in *.
  - eapply submseteq_NoDup; [by eapply execute_job_fuel_flat|].
    by apply NoDup_cons.
  - apply Hframe, frame_execute_job_callback.
  - apply Hframe, frame_on_agent_disconnection.
  - apply Hframe, frame_try_agent_connection.
  - apply Hframe, frame_try_synchronize_task_dir.
  - apply Hframe, frame_synchronize_task_dir_p2.
Qed.

Lemma run_preserves evs s :
  fresh_submissions evs s → NoDup (flat s) → NoDup (flat (run evs s)).
Proof.
  revert s. induction evs as [|ev evs IH]; intros s; [done|].
  intros [Hfresh Hrest] Hnd. simpl. apply IH; [done|].
  by apply step_preserves.
Qed.

Lemma fresh_submissions_take n evs s :
  fresh_submissions evs s → fresh_submissions (take n evs) s.
Proof.
  revert n s. induction evs as [|ev evs IH]; intros [|n] s; try done.
  intros [Hfresh Hrest]. split; [done|]. by apply IH.
Qed.

(** The manager starts with disjoint (empty) running sets. *)
Lemma init_running_sets_disjoint infos aliases testing content raises connect s :
  final_state (init infos aliases testing content raises connect) = Some s →
  running_sets_disjoint s.
Proof.
  intros Hs. apply frame_try_agent_connection in Hs.
  apply running_sets_disjoint_flat. eapply submseteq_NoDup; [exact Hs|].
  unfold flat. simpl. clear Hs.
  induction (length infos) as [|n IH]; [constructor|done].
Qed.

(** The scenario of two agents: [j1] goes to agent 0, [j2] to agent 1;
    agent 0 disconnects before [j1] is done, [j1] gets the shutdown
    crash, [j2] keeps running on agent 1. *)
Example two_agents_scenario :
  let s := run [EvSubmit (λ _, CallAccepted) "j1" (Build_Task "c1" "t1") ∅ false;
                EvSubmit (λ _, CallAccepted) "j2" (Build_Task "c1" "t1") ∅ false;
                EvDisconnected 0]
               (idle_pool 2) in
  reported s = [("j1", crash_agent_shutdown)]
  ∧ running_on_agent s = [[]; ["j2"]]
  ∧ agents s = [None; Some 0].
Proof. vm_compute. split_and!; reflexivity. Qed.

(** C9 (amended).  Provided every submitted job id is new when it is
    submitted (it is in no running list), at every point of every
    sequence of submissions, completions, disconnections and timer
    ticks, each job id is in the running list of at most one slot and
    occurs there at most once. *)
Theorem running_sets_stay_disjoint (evs : list Event) (s : State) (n : nat) :
  running_sets_disjoint s →
  fresh_submissions evs s →
  running_sets_disjoint (run (take n evs) s).
Proof.
  rewrite !running_sets_disjoint_flat. intros Hnd Hfresh.
  apply run_preserves; [|done]. by apply fresh_submissions_take.
Qed.

(** C9 as stated fails when a job id is submitted twice: with one
    connected agent, both submissions land in the running list of slot
    0. *)
Lemma running_sets_resubmission_counterexample :
  let submit := EvSubmit (λ _, CallAccepted) "j1" (Build_Task "c1" "t1") ∅ false in
  running_sets_disjoint (idle_pool 1)
  ∧ running_on_agent (run [submit; submit] (idle_pool 1)) = [["j1"; "j1"]]
  ∧ ¬ running_sets_disjoint (run [submit; submit] (idle_pool 1)).
Proof.
  intros submit.
  assert (running_on_agent (run [submit; submit] (idle_pool 1))
          = [["j1"; "j1"]]) as Hrun by (vm_compute; reflexivity).
  split_and!; [|done|].
  - apply running_sets_disjoint_flat. simpl. constructor.
  - rewrite running_sets_disjoint_flat. unfold flat. rewrite Hrun. simpl.
    intros Hnd. apply NoDup_cons in Hnd as [Hin _].
    apply Hin. by left.
Qed.
End Invariant.

(** ** Paths *)

Section Paths.
Import PosixPath.

Lemma prefix_append (p s t : string) :
  String.prefix p s = true → String.prefix p (s +:+ t) = true.
Proof.
  revert s. induction p as [|c p IH]; intros s; [by destruct s, t|].
  destruct s as [|c' s]; [done|].
  change (String c' s +:+ t) with (String c' (s +:+ t)). cbn -[ascii_dec].
  destruct (ascii_dec c c'); [apply IH|done].
Qed.

Lemma str_in_prefix (needle hay : string) :
  String.prefix needle hay = true → str_in needle hay = true.
Proof. intros Hp. destruct hay; cbn [str_in]; by rewrite Hp. Qed.

Lemma prefix_sep_cons (c : ascii) (w : string) :
  c ≠ "/"%char → String.prefix "/" (String c w) = false.
Proof.
  intros Hc. cbn -[ascii_dec]. by destruct (ascii_dec "/" c) as [<-|].
Qed.

Lemma split_sep_no_leading_sep (s w : string) :
  w ∈ split_sep s → startswith w "/" = false.
Proof.
  revert w. induction s as [|c s IH]; intros w; simpl.
  - by intros ->%list_elem_of_singleton.
  - destruct (Ascii.eqb_spec c "/") as [->|Hc].
    + intros [->|Hw]%elem_of_cons; [done|by apply IH].
    + destruct (split_sep s) as [|w0 ws] eqn:Hsplit.
      * intros ->%list_elem_of_singleton. by apply prefix_sep_cons.
      * intros [->|Hw]%elem_of_cons.
        -- by apply prefix_sep_cons.
        -- apply IH. by right.
Qed.

Lemma components_no_leading_sep (s w : string) :
  w ∈ components s → startswith w "/" = false.
Proof.
  unfold components. intros [_ Hw]%list_elem_of_filter.
  by eapply split_sep_no_leading_sep.
Qed.

(** Joining parts that do not start with a separator keeps what the
    path starts with. *)
Lemma join_keeps_prefix (p a : string) (parts : list string) :
  String.prefix p a = true →
  Forall (λ b, startswith b "/" = false) parts →
  String.prefix p (join a parts) = true.
Proof.
  intros Ha Hparts. revert a Ha. unfold join.
  induction Hparts as [|b parts Hb _ IH]; intros a Ha; [done|].
  simpl. apply IH. unfold join2. rewrite Hb.
  destruct (_ || _); by apply prefix_append.
Qed.

Lemma commonprefix_length_le (l1 l2 : list string) :
  length (commonprefix l1 l2) ≤ length l1.
Proof.
  revert l2. induction l1 as [|x l1 IH]; intros [|y l2]; simpl; try lia.
  case_bool_decide; simpl; [|lia]. specialize (IH l2). lia.
Qed.

Lemma commonprefix_full (l1 l2 : list string) :
  length (commonprefix l1 l2) = length l1 → list_startswith l2 l1 = true.
Proof.
  revert l2. induction l1 as [|x l1 IH]; intros [|y l2]; simpl; try done.
  case_bool_decide; simpl; [|done]. intros [= Hlen]. by apply IH.
Qed.

(** A path that passes the test of the archive loop resolves inside the
    tasks directory. *)
Lemma path_accepted_inside tasks_directory cwd path :
  path_accepted tasks_directory cwd path = true →
  resolves_inside tasks_directory cwd path = true.
Proof.
  unfold path_accepted, relpath, resolves_inside.
  case_bool_decide; [done|].
  set (start_list := components (abspath cwd tasks_directory)).
  set (path_list := components (abspath cwd (join tasks_directory [path]))).
  pose proof (commonprefix_length_le start_list path_list) as Hle.
  destruct (length start_list - length (commonprefix start_list path_list))
    as [|k] eqn:Hk.
  - intros _. apply commonprefix_full. lia.
  - simpl. intros [Hrel Hdots]%andb_true_iff.
    apply bool_decide_eq_true in Hrel. apply negb_true_iff in Hdots.
    rewrite <- Hrel in Hdots. rewrite str_in_prefix in Hdots; [done|].
    apply join_keeps_prefix; [done|].
    apply Forall_app. split.
    + by apply Forall_replicate.
    + apply Forall_drop, Forall_forall. intros w Hw.
      by eapply components_no_leading_sep.
Qed.

Lemma split_sep_head_dot (path w : string) (ws : list string) :
  split_sep path = "." :: ws → ∃ path', path = String "." path'.
Proof.
  destruct path as [|c path]; simpl; [done|].
  destruct (Ascii.eqb_spec c "/") as [->|Hc]; [done|].
  destruct (split_sep path); intros [= -> _]; by eexists.
Qed.

Lemma has_pardir_component_str_in path :
  has_pardir_component path = true → str_in ".." path = true.
Proof.
  unfold has_pardir_component. intros Hc%bool_decide_eq_true.
  revert Hc. induction path as [|c path IH]; cbn [split_sep str_in].
  - by intros ?%list_elem_of_singleton.
  - destruct (Ascii.eqb_spec c "/") as [->|Hc].
    + intros [?|Hin]%elem_of_cons; [done|].
      rewrite (IH Hin). apply orb_true_r.
    + destruct (split_sep path) as [|w ws] eqn:Hsplit.
      * by intros ?%list_elem_of_singleton.
      * intros [Heq|Hin]%elem_of_cons.
        -- injection Heq as <- <-.
           destruct (split_sep_head_dot path "" ws Hsplit) as [path' ->].
           by destruct path'.
        -- rewrite IH; [apply orb_true_r|]. by right.
Qed.
(** [posixpath] on a few inputs. *)
Example normpath_examples :
  normpath "/a/./b/../c//d/" = "/a/c/d"
  ∧ normpath "//a/../../b" = "//b"
  ∧ normpath "///a" = "/a"
  ∧ normpath "../a/../.." = "../.."
  ∧ normpath "" = ".".
Proof. vm_compute. split_and!; reflexivity. Qed.

Example relpath_examples :
  relpath "/" "/tasks/c1/t1/run" "/tasks" = Some "c1/t1/run"
  ∧ relpath "/" "/tasks/../../etc/passwd" "/tasks" = Some "../etc/passwd"
  ∧ relpath "/home" "tasks/./a" "tasks" = Some "a"
  ∧ relpath "/home" "tasks" "tasks" = Some "."
  ∧ relpath "/" "" "/tasks" = None.
Proof. vm_compute. split_and!; reflexivity. Qed.

Example join_examples :
  join "/tasks" ["c1/t1"] = "/tasks/c1/t1"
  ∧ join "/tasks/" ["c1"; "/etc"; "passwd"] = "/etc/passwd"
  ∧ join "" ["a"] = "a".
Proof. vm_compute. split_and!; reflexivity. Qed.

(** The test of the archive loop on a few paths under [/tasks]. *)
Example path_accepted_examples :
  path_accepted "/tasks" "/" "c1/t1/run" = true
  ∧ path_accepted "/tasks" "/" "../../etc/passwd" = false
  ∧ path_accepted "/tasks" "/" "/etc/passwd" = false
  ∧ path_accepted "/tasks" "/" "notes..txt" = false
  ∧ path_accepted "/tasks" "/" "./a.txt" = false.
Proof. vm_compute. split_and!; reflexivity. Qed.

(** [./a.txt] does not contain [..] and resolves inside [/tasks]; it is
    left out because it is not written in normalised form. *)
Example unnormalised_path_left_out :
  str_in ".." "./a.txt" = false
  ∧ escapes "/tasks" "/" "./a.txt" = false
  ∧ path_accepted "/tasks" "/" "./a.txt" = false.
Proof. vm_compute. split_and!; reflexivity. Qed.

(** [notes..txt] has no [..] component and resolves inside [/tasks]; it is
    left out because two dots occur in its name. *)
Example two_dots_left_out :
  has_pardir_component "notes..txt" = false
  ∧ resolves_inside "/tasks" "/" "notes..txt" = true
  ∧ path_accepted "/tasks" "/" "notes..txt" = false.
Proof. vm_compute. split_and!; reflexivity. Qed.

End Paths.

(** ** The archive of changed files *)

Section Archive.
Import Manager.
Context (tasks_directory cwd : string) (files : Files).

Lemma join_not_empty path :
  tasks_directory ≠ "" → PosixPath.join tasks_directory [path] ≠ "".
Proof.
  intros Htd. unfold PosixPath.join, PosixPath.join2, PosixPath.startswith.
  simpl. destruct tasks_directory as [|c td]; [done|].
  destruct path as [|c' path].
  - change (String.prefix "/" "") with false.
    destruct (_ || _); cbn; discriminate.
  - destruct (String.prefix "/" (String c' path)); [done|].
    destruct (_ || _); cbn; discriminate.
Qed.

Lemma path_is_safe_spec path s :
  tasks_directory ≠ "" →
  path_is_safe tasks_directory cwd path s
  = Returned (path_accepted tasks_directory cwd path) s.
Proof.
  intros Htd. unfold path_is_safe, path_accepted. unfold_monad.
  unfold PosixPath.relpath.
  rewrite bool_decide_eq_false_2 by (by apply join_not_empty).
  by destruct (_ ++ _).
Qed.

(** One step of the loop, by what the test and the file system say. *)
Lemma add_to_archive_cons path rest tar s :
  tasks_directory ≠ "" →
  add_to_archive tasks_directory cwd files (path :: rest) tar s
  = if path_accepted tasks_directory cwd path then
      if file_readable files (PosixPath.join tasks_directory [path]) then
        add_to_archive tasks_directory cwd files rest
          (tar ++ [(path, PosixPath.join tasks_directory [path])]) s
      else Raised Py.EnvironmentError s
    else
      add_to_archive tasks_directory cwd files rest tar
        (add_printed (MsgNonSafePath path) s).
Proof.
  intros Htd. cbn [add_to_archive]. unfold mbind at 1, M_bind, bind.
  rewrite path_is_safe_spec by done.
  destruct (path_accepted tasks_directory cwd path); [|done].
  cbv zeta. unfold mbind, M_bind, bind.
  by destruct (file_readable files _).
Qed.

(** The loop in closed form when every accepted file can be read: the
    accepted paths are added in order, the others are printed in
    order. *)
Lemma add_to_archive_spec to_update tar s :
  tasks_directory ≠ "" →
  all_readable tasks_directory cwd files to_update →
  add_to_archive tasks_directory cwd files to_update tar s
  = Returned
      (tar ++ ((λ p, (p, PosixPath.join tasks_directory [p]))
                 <$> filter (λ p, path_accepted tasks_directory cwd p = true)
                       to_update))
      (add_prints
         (MsgNonSafePath
            <$> filter (λ p, path_accepted tasks_directory cwd p ≠ true)
                  to_update) s).
Proof.
  intros Htd Hread. revert tar s.
  induction Hread as [|path rest Hpath _ IH]; intros tar s.
  - simpl. unfold_monad. unfold add_prints. by rewrite !app_nil_r, state_eta.
  - rewrite add_to_archive_cons by done.
    destruct (path_accepted tasks_directory cwd path) eqn:Hacc.
    + rewrite Hpath by done.
      rewrite IH, filter_cons_True by done.
      rewrite filter_cons_False by (intros Hne; by apply Hne).
      by rewrite fmap_cons, <- (assoc_L (++)).
    + rewrite IH, filter_cons_False by congruence.
      rewrite filter_cons_True by congruence.
      f_equal. unfold add_printed, add_prints. simpl.
      by rewrite <- (assoc_L (++)).
Qed.

(** The loop when [tar.add] raises: the exception ends it at the first
    accepted file that cannot be read, and no archive comes out. *)
Lemma add_to_archive_raises pre path post tar s :
  tasks_directory ≠ "" →
  all_readable tasks_directory cwd files pre →
  path_accepted tasks_directory cwd path = true →
  file_readable files (PosixPath.join tasks_directory [path]) = false →
  add_to_archive tasks_directory cwd files (pre ++ path :: post) tar s
  = Raised Py.EnvironmentError
      (add_prints
         (MsgNonSafePath
            <$> filter (λ p, path_accepted tasks_directory cwd p ≠ true) pre)
         s).
Proof.
  intros Htd Hread Hacc Hfile. revert tar s.
  induction Hread as [|p rest Hp _ IH]; intros tar s.
  - change ([] ++ path :: post) with (path :: post).
    rewrite add_to_archive_cons, Hacc, Hfile by done.
    simpl. unfold add_prints. by rewrite app_nil_r, state_eta.
  - change ((p :: rest) ++ path :: post) with (p :: (rest ++ path :: post)).
    rewrite add_to_archive_cons by done.
    destruct (path_accepted tasks_directory cwd p) eqn:Hpacc.
    + rewrite Hp by done. rewrite IH.
      by rewrite filter_cons_False by (intros Hne; by apply Hne).
    + rewrite IH, filter_cons_True by congruence.
      f_equal. unfold add_printed, add_prints. simpl.
      by rewrite <- (assoc_L (++)).
Qed.

Lemma path_rejected path :
  escapes tasks_directory cwd path = true →
  path_accepted tasks_directory cwd path = false.
Proof.
  intros Hesc. apply not_true_is_false. intros Hacc.
  pose proof (path_accepted_inside _ _ _ Hacc) as Hin.
  assert (PosixPath.str_in ".." path = false) as Hdots.
  { unfold path_accepted in Hacc. destruct (PosixPath.relpath _ _ _); [|done].
    apply andb_true_iff in Hacc as [_ Hd]. by apply negb_true_iff. }
  unfold escapes in Hesc. by rewrite Hin, Hdots in Hesc.
Qed.

Lemma pardir_component_rejected path :
  has_pardir_component path = true →
  path_accepted tasks_directory cwd path = false.
Proof.
  intros Hc%has_pardir_component_str_in. apply path_rejected.
  unfold escapes. by rewrite Hc.
Qed.

End Archive.

Section ArchiveCounterexample.
Import Manager.

End ArchiveCounterexample.

(** * The statements on concrete managers *)

Section Instances.
Import Manager.

(** Three connected agents: the calls number 1 to 3 of a run return the
    three slots, each once. *)
Lemma select_agent_round_robin_witness :
  ∃ rs s', select_agent_times (1 + 3) (idle_pool 3) = Returned rs s'
           ∧ take 3 (drop 1 rs) ≡ₚ [Some 0; Some 1; Some 2].
Proof.
  destruct (select_agent_round_robin (idle_pool 3) 1)
    as (_ & _ & (rs & s' & Hrun & _ & Hperm) & _).
  - vm_compute. lia.
  - exists rs, s'. split; [exact Hrun|exact Hperm].
Defined.

(** Two slots, both disconnected: selection returns [None] and changes
    nothing. *)
Lemma select_agent_no_agent_frame_witness :
  select_agent (disconnected_pool 2) = Returned None (disconnected_pool 2).
Proof.
  destruct (select_agent_no_agent_frame (disconnected_pool 2)) as [Hsel _].
  - vm_compute. repeat constructor.
  - exact Hsel.
Defined.

(** A submission to two disconnected slots. *)
Lemma execute_job_no_agent_witness :
  execute_job (λ _, CallAccepted) "j1" (Build_Task "c1" "t1") ∅ false
    (disconnected_pool 2)
  = Returned tt (add_reported ("j1", crash_no_agent) (disconnected_pool 2)).
Proof.
  destruct (execute_job_no_agent (λ _, CallAccepted) "j1"
              (Build_Task "c1" "t1") ∅ false (disconnected_pool 2) 0)
    as (_ & Hrun & _).
  - vm_compute. repeat constructor.
  - exact Hrun.
Defined.

(** Two connected agents, the transport of both is down: the submission
    goes through fault recovery on slot 0 and is made again. *)
Lemma execute_job_retries_witness :
  execute_job (λ _, CallRaises) "j1" (Build_Task "c1" "t1") ∅ false
    (idle_pool 2) ≠ OutOfFuel
  ∧ ∃ s' new,
      execute_job (λ _, CallRaises) "j1" (Build_Task "c1" "t1") ∅ false
        (idle_pool 2) = Returned tt s'
      ∧ calls s' = calls (idle_pool 2) ++ new
      ∧ length new = length (available_agents (idle_pool 2))
      ∧ last (reported s') = Some ("j1", crash_no_agent).
Proof.
  destruct (execute_job_retries (λ _, CallRaises) "j1"
              (Build_Task "c1" "t1") ∅ false 2 (idle_pool 2)
              (set_next_agent (λ n, n + 1) (idle_pool 2)) 0)
    as (_ & Hend & _ & Hall & _).
  - vm_compute. reflexivity.
  - reflexivity.
  - split; [exact Hend|].
    destruct Hall as (s' & new & Hrun & Hcalls & Hlen & _ & Hlast).
    + intros i. reflexivity.
    + reflexivity.
    + exists s', new. split; [exact Hrun|]. split; [exact Hcalls|].
      split; [exact Hlen|exact Hlast].
Defined.

(** [a.txt] has changed on an open manager with one connected agent. *)
Lemma try_synchronize_task_dir_cycle_witness :
  sync_cycle_ok reliable {[ "a.txt" := "H2" ]}
    (mkState false false ∅ [("agent0", 4001)] [Some 0] 0 [[]]
             {[ "a.txt" := "H1" ]} [] [] [] []).
Proof.
  apply (try_synchronize_task_dir_cycle reliable {[ "a.txt" := "H2" ]}
           (mkState false false ∅ [("agent0", 4001)] [Some 0] 0 [[]]
                    {[ "a.txt" := "H1" ]} [] [] [] [])).
  - reflexivity.
  - left. repeat constructor.
Defined.


(** Two jobs on two agents, then agent 0 goes away. *)
Lemma running_sets_stay_disjoint_witness :
  running_sets_disjoint
    (run (take 3 [EvSubmit (λ _, CallAccepted) "j1" (Build_Task "c1" "t1") ∅ false;
                  EvSubmit (λ _, CallAccepted) "j2" (Build_Task "c1" "t1") ∅ false;
                  EvDisconnected 0])
         (idle_pool 2)).
Proof.
  apply (running_sets_stay_disjoint
           [EvSubmit (λ _, CallAccepted) "j1" (Build_Task "c1" "t1") ∅ false;
            EvSubmit (λ _, CallAccepted) "j2" (Build_Task "c1" "t1") ∅ false;
            EvDisconnected 0]
           (idle_pool 2) 3).
  - apply running_sets_disjoint_flat. vm_compute. constructor.
  - cbn [fresh_submissions]. split_and!; try exact I;
      apply (bool_decide_unpack _); vm_compute; exact I.
Defined.
End Instances.

(** * Further properties of the manager *)

(** ** Frames of every entry point

    For a relation that every elementary update of the state respects,
    every method is a frame. *)

Section GenericFrames.
Import Manager.
Context (R : State → State → Prop) `{!PreOrder R}.
Hypothesis R_agents : ∀ s i v, R s (set_agents <[i := v]> s).
Hypothesis R_running : ∀ s i v, R s (set_running_on_agent <[i := v]> s).
Hypothesis R_next : ∀ s, R s (set_next_agent (λ n, n + 1) s).
Hypothesis R_reports : ∀ s rs, R s (add_reports rs s).
Hypothesis R_calls : ∀ s cs, R s (add_calls cs s).
Hypothesis R_prints : ∀ s ms, R s (add_prints ms s).
Hypothesis R_timer : ∀ s t, R s (add_timer t s).
Hypothesis R_last : ∀ s m, R s (set_last_content m s).

Ltac gframe :=
  repeat first
    [ match goal with |- PreOrder _ => apply _ end
    | apply frame_ret
    | apply frame_raise
    | apply frame_gets
    | apply frame_lookup
    | apply frame_or_raise
    | apply frame_modify; intros ?;
        first [ apply R_agents | apply R_running | apply R_next
              | apply R_reports | apply R_calls | apply R_prints
              | apply R_timer | apply R_last ]
    | apply frame_bind; [| |intros ?]
    | apply frame_try_except
    | apply frame_for_each; [|intros ?]
    | match goal with |- frame _ (if ?b then _ else _) => destruct b end ].

Lemma gframe_job_ended jobid result agent_id :
  frame R (job_ended jobid result agent_id).
Proof.
  unfold job_ended, AbstractJobManager_job_ended.
  destruct agent_id; gframe.
Qed.

Lemma gframe_select_agent : frame R select_agent.
Proof.
  unfold select_agent. apply frame_bind; [apply _|gframe|intros available].
  destruct (decide _); gframe.
Qed.

Lemma gframe_assign_agent i v : frame R (assign_agent i v).
Proof.
  intros s s'. unfold assign_agent. destruct (decide _); intros [= <-].
  - apply R_agents.
  - reflexivity.
Qed.

Lemma gframe_assign_running i v : frame R (assign_running i v).
Proof.
  intros s s'. unfold assign_running. destruct (decide _); intros [= <-].
  - apply R_running.
  - reflexivity.
Qed.

Lemma gframe_map_running fuel f agent_id index :
  (∀ jid, frame R (f jid)) → frame R (map_running fuel f agent_id index).
Proof.
  intros Hf. revert index. induction fuel as [|fuel IH]; intros index; simpl.
  - by intros s s'.
  - apply frame_bind; [apply _|gframe|intros l].
    destruct (l !! index); [|gframe].
    apply frame_bind; [apply _|apply Hf|intros _; apply IH].
Qed.

Lemma gframe_agent_shutdown agent_id : frame R (agent_shutdown agent_id).
Proof.
  unfold agent_shutdown.
  apply frame_bind; [apply _|gframe|intros l].
  apply frame_bind; [apply _| |intros _].
  - apply gframe_map_running. intros jid. apply gframe_job_ended.
  - apply frame_try_except; [apply _| |gframe].
    apply frame_bind; [apply _|apply gframe_assign_agent|intros _].
    apply gframe_assign_running.
Qed.

Lemma gframe_dispatch env jobid task inputdata debug agent_id :
  frame R (dispatch env jobid task inputdata debug agent_id).
Proof.
  unfold dispatch.
  apply frame_bind; [apply _|gframe|intros agent].
  apply frame_bind; [apply _|gframe|intros conn].
  apply frame_bind; [apply _|gframe|intros _].
  destruct (env agent_id); gframe.
Qed.

Lemma gframe_execute_job_fuel fuel env jobid task inputdata debug :
  frame R (execute_job_fuel fuel env jobid task inputdata debug).
Proof.
  induction fuel as [|fuel IH]; simpl; [by intros s s'|].
  apply frame_bind; [apply _|apply gframe_select_agent|intros [agent_id|]].
  - apply frame_try_except; [apply _|apply gframe_dispatch|].
    apply frame_bind; [apply _|apply gframe_agent_shutdown|by intros _].
  - apply gframe_job_ended.
Qed.

Lemma gframe_execute_job env jobid task inputdata debug :
  frame R (execute_job env jobid task inputdata debug).
Proof. intros s s'. apply gframe_execute_job_fuel. Qed.

Lemma gframe_execute_job_callback jobid r agent_id :
  frame R (execute_job_callback jobid r agent_id).
Proof.
  destruct r; simpl; [|apply gframe_job_ended].
  apply frame_bind; [apply _|gframe|intros _; apply gframe_job_ended].
Qed.

Lemma gframe_on_agent_disconnection agent_id :
  frame R (on_agent_disconnection agent_id).
Proof.
  apply frame_bind; [apply _|gframe|intros _; apply gframe_agent_shutdown].
Qed.

Lemma gframe_try_agent_connection raises connect :
  frame R (try_agent_connection raises connect).
Proof.
  unfold try_agent_connection, synchronize_image_aliases, synchronize_task_dir,
    remote_call, get_rpyc_server, on_agent_connection.
  apply frame_bind; [apply _|gframe|intros is_closed].
  destruct is_closed; [gframe|].
  apply frame_bind; [apply _|gframe|intros infos].
  apply frame_bind; [apply _| |intros _].
  - apply frame_for_each; [apply _|]. intros [entry info].
    apply frame_bind; [apply _|gframe|intros agent].
    destruct agent; [gframe|].
    destruct (connect entry).
    + cbn [on_connect]. apply frame_bind; [apply _|gframe|intros _].
      apply frame_bind; [apply _|apply gframe_assign_agent|intros _].
      gframe.
    + apply frame_bind; [apply _|apply gframe_assign_agent|intros _].
      gframe.
  - apply frame_bind; [apply _|gframe|intros testing].
    destruct testing; gframe.
Qed.

Lemma gframe_try_synchronize_task_dir raises current :
  frame R (try_synchronize_task_dir raises current).
Proof.
  unfold try_synchronize_task_dir, synchronize_task_dir, remote_call.
  apply frame_bind; [apply _|gframe|intros is_closed].
  destruct is_closed; [gframe|].
  apply frame_bind; [apply _|gframe|intros last].
  destruct (directory_compare_from_hash _ _) as [changed deleted].
  apply frame_bind; [apply _| |intros _].
  - destruct (decide _); [|gframe].
    apply frame_bind; [apply _|gframe|intros _].
    apply frame_bind; [apply _|gframe|intros all_agents].
    apply frame_for_each; [apply _|]. intros [a|]; gframe.
  - apply frame_bind; [apply _|gframe|intros testing].
    destruct testing; gframe.
Qed.

Lemma gframe_add_to_archive tasks_directory cwd files to_update tar :
  frame R (add_to_archive tasks_directory cwd files to_update tar).
Proof.
  revert tar. induction to_update as [|path rest IH]; intros tar; simpl.
  - gframe.
  - apply frame_bind; [apply _| |intros safe].
    + unfold path_is_safe. gframe.
    + destruct safe.
      * apply frame_bind; [apply _|gframe|intros _; apply IH].
      * apply frame_bind; [apply _|gframe|intros _; apply IH].
Qed.

Lemma gframe_synchronize_task_dir_p2 tasks_directory cwd files raises agent
    local_td r :
  frame R
    (synchronize_task_dir_p2 tasks_directory cwd files raises agent local_td r).
Proof.
  unfold synchronize_task_dir_p2, remote_call.
  destruct r as [|[remote_td|]]; [gframe| |gframe].
  destruct (directory_compare_from_hash _ _) as [to_update to_delete].
  apply frame_bind; [apply _|gframe|intros _].
  apply frame_bind; [apply _|apply gframe_add_to_archive|intros tar].
  gframe.
Qed.

Lemma gframe_handle ev : frame R (handle ev).
Proof.
  destruct ev; simpl.
  - apply gframe_execute_job.
  - apply gframe_execute_job_callback.
  - apply gframe_on_agent_disconnection.
  - apply gframe_try_agent_connection.
  - apply gframe_try_synchronize_task_dir.
  - apply gframe_synchronize_task_dir_p2.
Qed.

Lemma gframe_close_loop notifies remaining i :
  frame R (close_loop notifies remaining i).
Proof.
  revert i. induction remaining as [|remaining IH]; intros i; simpl; [gframe|].
  apply frame_bind; [apply _|gframe|intros [[c|]|]]; [|apply IH|gframe].
  apply frame_bind; [apply _|apply gframe_assign_agent|intros _].
  apply frame_bind; [apply _| |intros _; apply IH].
  destruct (notifies i); [apply gframe_on_agent_disconnection|gframe].
Qed.
End GenericFrames.

(** ** What the entry points leave alone *)

Section Stability.
Import Manager.

#[global] Instance stable_preorder : PreOrder stable.
Proof.
  split.
  - intros s. unfold stable. by split_and!.
  - intros s1 s2 s3 H12 H23. unfold stable in *.
    destruct H12 as (? & ? & ? & ? & ? & ? & ?).
    destruct H23 as (? & ? & ? & ? & ? & ? & ?).
    split_and!; try congruence. lia.
Qed.

Lemma frame_stable_handle ev : frame stable (handle ev).
Proof.
  apply gframe_handle; try apply _; intros; unfold stable; simpl;
    rewrite ?length_insert; split_and!; try done; lia.
Qed.

Lemma stable_well_formed s s' : stable s s' → well_formed s → well_formed s'.
Proof.
  unfold stable, well_formed.
  intros (_ & _ & _ & Hi & Ha & Hr & _) [? ?]. split; congruence.
Qed.

Lemma step_stable s ev : stable s (step s ev).
Proof.
  unfold step. destruct (final_state (handle ev s)) as [s'|] eqn:Hs'; simpl.
  - by apply frame_stable_handle in Hs'.
  - reflexivity.
Qed.

(** X20.  Whatever happens to the manager short of [close], the closed flag,
    the testing flag, the image aliases, the configured agents and the
    number of slots and of running lists stay as they are, and the
    round-robin cursor never goes back; a manager with one slot and one
    running list per configured agent keeps that shape. *)
Theorem run_keeps_shape (evs : list Event) (s : State) :
  stable s (run evs s)
  ∧ (well_formed s → well_formed (run evs s)).
Proof.
  assert (stable s (run evs s)) as Hst.
  { revert s. induction evs as [|ev evs IH]; intros s; simpl; [reflexivity|].
    etrans; [apply step_stable|apply IH]. }
  split; [done|]. by apply stable_well_formed.
Qed.
End Stability.

(** ** Counting the agents *)

Section Counting.
Import Manager.

Lemma length_filter_omap (l : list (option Conn)) k :
  length (filter (λ entry, entry ≠ None) l)
  = length (omap (λ '(i, j), match j : option Conn with
                             | Some _ => Some i | None => None end)
                 (Py.enumerate_from k l)).
Proof.
  revert k. induction l as [|[c|] l IH]; intros k; [done| |].
  - rewrite filter_cons_True by done. simpl. by rewrite (IH (S k)).
  - rewrite filter_cons_False by (intros Hne; by apply Hne). simpl. apply IH.
Qed.

Lemma number_agents_available_length s :
  number_agents_available s = length (available_agents s).
Proof. apply length_filter_omap. Qed.

(** X10.  [number_agents_available] counts the slots that [_select_agent]
    chooses from: it never exceeds the number of slots, and it is zero
    exactly when [_select_agent] returns [None]. *)
Theorem number_agents_available_select (s : State) :
  number_agents_available s = length (available_agents s)
  ∧ number_agents_available s ≤ length (agents s)
  ∧ (number_agents_available s = 0 ↔ select_agent s = Returned None s)
  ∧ (number_agents_available s ≠ 0 ↔
     ∃ i, connected s i
          ∧ select_agent s = Returned (Some i) (set_next_agent (λ n, n + 1) s)).
Proof.
  rewrite number_agents_available_length. split_and!; [done| | |].
  - apply available_agents_length.
  - destruct (select_agent_cases s) as [[Hnil Hs]|(i & Hi & Hs)]; rewrite Hs.
    + by rewrite Hnil.
    + split; [|done]. intros Hlen. apply length_zero_iff_nil in Hlen.
      apply elem_of_available_agents in Hi. rewrite Hlen in Hi.
      by apply elem_of_nil in Hi.
  - destruct (select_agent_cases s) as [[Hnil Hs]|(i & Hi & Hs)]; rewrite Hs.
    + rewrite Hnil. split; [done|]. by intros (i & _ & [=]).
    + split; [by exists i|]. intros _ Hlen. apply length_zero_iff_nil in Hlen.
      apply elem_of_available_agents in Hi. rewrite Hlen in Hi.
      by apply elem_of_nil in Hi.
Qed.
End Counting.

(** ** Fault recovery and completions *)

Section MoreShutdown.
Import Manager.

Lemma length_evens_odds {A} (l : list A) :
  length (evens l) = (length l + 1) / 2 ∧ length (odds l) = length l / 2.
Proof.
  induction l as [|x l [IHe IHo]]; [done|].
  rewrite evens_cons, odds_cons. simpl length. split.
  - rewrite IHo. replace (S (length l) + 1) with (length l + 1 * 2) by lia.
    rewrite Nat.div_add by done. lia.
  - rewrite IHe. f_equal. lia.
Qed.

(** X5.  Fault recovery on a slot whose running list holds [n] different jobs
    reports the shutdown crash for the jobs at positions 0, 2, 4, ... of
    the list, in that order and for no other job: [(n + 1) / 2] results
    in all.  The slot ends disconnected with an empty list. *)
Theorem agent_shutdown_every_other_job (agent_id : nat) (s : State)
    (l : list string) :
  running_on_agent s !! agent_id = Some l →
  NoDup l →
  agent_id < length (agents s) →
  ∃ s', agent_shutdown agent_id s = Returned tt s'
        ∧ reported s' = reported s ++ ((λ j, (j, crash_agent_shutdown)) <$> evens l)
        ∧ length (reported s') = length (reported s) + (length l + 1) / 2
        ∧ running_on_agent s' = <[agent_id := []]> (running_on_agent s)
        ∧ agents s' = <[agent_id := None]> (agents s)
        ∧ calls s' = calls s.
Proof.
  intros Hl Hnd Hlt.
  destruct (agent_shutdown_spec _ _ _ Hl) as (js & l' & -> & _ & _ & Hjs).
  destruct (Hjs Hnd) as [-> ->]. eexists. split; [done|].
  unfold after_shutdown. rewrite decide_True by done. simpl.
  split_and!; try done.
  rewrite length_app, length_fmap. f_equal. apply length_evens_odds.
Qed.

(** X6.  Fault recovery is idempotent: run again on a slot it has just shut
    down, it reports nothing and leaves the state as it is. *)
Theorem agent_shutdown_idempotent (agent_id : nat) (s s' : State) :
  agent_id < length (agents s) →
  agent_shutdown agent_id s = Returned tt s' →
  agent_shutdown agent_id s' = Returned tt s'.
Proof.
  intros Hlt Hsh.
  destruct (running_on_agent s !! agent_id) as [l|] eqn:Hl;
    [|by rewrite agent_shutdown_IndexError in Hsh].
  destruct (agent_shutdown_spec _ _ _ Hl) as (js & l' & Hspec & _).
  rewrite Hspec in Hsh. injection Hsh as <-.
  pose proof (lookup_lt_Some _ _ _ Hl) as Hltr.
  set (s' := after_shutdown agent_id js l' s).
  assert (running_on_agent s' !! agent_id = Some []) as Hl'.
  { unfold s', after_shutdown. rewrite decide_True by done. simpl.
    by apply list_lookup_insert_eq. }
  assert (agents s' !! agent_id = Some None) as Ha'.
  { unfold s', after_shutdown. rewrite decide_True by done. simpl.
    by apply list_lookup_insert_eq. }
  destruct (agent_shutdown_spec _ _ _ Hl') as (js2 & l2 & -> & _ & _ & Hjs).
  destruct Hjs as [-> ->]; [constructor|].
  f_equal. unfold after_shutdown.
  rewrite decide_True by (by eapply lookup_lt_Some).
  unfold set_running_on_agent, set_agents, add_reports. simpl.
  rewrite !list_insert_id by done. rewrite app_nil_r. apply state_eta.
Qed.

Lemma list_remove_not_in (j : string) (l : list string) :
  j ∉ l → Py.list_remove j l = None.
Proof.
  induction l as [|x l IH]; [done|]. intros Hj. simpl.
  apply not_elem_of_cons in Hj as [Hne Hj].
  rewrite decide_False by done. by rewrite IH.
Qed.

Lemma list_remove_snoc (j : string) (l : list string) :
  j ∉ l → Py.list_remove j (l ++ [j]) = Some l.
Proof.
  induction l as [|x l IH]; intros Hj; simpl.
  - by rewrite decide_True.
  - apply not_elem_of_cons in Hj as [Hne Hj].
    rewrite decide_False by done. by rewrite IH.
Qed.

Lemma execute_job_callback_refused (jobid : string)
    (r : AsyncResult (gmap string string)) (agent_id : nat) (s : State) :
  (∀ l, running_on_agent s !! agent_id = Some l → jobid ∉ l) →
  ∃ e s', execute_job_callback jobid r agent_id s = Raised e s'
          ∧ e = (if running_on_agent s !! agent_id is Some _
                 then Py.ValueError else Py.IndexError)
          ∧ reported s' = reported s
          ∧ running_on_agent s' = running_on_agent s
          ∧ agents s' = agents s
          ∧ calls s' = calls s.
Proof.
  intros Hstale.
  assert (∀ result s0,
    running_on_agent s0 = running_on_agent s →
    ∃ e, job_ended jobid result (Some agent_id) s0 = Raised e s0
         ∧ e = (if running_on_agent s !! agent_id is Some _
                then Py.ValueError else Py.IndexError)) as Hend.
  { intros result s0 Hrun.
    destruct (running_on_agent s !! agent_id) as [l|] eqn:Hl.
    - exists Py.ValueError. split; [|done].
      eapply job_ended_ValueError; [by rewrite Hrun|].
      by apply list_remove_not_in, Hstale.
    - exists Py.IndexError. split; [|done].
      apply job_ended_IndexError. by rewrite Hrun. }
  destruct r as [|value]; simpl.
  - unfold_monad.
    destruct (Hend crash_agent_exception
                (add_printed (MsgAgentException agent_id jobid) s))
      as (e & -> & ->); [done|].
    by eexists _, _.
  - destruct (Hend value s) as (e & -> & ->); [done|]. by eexists _, _.
Qed.

(** X7.  A completion that does not match the books is refused: for a slot
    that does not exist the callback raises [IndexError], for a job that
    is not in the running list of the slot it raises [ValueError]; either
    way no result goes upstream and the running lists stay as they are. *)
Theorem execute_job_callback_stale (jobid : string)
    (r : AsyncResult (gmap string string)) (agent_id : nat) (s : State) :
  (∀ l, running_on_agent s !! agent_id = Some l → jobid ∉ l) →
  ∃ e s', execute_job_callback jobid r agent_id s = Raised e s'
          ∧ e = (if running_on_agent s !! agent_id is Some _
                 then Py.ValueError else Py.IndexError)
          ∧ reported s' = reported s
          ∧ running_on_agent s' = running_on_agent s
          ∧ agents s' = agents s
          ∧ calls s' = calls s.
Proof. apply execute_job_callback_refused. Qed.

(** X8.  Once fault recovery has run on a slot, a completion that arrives
    late for that slot is refused, whatever the job: it raises
    [ValueError] and nothing is reported.  So a job of that slot gets
    the result fault recovery gave it, or none at all. *)
Theorem execute_job_callback_after_shutdown (agent_id : nat) (s s' : State)
    (jobid : string) (r : AsyncResult (gmap string string)) :
  agent_id < length (agents s) →
  agent_shutdown agent_id s = Returned tt s' →
  ∃ s'', execute_job_callback jobid r agent_id s' = Raised Py.ValueError s''
         ∧ reported s'' = reported s'
         ∧ running_on_agent s'' = running_on_agent s'.
Proof.
  intros Hlt Hsh.
  destruct (running_on_agent s !! agent_id) as [l|] eqn:Hl;
    [|by rewrite agent_shutdown_IndexError in Hsh].
  destruct (agent_shutdown_spec _ _ _ Hl) as (js & l' & Hspec & _).
  rewrite Hspec in Hsh. injection Hsh as <-.
  assert (running_on_agent (after_shutdown agent_id js l' s) !! agent_id
          = Some []) as Hl'.
  { unfold after_shutdown. rewrite decide_True by done. simpl.
    apply list_lookup_insert_eq. by eapply lookup_lt_Some. }
  destruct (execute_job_callback_refused jobid r agent_id
              (after_shutdown agent_id js l' s))
    as (e & s'' & Hcb & He & Hrep & Hrun & _).
  { intros l0. rewrite Hl'. intros [= <-]. apply not_elem_of_nil. }
  rewrite Hl' in He. subst e. by exists s''.
Qed.
End MoreShutdown.

(** ** Submissions, from dispatch to completion *)

Section MoreSubmission.
Import Manager.
Context (env : nat → TryOutcome) (jobid : string) (task : Task)
        (inputdata : gmap string string) (debug : bool).

Lemma execute_job_fuel_total fuel s :
  length (running_on_agent s) = length (agents s) →
  length (available_agents s) < fuel →
  ∃ s', execute_job_fuel fuel env jobid task inputdata debug s = Returned tt s'
        ∧ length (running_on_agent s') = length (agents s')
        ∧ reported s `prefix_of` reported s'
        ∧ (∀ j, agents s !! j = Some None → agents s' !! j = Some None)
        ∧ ((∃ i c l,
              agents s !! i = Some (Some c)
              ∧ agents s' !! i = Some (Some c)
              ∧ env i = CallAccepted
              ∧ running_on_agent s' !! i = Some (l ++ [jobid])
              ∧ last (calls s')
                = Some (CallNewJob i c jobid (get_course_id task) (get_id task)
                                   inputdata debug))
           ∨ (no_agent_connected s'
              ∧ last (reported s') = Some (jobid, crash_no_agent))).
Proof.
  revert s. induction fuel as [|fuel IH]; intros s Hlen Hf; [lia|].
  rewrite execute_job_fuel_S.
  destruct (select_agent_cases s) as [[Hnil ->]|(i & [c Hc] & ->)].
  { rewrite job_ended_None. eexists. split; [done|]. split; [done|].
    split; [by apply prefix_app_r|]. split; [done|]. right.
    split; [by apply available_agents_nil|]. simpl. by rewrite last_snoc. }
  rewrite (dispatch_connected _ _ _ _ _ i _ c) by done. cbv zeta.
  set (call := CallNewJob i c jobid (get_course_id task) (get_id task)
                          inputdata debug).
  set (s1 := add_call call (set_next_agent (λ n, n + 1) s)).
  assert (i < length (agents s)) as Hlt by (by eapply lookup_lt_Some).
  destruct (lookup_lt_is_Some_2 (running_on_agent s) i) as [l Hl]; [lia|].
  change (running_on_agent (set_next_agent (λ n, n + 1) s) !! i)
    with (running_on_agent s !! i). rewrite Hl.
  assert (∀ s2, agents s2 = agents s →
                length (running_on_agent s2) = length (agents s2) →
                reported s2 = reported s →
    ∃ s', (agent_shutdown i;;
           execute_job_fuel fuel env jobid task inputdata debug) s2
          = Returned tt s'
        ∧ length (running_on_agent s') = length (agents s')
        ∧ reported s `prefix_of` reported s'
        ∧ (∀ j, agents s !! j = Some None → agents s' !! j = Some None)
        ∧ ((∃ i c l,
              agents s !! i = Some (Some c)
              ∧ agents s' !! i = Some (Some c)
              ∧ env i = CallAccepted
              ∧ running_on_agent s' !! i = Some (l ++ [jobid])
              ∧ last (calls s')
                = Some (CallNewJob i c jobid (get_course_id task) (get_id task)
                                   inputdata debug))
           ∨ (no_agent_connected s'
              ∧ last (reported s') = Some (jobid, crash_no_agent)))) as Hretry.
  { intros s2 Hag Hlen2 Hrep.
    destruct (lookup_lt_is_Some_2 (running_on_agent s2) i) as [l2 Hl2].
    { rewrite Hlen2, Hag. lia. }
    destruct (agent_shutdown_spec _ _ _ Hl2) as (js & l' & Hsh & _).
    unfold mbind, M_bind, bind. rewrite Hsh.
    set (s3 := after_shutdown i js l' s2).
    assert (agents s3 = <[i := None]> (agents s)) as Hag3.
    { unfold s3, after_shutdown. rewrite decide_True by (rewrite Hag; lia).
      simpl. by rewrite Hag. }
    assert (length (running_on_agent s3) = length (agents s3)) as Hlen3.
    { unfold s3, after_shutdown. rewrite decide_True by (rewrite Hag; lia).
      simpl. by rewrite !length_insert. }
    assert (reported s `prefix_of` reported s3) as Hrep3.
    { unfold s3, after_shutdown. destruct (decide _); simpl; rewrite Hrep;
        apply prefix_app_r; done. }
    assert (length (available_agents s) = S (length (available_agents s3)))
      as Hav by (apply (available_agents_disconnect s s3 i); [by exists c|done]).
    destruct (IH s3) as (s' & -> & Hlen' & Hrep' & Hnone & Hcase); [done|lia|].
    exists s'. split; [done|]. split; [done|]. split; [by etrans|].
    split.
    { intros j Hj. apply Hnone. rewrite Hag3.
      destruct (decide (j = i)) as [->|Hne].
      - by apply list_lookup_insert_eq.
      - by rewrite list_lookup_insert_ne. }
    destruct Hcase as [(i' & c' & l0 & Hc3 & Hc' & Henv & Hrun & Hcall)|?];
      [left|by right].
    exists i', c', l0. split_and!; try done.
    rewrite Hag3 in Hc3. destruct (decide (i' = i)) as [->|Hne].
    - by rewrite list_lookup_insert_eq in Hc3.
    - by rewrite list_lookup_insert_ne in Hc3. }
  destruct (env i) eqn:Henv.
  - eexists. split; [done|]. split; [simpl; by rewrite length_insert|].
    split; [done|]. split; [done|]. left. exists i, c, l. split_and!; try done.
    + simpl. apply list_lookup_insert_eq. by eapply lookup_lt_Some.
    + simpl. by rewrite last_snoc.
  - by apply Hretry.
  - apply Hretry; [done| |done]. simpl. by rewrite length_insert.
Qed.

Lemma selected_agent i s :
  available_agents s !! (next_agent s mod length (available_agents s)) = Some i →
  select_agent s = Returned (Some i) (set_next_agent (λ n, n + 1) s)
  ∧ connected s i.
Proof.
  intros Hi.
  assert (available_agents s ≠ []) as Hne by (by intros Hnil; rewrite Hnil in Hi).
  destruct (select_agent_Some s Hne) as (i' & Hi' & ->).
  rewrite Hi in Hi'. injection Hi' as <-. split; [done|].
  apply elem_of_available_agents. by eapply list_elem_of_lookup_2.
Qed.

Lemma elem_of_evens_snoc (x : string) (l : list string) :
  (Nat.even (length l) = true → x ∈ evens (l ++ [x]))
  ∧ (Nat.even (length l) = false → x ∈ odds (l ++ [x])).
Proof.
  induction l as [|y l [IHe IHo]].
  - split; [intros _; apply list_elem_of_here|done].
  - change ((y :: l) ++ [x]) with (y :: (l ++ [x])).
    rewrite evens_cons, odds_cons.
    change (length (y :: l)) with (S (length l)).
    rewrite Nat.even_succ, <- Nat.negb_even.
    destruct (Nat.even (length l)); simpl; split; try done.
    + intros _. by apply IHe.
    + intros _. apply list_elem_of_further. by apply IHo.
Qed.

(** X1.  A submission to a manager with one running list per slot never
    raises.  It ends in one of two ways: the job is at the end of the
    running list of an agent that was connected, still is, and accepted
    the call, the last remote call being that [new_job]; or no agent is
    connected any more and the last result reported is the no-agent
    crash for this job. *)
Theorem execute_job_always_returns (s : State) :
  length (running_on_agent s) = length (agents s) →
  ∃ s', execute_job env jobid task inputdata debug s = Returned tt s'
        ∧ ((∃ i c l,
              agents s !! i = Some (Some c)
              ∧ agents s' !! i = Some (Some c)
              ∧ env i = CallAccepted
              ∧ running_on_agent s' !! i = Some (l ++ [jobid])
              ∧ last (calls s')
                = Some (CallNewJob i c jobid (get_course_id task) (get_id task)
                                   inputdata debug))
           ∨ (no_agent_connected s'
              ∧ last (reported s') = Some (jobid, crash_no_agent))).
Proof.
  intros Hlen. pose proof (available_agents_length s).
  destruct (execute_job_fuel_total (S (length (agents s))) s)
    as (s' & Hrun & _ & _ & _ & Hcase); [done|lia|].
  by exists s'.
Qed.

(** X2.  Round trip of a job.  When the agent that the cursor selects accepts
    the call and the job is not yet in the running list of that agent,
    the submission reports nothing and appends the job to that list;
    the completion of the job on that agent
    then restores the running lists of before the submission and reports
    exactly one result for the job: the value the agent returned, or the
    bare crash when the call ended in an error. *)
Theorem submit_then_complete (s : State) (i : nat) (l : list string)
    (r : AsyncResult (gmap string string)) :
  available_agents s !! (next_agent s mod length (available_agents s)) = Some i →
  env i = CallAccepted →
  running_on_agent s !! i = Some l →
  jobid ∉ l →
  ∃ s1 s2,
    execute_job env jobid task inputdata debug s = Returned tt s1
    ∧ running_on_agent s1 = <[i := l ++ [jobid]]> (running_on_agent s)
    ∧ reported s1 = reported s
    ∧ execute_job_callback jobid r i s1 = Returned tt s2
    ∧ running_on_agent s2 = running_on_agent s
    ∧ agents s2 = agents s
    ∧ reported s2
      = reported s ++ [(jobid, match r with
                               | AsyncValue value => value
                               | AsyncError => crash_agent_exception
                               end)].
Proof.
  intros Hi Henv Hl Hfresh.
  destruct (selected_agent i s Hi) as [Hsel [c Hc]].
  pose proof (lookup_lt_Some _ _ _ Hl) as Hlt.
  set (s1 := set_running_on_agent <[i := l ++ [jobid]]>
               (add_call (CallNewJob i c jobid (get_course_id task)
                                     (get_id task) inputdata debug)
                         (set_next_agent (λ n, n + 1) s))).
  assert (execute_job env jobid task inputdata debug s = Returned tt s1)
    as Hsubmit.
  { unfold execute_job. rewrite execute_job_fuel_S, Hsel.
    rewrite (dispatch_connected _ _ _ _ _ i _ c) by done. cbv zeta.
    rewrite Henv.
    change (running_on_agent (set_next_agent (λ n, n + 1) s) !! i)
      with (running_on_agent s !! i). by rewrite Hl. }
  assert (∀ result s0,
    running_on_agent s0 = <[i := l ++ [jobid]]> (running_on_agent s) →
    job_ended jobid result (Some i) s0
    = Returned tt (add_reported (jobid, result)
                     (set_running_on_agent <[i := l]> s0))) as Hend.
  { intros result s0 Hrun. eapply job_ended_Some.
    - rewrite Hrun. by apply list_lookup_insert_eq.
    - by apply list_remove_snoc. }
  exists s1. destruct r as [|value]; simpl.
  - eexists. split; [done|]. split; [done|]. split; [done|].
    unfold mbind, M_bind, bind, modify. rewrite Hend by done.
    split; [done|]. simpl.
    by rewrite list_insert_insert_eq, list_insert_id.
  - eexists. split; [done|]. split; [done|]. split; [done|].
    rewrite Hend by done. split; [done|]. simpl.
    by rewrite list_insert_insert_eq, list_insert_id.
Qed.

(** X3.  A job can get two results.  When registering the completion callback
    raises on the selected agent, the job is already in the running list
    of that agent, so fault recovery walks over it: if the list held an
    even number of other jobs, the job is reported as crashed by the
    shutdown.  The submission is retried all the same, so the job ends
    up running on another agent, or gets the no-agent crash as a second
    result. *)
Theorem execute_job_reports_twice (s : State) (i : nat) (l : list string) :
  length (running_on_agent s) = length (agents s) →
  available_agents s !! (next_agent s mod length (available_agents s)) = Some i →
  env i = AddCallbackRaises →
  running_on_agent s !! i = Some l →
  NoDup l → jobid ∉ l → Nat.even (length l) = true →
  ∃ s', execute_job env jobid task inputdata debug s = Returned tt s'
        ∧ (jobid, crash_agent_shutdown) ∈ reported s'
        ∧ agents s' !! i = Some None
        ∧ ((∃ i' l', i' ≠ i ∧ env i' = CallAccepted
                     ∧ running_on_agent s' !! i' = Some (l' ++ [jobid]))
           ∨ (no_agent_connected s'
              ∧ last (reported s') = Some (jobid, crash_no_agent))).
Proof.
  intros Hlen Hi Henv Hl Hnd Hfresh Heven.
  destruct (selected_agent i s Hi) as [Hsel [c Hc]].
  assert (i < length (agents s)) as Hlt by (by eapply lookup_lt_Some).
  unfold execute_job. rewrite execute_job_fuel_S, Hsel.
  rewrite (dispatch_connected _ _ _ _ _ i _ c) by done. cbv zeta.
  rewrite Henv.
  change (running_on_agent (set_next_agent (λ n, n + 1) s) !! i)
    with (running_on_agent s !! i). rewrite Hl.
  set (s2 := set_running_on_agent _ _).
  assert (running_on_agent s2 !! i = Some (l ++ [jobid])) as Hl2.
  { simpl. apply list_lookup_insert_eq. by eapply lookup_lt_Some. }
  destruct (agent_shutdown_spec _ _ _ Hl2) as (js & l' & Hsh & _ & _ & Hjs).
  destruct Hjs as [-> ->].
  { apply NoDup_app. split_and!; [done| |apply NoDup_singleton].
    intros x Hx ->%list_elem_of_singleton. done. }
  unfold mbind, M_bind, bind. rewrite Hsh.
  set (s3 := after_shutdown i _ _ s2).
  assert (agents s3 = <[i := None]> (agents s)) as Hag3.
  { unfold s3, after_shutdown. by rewrite decide_True. }
  assert ((jobid, crash_agent_shutdown) ∈ reported s3) as Hrep3.
  { unfold s3, after_shutdown. rewrite decide_True by done. simpl.
    apply elem_of_app. right.
    apply (list_elem_of_fmap_2 (λ j, (j, crash_agent_shutdown))).
    by apply elem_of_evens_snoc. }
  assert (length (available_agents s) = S (length (available_agents s3)))
    as Hav by (apply (available_agents_disconnect s s3 i); [by exists c|done]).
  pose proof (available_agents_length s).
  destruct (execute_job_fuel_total (length (agents s)) s3)
    as (s' & -> & _ & Hrep' & Hnone & Hcase).
  { unfold s3, after_shutdown. rewrite decide_True by done. simpl.
    by rewrite !length_insert. }
  { lia. }
  exists s'. split; [done|]. split.
  { destruct Hrep' as [k ->]. apply elem_of_app. by left. }
  split.
  { apply Hnone. rewrite Hag3. by apply list_lookup_insert_eq. }
  destruct Hcase as [(i' & c' & l0 & Hc3 & _ & Henv' & Hrun & _)|?];
    [left|by right].
  exists i', l0. split_and!; try done.
  intros ->. rewrite Hag3 in Hc3. by rewrite list_lookup_insert_eq in Hc3.
Qed.
End MoreSubmission.

(** ** Connecting to the agents *)

Section Connection.
Import Manager.
Context (raises : RemoteCall → bool) (connect : nat → option Conn).

Lemma omap_enumerate_from_ext {A B} (f g : nat * A → option B) k (l : list A) :
  (∀ i x, k ≤ i → f (i, x) = g (i, x)) →
  omap f (Py.enumerate_from k l) = omap g (Py.enumerate_from k l).
Proof.
  revert k. induction l as [|x l IH]; intros k Hfg; [done|].
  assert (omap f (Py.enumerate_from (S k) l)
          = omap g (Py.enumerate_from (S k) l)) as IH'.
  { apply IH. intros i y Hi. apply Hfg. lia. }
  simpl. rewrite Hfg by done. destruct (g (k, x)); [f_equal|]; exact IH'.
Qed.

Lemma omap_cons_match {A B} (f : A → option B) (x : A) (l : list A) :
  omap f (x :: l) = match f x with Some y => y :: omap f l | None => omap f l end.
Proof. done. Qed.

Lemma opened_insert (ag : list (option Conn)) k v (infos : list (string * nat)) :
  omap (opened connect (<[k := v]> ag)) (Py.enumerate_from (S k) infos)
  = omap (opened connect ag) (Py.enumerate_from (S k) infos).
Proof.
  apply omap_enumerate_from_ext. intros i x Hi. unfold opened. simpl.
  rewrite list_lookup_insert_ne by lia. done.
Qed.

Lemma announced_insert (ag : list (option Conn)) k v
    (infos : list (string * nat)) :
  omap (announced connect (<[k := v]> ag)) (Py.enumerate_from (S k) infos)
  = omap (announced connect ag) (Py.enumerate_from (S k) infos).
Proof.
  apply omap_enumerate_from_ext. intros i x Hi. unfold announced. simpl.
  rewrite list_lookup_insert_ne by lia. done.
Qed.

Lemma reconnect_insert (ag : list (option Conn)) k a :
  ag !! k = Some a →
  take (S k) (<[k := reconnect connect k a]> ag)
    ++ imap (λ j, reconnect connect (S k + j))
            (drop (S k) (<[k := reconnect connect k a]> ag))
  = take k ag ++ imap (λ j, reconnect connect (k + j)) (drop k ag).
Proof.
  intros Ha. pose proof (lookup_lt_Some _ _ _ Ha) as Hlt.
  rewrite (take_S_r _ _ (reconnect connect k a))
    by (by apply list_lookup_insert_eq).
  rewrite take_insert_ge, drop_insert_lt by lia.
  rewrite (drop_S _ _ _ Ha), imap_cons, Nat.add_0_r, <- (assoc_L (++)).
  simpl. do 2 f_equal. apply imap_ext. intros j x _. simpl. f_equal. lia.
Qed.

(** The body of the loop of [_try_agent_connection] on one entry, by
    what the slot holds, what [rpyc.connect] gives and what the
    transport does. *)
Lemma try_agent_connection_body (k : nat) (info : string * nat) (s : State)
    (a : option Conn) :
  agents s !! k = Some a →
  (agent ← (λ s, or_raise (agents s !! k) Py.IndexError s);
   match agent with
   | Some _ => ret tt
   | None =>
       match connect k with
       | None =>
           assign_agent k None;;
           modify (add_printed (MsgCannotConnect info.1 info.2))
       | Some conn =>
           on_connect (get_rpyc_server k);;
           assign_agent k (Some conn);;
           synchronize_image_aliases raises conn;;
           synchronize_task_dir raises conn
       end
   end) s
  = match a, connect k with
    | Some _, _ => Returned tt s
    | None, None =>
        Returned tt (add_printed (MsgCannotConnect info.1 info.2)
                       (set_agents <[k := None]> s))
    | None, Some conn =>
        let s1 := set_agents <[k := Some conn]>
                    (add_printed MsgAgentConnected s) in
        let c1 := CallUpdateImageAliases conn (image_aliases s) in
        let c2 := CallGetTaskDirectoryHashes conn
                    (last_content_in_task_directory s) in
        if raises c1 then Raised Py.TransportError (add_calls [c1] s1)
        else if raises c2
             then Raised Py.TransportError (add_calls [c1; c2] s1)
             else Returned tt (add_calls [c1; c2] s1)
    end.
Proof.
  intros Ha. pose proof (lookup_lt_Some _ _ _ Ha) as Hlt.
  unfold mbind at 1, M_bind, bind. rewrite Ha. simpl.
  destruct a as [c|]; [done|].
  destruct (connect k) as [conn|].
  - cbn [on_connect get_rpyc_server]. unfold on_agent_connection.
    unfold mbind at 1, M_bind, bind, modify.
    unfold mbind at 1, M_bind, bind, assign_agent.
    rewrite decide_True by done.
    unfold mbind at 1, M_bind, bind, synchronize_image_aliases.
    unfold mbind at 1, M_bind, bind, gets.
    rewrite remote_call_spec. cbn [image_aliases set_agents add_printed add_prints].
    destruct (raises (CallUpdateImageAliases conn (image_aliases s))); [done|].
    unfold synchronize_task_dir, mbind, M_bind, bind, gets.
    rewrite remote_call_spec.
    cbn [last_content_in_task_directory set_agents add_printed add_prints
         add_calls].
    destruct (raises _); by rewrite add_calls_add_calls.
  - unfold mbind, M_bind, bind, assign_agent, modify.
    by rewrite decide_True by done.
Qed.

(** The loop of a round when none of its calls raises. *)
Lemma try_agent_connection_loop (infos : list (string * nat)) : ∀ k s,
  length (agents s) = k + length infos →
  all_pass raises
    (omap (opened connect (agents s)) (Py.enumerate_from k infos)
     ≫= greeting (image_aliases s) (last_content_in_task_directory s)) →
  for_each (Py.enumerate_from k infos) (λ '(entry, info),
      agent ← (λ s, or_raise (agents s !! entry) Py.IndexError s);
      match agent with
      | Some _ => ret tt
      | None =>
          match connect entry with
          | None =>
              assign_agent entry None;;
              modify (add_printed (MsgCannotConnect info.1 info.2))
          | Some conn =>
              on_connect (get_rpyc_server entry);;
              assign_agent entry (Some conn);;
              synchronize_image_aliases raises conn;;
              synchronize_task_dir raises conn
          end
      end) s
  = Returned tt
      (add_prints (omap (announced connect (agents s)) (Py.enumerate_from k infos))
         (add_calls
            (omap (opened connect (agents s)) (Py.enumerate_from k infos)
             ≫= greeting (image_aliases s) (last_content_in_task_directory s))
            (set_agents
               (λ ag, take k ag
                      ++ imap (λ j, reconnect connect (k + j)) (drop k ag))
               s))).
Proof.
  match goal with |- context [for_each _ ?b] => set (body := b) end.
  induction infos as [|info infos IH]; intros k s Hlen Hpass; simpl in Hlen.
  { simpl. f_equal. unfold add_prints, add_calls, set_agents. simpl.
    rewrite !app_nil_r, drop_ge, take_ge by lia. simpl.
    rewrite app_nil_r. symmetry. apply state_eta. }
  destruct (lookup_lt_is_Some_2 (agents s) k) as [a Ha]; [lia|].
  assert (body (k, info) s = _) as Hbody
    by (apply (try_agent_connection_body k info s a Ha)).
  change (Py.enumerate_from k (info :: infos))
    with ((k, info) :: Py.enumerate_from (S k) infos) in *.
  cbn [for_each]. unfold mbind at 1, M_bind, bind. rewrite Hbody. clear Hbody.
  assert (opened connect (agents s) (k, info)
          = match a with Some _ => None | None => connect k end) as Hop.
  { unfold opened. simpl. rewrite Ha. by destruct a. }
  assert (announced connect (agents s) (k, info)
          = match a with
            | Some _ => None
            | None => Some (match connect k with
                            | Some _ => MsgAgentConnected
                            | None => MsgCannotConnect info.1 info.2
                            end)
            end) as Han.
  { unfold announced. simpl. rewrite Ha. by destruct a. }
  rewrite !omap_cons_match, Hop, Han in *. clear Hop Han.
  destruct a as [c|]; [|destruct (connect k) as [conn|] eqn:Hconn].
  - rewrite IH by (done || lia). f_equal.
    unfold add_prints, add_calls, set_agents.
    cbn [closed is_testing image_aliases agents_info agents next_agent
         running_on_agent last_content_in_task_directory reported calls
         printed timers].
    f_equal.
    rewrite <- (reconnect_insert (agents s) k (Some c)) by done.
    simpl. by rewrite list_insert_id.
  - cbn [mbind list_bind] in Hpass. unfold greeting at 1 in Hpass.
    apply Forall_app in Hpass as [Hhead Hpass].
    apply Forall_cons in Hhead as [Hc1 Hhead].
    apply Forall_cons in Hhead as [Hc2 _].
    cbv zeta. rewrite Hc1, Hc2.
    rewrite IH.
    + f_equal. unfold add_printed, add_prints, add_calls, set_agents.
      cbn [closed is_testing image_aliases agents_info agents next_agent
           running_on_agent last_content_in_task_directory reported calls
           printed timers].
      rewrite opened_insert, announced_insert.
      f_equal.
      * rewrite <- (reconnect_insert (agents s) k None) by done.
        simpl. by rewrite Hconn.
      * cbn [mbind list_bind]. unfold greeting at 3.
        by rewrite <- !(assoc_L (++)).
      * by rewrite <- !(assoc_L (++)).
    + simpl. rewrite length_insert. lia.
    + simpl. by rewrite opened_insert.
  - rewrite IH.
    + f_equal. unfold add_printed, add_prints, add_calls, set_agents.
      cbn [closed is_testing image_aliases agents_info agents next_agent
           running_on_agent last_content_in_task_directory reported calls
           printed timers].
      rewrite opened_insert, announced_insert.
      f_equal.
      * rewrite <- (reconnect_insert (agents s) k None) by done.
        simpl. by rewrite Hconn.
      * by rewrite <- !(assoc_L (++)).
    + simpl. rewrite length_insert. lia.
    + simpl. by rewrite opened_insert.
Qed.

(** The loop of a round when one of its calls raises: the exception
    ends the round.  Connections are kept, nothing is reported, the
    running lists and the timers are left alone. *)
Lemma try_agent_connection_loop_raises (infos : list (string * nat)) : ∀ k s,
  length (agents s) = k + length infos →
  Exists (λ c, raises c = true)
    (omap (opened connect (agents s)) (Py.enumerate_from k infos)
     ≫= greeting (image_aliases s) (last_content_in_task_directory s)) →
  ∃ s',
    for_each (Py.enumerate_from k infos) (λ '(entry, info),
      agent ← (λ s, or_raise (agents s !! entry) Py.IndexError s);
      match agent with
      | Some _ => ret tt
      | None =>
          match connect entry with
          | None =>
              assign_agent entry None;;
              modify (add_printed (MsgCannotConnect info.1 info.2))
          | Some conn =>
              on_connect (get_rpyc_server entry);;
              assign_agent entry (Some conn);;
              synchronize_image_aliases raises conn;;
              synchronize_task_dir raises conn
          end
      end) s
    = Raised Py.TransportError s'
    ∧ (∀ i c, agents s !! i = Some (Some c) → agents s' !! i = Some (Some c))
    ∧ length (agents s') = length (agents s)
    ∧ closed s' = closed s
    ∧ agents_info s' = agents_info s
    ∧ running_on_agent s' = running_on_agent s
    ∧ next_agent s' = next_agent s
    ∧ reported s' = reported s
    ∧ timers s' = timers s
    ∧ calls s `prefix_of` calls s'.
Proof.
  match goal with |- context [for_each _ ?b] => set (body := b) end.
  induction infos as [|info infos IH]; intros k s Hlen Hex; simpl in Hlen.
  { by apply Exists_nil in Hex. }
  destruct (lookup_lt_is_Some_2 (agents s) k) as [a Ha]; [lia|].
  assert (body (k, info) s = _) as Hbody
    by (apply (try_agent_connection_body k info s a Ha)).
  change (Py.enumerate_from k (info :: infos))
    with ((k, info) :: Py.enumerate_from (S k) infos) in *.
  cbn [for_each]. unfold mbind at 1, M_bind, bind. rewrite Hbody. clear Hbody.
  assert (opened connect (agents s) (k, info)
          = match a with Some _ => None | None => connect k end) as Hop.
  { unfold opened. simpl. rewrite Ha. by destruct a. }
  rewrite omap_cons_match, Hop in Hex. clear Hop.
  assert (∀ s1,
    agents s1 = <[k := reconnect connect k a]> (agents s) →
    image_aliases s1 = image_aliases s →
    last_content_in_task_directory s1 = last_content_in_task_directory s →
    Exists (λ c, raises c = true)
      (omap (opened connect (agents s)) (Py.enumerate_from (S k) infos)
       ≫= greeting (image_aliases s) (last_content_in_task_directory s)) →
    closed s1 = closed s → agents_info s1 = agents_info s →
    running_on_agent s1 = running_on_agent s → next_agent s1 = next_agent s →
    reported s1 = reported s → timers s1 = timers s →
    calls s `prefix_of` calls s1 →
    ∃ s',
      for_each (Py.enumerate_from (S k) infos) body s1
      = Raised Py.TransportError s'
      ∧ (∀ i c, agents s !! i = Some (Some c) → agents s' !! i = Some (Some c))
      ∧ length (agents s') = length (agents s)
      ∧ closed s' = closed s
      ∧ agents_info s' = agents_info s
      ∧ running_on_agent s' = running_on_agent s
      ∧ next_agent s' = next_agent s
      ∧ reported s' = reported s
      ∧ timers s' = timers s
      ∧ calls s `prefix_of` calls s') as Hnext.
  { intros s1 Hag Hal Hla Hex1 ? ? ? ? ? ? Hpre.
    destruct (IH (S k) s1)
      as (s' & Hrun & Hkeep & Hl & ? & ? & ? & ? & ? & ? & Hpre').
    { rewrite Hag, length_insert. lia. }
    { by rewrite Hag, Hal, Hla, opened_insert. }
    exists s'. split; [done|]. split_and!; try congruence.
    - intros i c Hi. apply Hkeep. rewrite Hag.
      destruct (decide (i = k)) as [->|Hne].
      + rewrite Ha in Hi. injection Hi as ->.
        by apply list_lookup_insert_eq, lookup_lt_Some with (Some c).
      + by rewrite list_lookup_insert_ne.
    - by rewrite Hl, Hag, length_insert.
    - by etrans. }
  destruct a as [c|]; [|destruct (connect k) as [conn|] eqn:Hconn].
  - apply Hnext; try done. simpl. by rewrite list_insert_id.
  - cbn [mbind list_bind] in Hex. unfold greeting at 1 in Hex.
    cbv zeta.
    destruct (raises (CallUpdateImageAliases conn (image_aliases s))) eqn:Hc1.
    { eexists. split; [done|]. simpl. split_and!; try done.
      - intros i c Hi. rewrite list_lookup_insert_ne; [done|].
        intros ->. by rewrite Ha in Hi.
      - by rewrite length_insert.
      - by apply prefix_app_r. }
    destruct (raises (CallGetTaskDirectoryHashes conn
                        (last_content_in_task_directory s))) eqn:Hc2.
    { eexists. split; [done|]. simpl. split_and!; try done.
      - intros i c Hi. rewrite list_lookup_insert_ne; [done|].
        intros ->. by rewrite Ha in Hi.
      - by rewrite length_insert.
      - by apply prefix_app_r. }
    apply Hnext; try done.
    + simpl. by rewrite Hconn.
    + apply Exists_app in Hex as [Hex|Hex]; [|done].
      apply Exists_cons in Hex as [Hex|Hex]; [congruence|].
      apply Exists_cons in Hex as [Hex|Hex]; [congruence|].
      by apply Exists_nil in Hex.
    + simpl. by apply prefix_app_r.
  - apply Hnext; try done. simpl. by rewrite Hconn.
Qed.

Lemma opened_all_empty (ag : list (option Conn)) (infos : list (string * nat)) k :
  (∀ i, k ≤ i < k + length infos → ag !! i = Some None) →
  omap (opened connect ag) (Py.enumerate_from k infos)
  = omap connect (seq k (length infos))
  ∧ omap (announced connect ag) (Py.enumerate_from k infos)
    = (λ p, match connect p.1 with
            | Some _ => MsgAgentConnected
            | None => MsgCannotConnect p.2.1 p.2.2
            end) <$> Py.enumerate_from k infos.
Proof.
  revert k. induction infos as [|info infos IH]; intros k Hag; [done|].
  destruct (IH (S k)) as [IHo IHa].
  { intros i Hi. apply Hag. simpl. lia. }
  change (Py.enumerate_from k (info :: infos))
    with ((k, info) :: Py.enumerate_from (S k) infos).
  change (seq k (length (info :: infos))) with (k :: seq (S k) (length infos)).
  rewrite !omap_cons_match, IHo, IHa, fmap_cons.
  unfold opened at 1, announced at 1. cbn [fst snd].
  by rewrite Hag by (simpl; lia).
Qed.

Lemma opened_none_empty (ag : list (option Conn)) (infos : list (string * nat)) k :
  Forall is_Some ag →
  omap (opened connect ag) (Py.enumerate_from k infos) = []
  ∧ omap (announced connect ag) (Py.enumerate_from k infos) = [].
Proof.
  intros Hall. revert k. induction infos as [|info infos IH]; intros k; [done|].
  destruct (IH (S k)) as [IHo IHr].
  change (Py.enumerate_from k (info :: infos))
    with ((k, info) :: Py.enumerate_from (S k) infos).
  rewrite !omap_cons_match, IHo, IHr. unfold opened, announced. cbn [fst].
  destruct (ag !! k) as [[c|]|] eqn:Hk; try done.
  rewrite Forall_lookup in Hall. by destruct (Hall _ _ Hk).
Qed.

Lemma try_agent_connection_closed (s : State) :
  closed s = true → try_agent_connection raises connect s = Returned tt s.
Proof.
  intros Hclosed. unfold try_agent_connection.
  unfold mbind at 1, M_bind, bind, gets at 1. by rewrite Hclosed.
Qed.

Lemma try_agent_connection_closed_form (s : State) :
  closed s = false →
  length (agents s) = length (agents_info s) →
  all_pass raises
    (new_connections connect s
     ≫= greeting (image_aliases s) (last_content_in_task_directory s)) →
  try_agent_connection raises connect s
  = Returned tt
      (rearm (TimerTryAgentConnection 10)
         (add_prints (connection_messages connect s)
            (add_calls
               (new_connections connect s
                ≫= greeting (image_aliases s)
                     (last_content_in_task_directory s))
               (set_agents (imap (reconnect connect)) s)))).
Proof.
  intros Hopen Hlen Hpass. unfold try_agent_connection.
  unfold mbind at 1, M_bind, bind, gets at 1. rewrite Hopen.
  unfold mbind at 1, M_bind, bind, gets at 1.
  unfold mbind at 1, M_bind, bind. unfold Py.enumerate.
  rewrite try_agent_connection_loop by done.
  unfold mbind, M_bind, bind, gets, rearm. simpl.
  by destruct (is_testing s).
Qed.

Lemma try_agent_connection_raises (s : State) :
  closed s = false →
  length (agents s) = length (agents_info s) →
  Exists (λ c, raises c = true)
    (new_connections connect s
     ≫= greeting (image_aliases s) (last_content_in_task_directory s)) →
  ∃ s', try_agent_connection raises connect s = Raised Py.TransportError s'
        ∧ (∀ i c, agents s !! i = Some (Some c) → agents s' !! i = Some (Some c))
        ∧ length (agents s') = length (agents s)
        ∧ closed s' = closed s
        ∧ agents_info s' = agents_info s
        ∧ running_on_agent s' = running_on_agent s
        ∧ next_agent s' = next_agent s
        ∧ reported s' = reported s
        ∧ timers s' = timers s
        ∧ calls s `prefix_of` calls s'.
Proof.
  intros Hopen Hlen Hex. unfold try_agent_connection.
  unfold mbind at 1, M_bind, bind, gets at 1. rewrite Hopen.
  unfold mbind at 1, M_bind, bind, gets at 1.
  unfold mbind at 1, M_bind, bind. unfold Py.enumerate.
  destruct (try_agent_connection_loop_raises (agents_info s) 0 s Hlen Hex)
    as (s' & Hrun & Hrest).
  exists s'. split; [|by rewrite Hopen in Hrest].
  assert (∀ s0, s0 = s → _ s0 = Raised Py.TransportError s') as Hrun'
    by (intros ? ->; exact Hrun).
  by erewrite Hrun'.
Qed.

Lemma all_pass_or_raises (cs : list RemoteCall) :
  all_pass raises cs ∨ Exists (λ c, raises c = true) cs.
Proof.
  unfold all_pass. induction cs as [|c cs [IH|IH]].
  - left. constructor.
  - destruct (raises c) eqn:Hc; [right; by left|left; by constructor].
  - right. by right.
Qed.

(** X11.  A round of [_try_agent_connection].  On a closed manager it
    does nothing.  Otherwise every slot that holds a connection keeps it
    and every empty slot gets what [rpyc.connect] gives for it; the
    remote calls of the round are, for each connection opened and in
    slot order, the update of the image aliases followed by the request
    for the hashes of the task directory; for each empty slot one line
    is printed, [Agent connected] or [Cannot connect]; the timer is
    armed again unless the manager is under test.  That is the round
    when none of its calls raises.  Nothing catches what one of them
    raises: the round then ends with that exception and the timer is
    not armed again. *)
Theorem try_agent_connection_round (s : State) :
  length (agents s) = length (agents_info s) →
  (closed s = true → try_agent_connection raises connect s = Returned tt s)
  ∧ (closed s = false →
     all_pass raises
       (new_connections connect s
        ≫= greeting (image_aliases s) (last_content_in_task_directory s)) →
     try_agent_connection raises connect s
     = Returned tt
         (rearm (TimerTryAgentConnection 10)
            (add_prints (connection_messages connect s)
               (add_calls
                  (new_connections connect s
                   ≫= greeting (image_aliases s)
                        (last_content_in_task_directory s))
                  (set_agents (imap (reconnect connect)) s)))))
  ∧ (closed s = false →
     Exists (λ c, raises c = true)
       (new_connections connect s
        ≫= greeting (image_aliases s) (last_content_in_task_directory s)) →
     ∃ s', try_agent_connection raises connect s = Raised Py.TransportError s'
           ∧ timers s' = timers s
           ∧ calls s `prefix_of` calls s').
Proof.
  intros Hlen. split_and!.
  - apply try_agent_connection_closed.
  - intros Hopen Hpass. by apply try_agent_connection_closed_form.
  - intros Hopen Hex.
    destruct (try_agent_connection_raises s Hopen Hlen Hex)
      as (s' & Hrun & _ & _ & _ & _ & _ & _ & _ & Htimers & Hcalls).
    by exists s'.
Qed.

(** X12.  What a round of [_try_agent_connection] means for the slots,
    whether it returns or ends with the exception of a call: it never
    drops or replaces a connection, and it leaves the number of slots,
    the running lists, the cursor and the reported results alone.  When
    it returns on an open manager, an empty slot ends with what
    [rpyc.connect] gives for it; and when every slot is connected
    already, the round returns without a remote call or a line
    printed. *)
Theorem try_agent_connection_keeps_connections (s : State) :
  length (agents s) = length (agents_info s) →
  ∃ s', final_state (try_agent_connection raises connect s) = Some s'
        ∧ (∀ i c, agents s !! i = Some (Some c) → agents s' !! i = Some (Some c))
        ∧ length (agents s') = length (agents s)
        ∧ running_on_agent s' = running_on_agent s
        ∧ next_agent s' = next_agent s
        ∧ reported s' = reported s
        ∧ (closed s = false →
           try_agent_connection raises connect s = Returned tt s' →
           ∀ i, agents s !! i = Some None → agents s' !! i = Some (connect i))
        ∧ (Forall is_Some (agents s) →
           try_agent_connection raises connect s = Returned tt s'
           ∧ agents s' = agents s ∧ calls s' = calls s
           ∧ printed s' = printed s).
Proof.
  intros Hlen. destruct (closed s) eqn:Hclosed.
  { rewrite try_agent_connection_closed by done. exists s.
    split; [done|]. by split_and!. }
  assert (∀ t s0, agents (rearm t s0) = agents s0
                  ∧ running_on_agent (rearm t s0) = running_on_agent s0
                  ∧ next_agent (rearm t s0) = next_agent s0
                  ∧ reported (rearm t s0) = reported s0
                  ∧ calls (rearm t s0) = calls s0
                  ∧ printed (rearm t s0) = printed s0) as Hrearm.
  { intros t s0. unfold rearm. by destruct (is_testing s0). }
  destruct (all_pass_or_raises
              (new_connections connect s
               ≫= greeting (image_aliases s)
                    (last_content_in_task_directory s))) as [Hpass|Hex].
  - rewrite try_agent_connection_closed_form by done.
    eexists. split; [done|].
    set (s0 := add_prints _ _).
    destruct (Hrearm (TimerTryAgentConnection 10) s0)
      as (-> & -> & -> & -> & -> & ->).
    unfold s0. simpl. split_and!; try done.
    + intros i c Hi. by rewrite list_lookup_imap, Hi.
    + by rewrite length_imap.
    + intros _ _ i Hi. by rewrite list_lookup_imap, Hi.
    + intros Hall. unfold new_connections, connection_messages, Py.enumerate.
      destruct (opened_none_empty (agents s) (agents_info s) 0 Hall) as [-> ->].
      simpl. rewrite !app_nil_r. split_and!; try done.
      apply list_eq. intros i. rewrite list_lookup_imap.
      destruct (agents s !! i) as [a|] eqn:Hi; [|done]. simpl.
      rewrite Forall_lookup in Hall. by destruct (Hall _ _ Hi) as [c ->].
  - destruct (try_agent_connection_raises s Hclosed Hlen Hex)
      as (s' & Hrun & Hkeep & Hl & _ & _ & ? & ? & ? & _ & _).
    rewrite Hrun. exists s'. split; [done|]. split_and!; try done.
    intros Hall. exfalso. unfold new_connections, Py.enumerate in Hex.
    destruct (opened_none_empty (agents s) (agents_info s) 0 Hall)
      as [Hnil _].
    rewrite Hnil in Hex. by apply Exists_nil in Hex.
Qed.

(** X13.  The constructor, by what the transport does with the calls on
    the connections it opens.  When none of them raises, the constructor
    returns a manager with one slot and one empty running list per
    configured agent, slot [i] holding what [rpyc.connect] gave for
    agent [i]; the cursor is at 0, nothing is reported; each connection
    has been sent the image aliases and asked for the hashes of its task
    directory; one line is printed per agent, [Agent connected] or
    [Cannot connect]; the synchronisation timer is armed, with 2 seconds
    under test and 60 otherwise, and the connection timer only when not
    under test.  When one of the calls raises, the constructor raises
    and no manager is built. *)
Theorem init_spec (infos : list (string * nat)) (aliases : gmap string string)
    (testing : bool) (content : gmap string string) :
  (all_pass raises
     (omap connect (seq 0 (length infos)) ≫= greeting aliases content) →
   ∃ s, init infos aliases testing content raises connect = Returned tt s
        ∧ well_formed s
        ∧ agents s = connect <$> seq 0 (length infos)
        ∧ running_on_agent s = replicate (length infos) []
        ∧ next_agent s = 0
        ∧ closed s = false
        ∧ reported s = []
        ∧ calls s
          = omap connect (seq 0 (length infos)) ≫= greeting aliases content
        ∧ printed s
          = (λ p, match connect p.1 with
                  | Some _ => MsgAgentConnected
                  | None => MsgCannotConnect p.2.1 p.2.2
                  end) <$> Py.enumerate infos
        ∧ timers s = TimerSynchronizeTaskDir (if testing then 2 else 60)
                     :: (if testing then [] else [TimerTryAgentConnection 10]))
  ∧ (Exists (λ c, raises c = true)
       (omap connect (seq 0 (length infos)) ≫= greeting aliases content) →
     ∃ s, init infos aliases testing content raises connect
          = Raised Py.TransportError s).
Proof.
  set (s0 := mkState false testing aliases infos
                     (replicate (length infos) None) 0
                     (replicate (length infos) []) content [] [] []
                     [TimerSynchronizeTaskDir (if testing then 2 else 60)]).
  assert (new_connections connect s0 = omap connect (seq 0 (length infos))
          ∧ connection_messages connect s0
            = (λ p, match connect p.1 with
                    | Some _ => MsgAgentConnected
                    | None => MsgCannotConnect p.2.1 p.2.2
                    end) <$> Py.enumerate infos) as [Hnew Hmsg].
  { unfold new_connections, connection_messages, Py.enumerate. simpl.
    apply opened_all_empty. intros i Hi. apply lookup_replicate_2. lia. }
  assert (length (agents s0) = length (agents_info s0)) as Hlen
    by (simpl; by rewrite length_replicate).
  split.
  - intros Hpass. unfold init. fold s0.
    rewrite try_agent_connection_closed_form; [|done|done|by rewrite Hnew].
    eexists. split; [done|].
    assert (imap (reconnect connect) (replicate (length infos) None)
            = connect <$> seq 0 (length infos)) as Hag.
    { apply list_eq. intros i. rewrite list_lookup_imap, list_lookup_fmap.
      destruct (decide (i < length infos)) as [Hlt|Hge].
      - by rewrite lookup_replicate_2, lookup_seq_lt.
      - rewrite (lookup_ge_None_2 (replicate _ _))
          by (rewrite length_replicate; lia).
        by rewrite (lookup_ge_None_2 (seq _ _)) by (rewrite length_seq; lia). }
    rewrite Hnew, Hmsg. unfold s0.
    destruct testing; unfold rearm, well_formed;
      cbn -[imap seq replicate omap Py.enumerate];
      rewrite Hag, ?length_fmap, ?length_seq, ?length_replicate;
      split_and!; done.
  - intros Hex. unfold init. fold s0.
    destruct (try_agent_connection_raises s0) as (s' & Hrun & _);
      [done|done|by rewrite Hnew|].
    by exists s'.
Qed.
End Connection.

(** ** Synchronisation rounds *)

Section MoreSynchronisation.
Import Manager.

Lemma directory_compare_from_hash_same (m : gmap string string) :
  directory_compare_from_hash m m = ([], []).
Proof.
  unfold directory_compare_from_hash.
  assert (∀ P `{!∀ x, Decision (P x)},
            (∀ p h, m !! p = Some h → ¬ P (p, h)) →
            (map_to_list (filter P m)).*1 = []) as Hempty.
  { intros P ? HP. apply elem_of_nil_inv. intros p.
    rewrite elem_of_filtered_paths. intros [h [Hh HPh]]. by eapply HP. }
  f_equal; apply Hempty; simpl; intros p h Hh; [by intros []|by rewrite Hh].
Qed.

(** The loop of a tick, whatever the transport does: it ends, having
    only made remote calls. *)
Lemma for_each_sync_outcome raises (l : list (option Conn)) s :
  ∃ cs o,
    for_each l (λ agent, match agent with
                         | Some a => synchronize_task_dir raises a
                         | None => mret tt
                         end) s = o
    ∧ (o = Returned tt (add_calls cs s)
       ∨ o = Raised Py.TransportError (add_calls cs s)).
Proof.
  revert s. induction l as [|[a|] l IH]; intros s.
  - exists [], (Returned tt s). split; [done|]. left.
    by rewrite for_each_add_calls_nil.
  - cbn [for_each]. unfold mbind at 1, M_bind, bind.
    unfold synchronize_task_dir at 1. unfold mbind at 1, M_bind, bind, gets.
    rewrite remote_call_spec.
    destruct (raises _).
    + eexists _, _. split; [done|]. by right.
    + destruct (IH (add_calls [CallGetTaskDirectoryHashes a
                                 (last_content_in_task_directory s)] s))
        as (cs & o & Hrun & Ho).
      exists ([CallGetTaskDirectoryHashes a
                 (last_content_in_task_directory s)] ++ cs), o.
      split; [exact Hrun|]. by rewrite <- add_calls_add_calls.
  - cbn [for_each]. unfold mbind at 1, M_bind, bind. unfold mret, M_ret, ret.
    apply IH.
Qed.

(** The state in which a tick ends on an open manager, returning or
    raising: the stored snapshot is the fresh one, or the old one when
    they do not differ. *)
Lemma try_synchronize_task_dir_final raises current s :
  closed s = false →
  ∃ s1, final_state (try_synchronize_task_dir raises current s) = Some s1
        ∧ closed s1 = false
        ∧ agents s1 = agents s
        ∧ running_on_agent s1 = running_on_agent s
        ∧ reported s1 = reported s
        ∧ (last_content_in_task_directory s1 = current
           ∨ last_content_in_task_directory s1
             = last_content_in_task_directory s
             ∧ directory_compare_from_hash current
                 (last_content_in_task_directory s) = ([], [])).
Proof.
  intros Hopen.
  destruct (directory_compare_from_hash current
              (last_content_in_task_directory s))
    as [changed deleted] eqn:Hdiff.
  destruct (decide (length changed ≠ 0 ∨ length deleted ≠ 0)) as [Hch|Hch].
  - unfold try_synchronize_task_dir.
    unfold mbind at 1, M_bind, bind, gets at 1. rewrite Hopen.
    unfold mbind at 1, M_bind, bind, gets at 1. rewrite Hdiff.
    rewrite decide_True by done.
    unfold mbind at 1, M_bind, bind.
    unfold mbind at 1, M_bind, bind, modify.
    unfold mbind at 1, M_bind, bind, gets at 1.
    destruct (for_each_sync_outcome raises (agents (set_last_content current s))
                (set_last_content current s)) as (cs & o & Hrun & Ho).
    assert (∀ s0, s0 = set_last_content current s → _ s0 = o)
      as Hrun' by (intros ? ->; exact Hrun).
    erewrite Hrun' by done. clear Hrun Hrun'.
    destruct Ho as [-> | ->].
    + unfold mbind, M_bind, bind, gets. simpl.
      destruct (is_testing s); eexists; (split; [done|]); simpl;
        split_and!; try done; by left.
    + eexists. split; [done|]. simpl. split_and!; try done. by left.
  - assert (changed = [] ∧ deleted = []) as [-> ->].
    { destruct changed, deleted; simpl in Hch; try done;
        exfalso; apply Hch; lia. }
    rewrite try_synchronize_task_dir_open; [|done|by right].
    rewrite Hdiff. rewrite decide_False by done. cbv zeta.
    destruct (is_testing s); eexists; (split; [done|]); simpl;
      split_and!; try done; by right.
Qed.

(** X15.  Two ticks of the synchronisation timer that read the same
    snapshot.  The first one ends, by returning or with the exception of
    a request; in the state it leaves, the second one returns, whatever
    the transport does then: it makes no remote call and leaves the
    stored snapshot as it is.  So the agents that a failed tick did not
    reach are not asked by the next tick either. *)
Theorem try_synchronize_task_dir_twice (raises raises' : RemoteCall → bool)
    (current : gmap string string) (s : State) :
  ∃ s1 s2,
    final_state (try_synchronize_task_dir raises current s) = Some s1
    ∧ try_synchronize_task_dir raises' current s1 = Returned tt s2
    ∧ calls s2 = calls s1
    ∧ last_content_in_task_directory s2 = last_content_in_task_directory s1
    ∧ agents s2 = agents s
    ∧ running_on_agent s2 = running_on_agent s
    ∧ reported s2 = reported s.
Proof.
  destruct (closed s) eqn:Hclosed.
  { exists s, s. by rewrite !try_synchronize_task_dir_closed. }
  destruct (try_synchronize_task_dir_final raises current s Hclosed)
    as (s1 & Hs1 & Hopen1 & Hag & Hrun & Hrep & Hlast).
  assert (directory_compare_from_hash current
            (last_content_in_task_directory s1) = ([], [])) as Hsame.
  { destruct Hlast as [-> | [-> ?]];
      [apply directory_compare_from_hash_same|done]. }
  exists s1. eexists. split; [done|].
  rewrite try_synchronize_task_dir_open; [|done|by right].
  rewrite Hsame. rewrite decide_False by (simpl; lia). cbv zeta.
  split; [done|]. destruct (is_testing s1); simpl; by split_and!.
Qed.
End MoreSynchronisation.

Section MoreArchive.
Import Manager.
Context (tasks_directory cwd : string) (files : Files)
        (raises : RemoteCall → bool).

Lemma all_readable_or_not (to_update : list string) :
  all_readable tasks_directory cwd files to_update
  ∨ ∃ pre path post,
      to_update = pre ++ path :: post
      ∧ all_readable tasks_directory cwd files pre
      ∧ path_accepted tasks_directory cwd path = true
      ∧ file_readable files (PosixPath.join tasks_directory [path]) = false.
Proof.
  unfold all_readable.
  induction to_update as [|p l [IH|(pre & path & post & -> & ? & ? & ?)]].
  - left. constructor.
  - destruct (path_accepted tasks_directory cwd p) eqn:Hacc;
      [destruct (file_readable files (PosixPath.join tasks_directory [p]))
         eqn:Hfile|].
    + left. by constructor.
    + right. exists [], p, l. split_and!; try done; constructor.
    + left. constructor; [by rewrite Hacc|done].
  - destruct (path_accepted tasks_directory cwd p) eqn:Hacc;
      [destruct (file_readable files (PosixPath.join tasks_directory [p]))
         eqn:Hfile|].
    + right. exists (p :: pre), path, post. split_and!; try done;
      by constructor.
    + right. exists [], p, (pre ++ path :: post). split_and!; try done;
      constructor.
    + right. exists (p :: pre), path, post. split_and!; try done;
      constructor; [by rewrite Hacc|done].
Qed.

(** X16.  The second part of a synchronisation, by what the agent
    answered.  An error only prints a message.  An answer of [None] (the
    agent has synchronisation disabled) changes nothing at all.  For a
    listing, when the temporary archive can be created and finished and
    every accepted file can be read, exactly one [update_task_directory]
    call is made, even when the listing is equal to the local snapshot,
    with an empty archive and nothing to delete then; the archive holds
    the accepted paths among the changed ones, in order, each under its
    own name, a warning is printed for each of the others, and the paths
    to delete are sent as they are.  The method returns unless the
    transport raises on that call.  When the file system fails, the
    method ends with that exception before any call is made.  In every
    case the slots, the running lists, the results and the stored
    snapshot are left alone. *)
Theorem synchronize_task_dir_p2_outcome (agent : Conn)
    (local_td : gmap string string)
    (r : AsyncResult (option (gmap string string))) (s : State) :
  tasks_directory ≠ "" →
  ∃ o s',
    synchronize_task_dir_p2 tasks_directory cwd files raises agent local_td r s
    = o
    ∧ final_state o = Some s'
    ∧ agents s' = agents s
    ∧ running_on_agent s' = running_on_agent s
    ∧ reported s' = reported s
    ∧ last_content_in_task_directory s' = last_content_in_task_directory s
    ∧ match r with
      | AsyncError =>
          o = Returned tt s'
          ∧ calls s' = calls s ∧ printed s' = printed s ++ [MsgRetrieveError]
      | AsyncValue None => o = Returned tt s
      | AsyncValue (Some remote_td) =>
          let to_update := (directory_compare_from_hash local_td remote_td).1 in
          let to_delete := (directory_compare_from_hash local_td remote_td).2 in
          let call :=
            CallUpdateTaskDirectory agent
              ((λ p, (p, PosixPath.join tasks_directory [p]))
                 <$> filter (λ p, path_accepted tasks_directory cwd p = true)
                       to_update)
              to_delete in
          (tmpfile_opens files = true
           ∧ all_readable tasks_directory cwd files to_update
           ∧ tar_closes files = true →
           o = (if raises call then Raised Py.TransportError s'
                else Returned tt s')
           ∧ calls s' = calls s ++ [call]
           ∧ printed s'
             = printed s ++
               (MsgNonSafePath
                  <$> filter (λ p, path_accepted tasks_directory cwd p ≠ true)
                        to_update)
           ∧ (remote_td = local_td →
              call = CallUpdateTaskDirectory agent [] []
              ∧ printed s' = printed s))
          ∧ (¬ (tmpfile_opens files = true
                ∧ all_readable tasks_directory cwd files to_update
                ∧ tar_closes files = true) →
             o = Raised Py.EnvironmentError s' ∧ calls s' = calls s)
      end.
Proof.
  intros Htd. destruct r as [|[remote_td|]].
  - eexists _, _. split; [done|]. simpl. by split_and!.
  - cbn [synchronize_task_dir_p2].
    destruct (directory_compare_from_hash local_td remote_td)
      as [to_update to_delete] eqn:Hdiff.
    cbn [fst snd].
    unfold mbind at 1, M_bind, bind.
    destruct (tmpfile_opens files) eqn:Htmp.
    2: { eexists _, _. split; [done|]. simpl. split_and!; try done.
         by intros [? _]. }
    unfold ret at 1. unfold mbind at 1, M_bind, bind.
    destruct (all_readable_or_not to_update)
      as [Hread|(pre & path & post & -> & Hpre & Hacc & Hfile)].
    2: { rewrite add_to_archive_raises by done.
         eexists _, _. split; [done|]. simpl. split_and!; try done.
         intros (_ & Hall & _). exfalso.
         apply Forall_app in Hall as [_ Hall].
         apply Forall_cons in Hall as [Hpath _].
         rewrite Hpath in Hfile; done. }
    rewrite add_to_archive_spec by done.
    unfold mbind at 1, M_bind, bind.
    destruct (tar_closes files) eqn:Hclose.
    2: { eexists _, _. split; [done|]. simpl. split_and!; try done.
         by intros (_ & _ & ?). }
    unfold ret at 1. rewrite remote_call_spec. simpl app.
    set (call := CallUpdateTaskDirectory agent _ to_delete).
    assert (remote_td = local_td →
            call = CallUpdateTaskDirectory agent [] []
            ∧ filter (λ p, path_accepted tasks_directory cwd p ≠ true) to_update
              = []) as Hsame.
    { intros ->. rewrite directory_compare_from_hash_same in Hdiff.
      injection Hdiff as <- <-. done. }
    destruct (raises call) eqn:Hcall.
    + eexists _, _. split; [done|]. simpl. split_and!; try done.
      * intros _. split_and!; try done.
        intros Heq. destruct (Hsame Heq) as [? ->]. split; [done|].
        simpl. by rewrite app_nil_r.
      * intros Hnot. exfalso. by apply Hnot.
    + eexists _, _. split; [done|]. simpl. split_and!; try done.
      * intros _. split_and!; try done.
        intros Heq. destruct (Hsame Heq) as [? ->]. split; [done|].
        simpl. by rewrite app_nil_r.
      * intros Hnot. exfalso. by apply Hnot.
  - eexists _, _. split; [done|]. simpl. by split_and!.
Qed.
End MoreArchive.

(** ** Closing the manager *)

Section Closing.
Import Manager.
Context (notifies : nat → bool).

Lemma close_loop_spec (remaining : nat) : ∀ i s,
  i + remaining = length (agents s) →
  length (running_on_agent s) = length (agents s) →
  ∃ s', close_loop notifies remaining i s = Returned tt s'
        ∧ closed s' = closed s
        ∧ calls s' = calls s
        ∧ length (agents s') = length (agents s)
        ∧ length (running_on_agent s') = length (agents s')
        ∧ (∀ j, j < i → agents s' !! j = agents s !! j)
        ∧ (∀ j, i ≤ j < length (agents s) → agents s' !! j = Some None)
        ∧ (∀ j, (j < i ∨ notifies j = false ∨ agents s !! j = Some None) →
                running_on_agent s' !! j = running_on_agent s !! j)
        ∧ (∀ j c, i ≤ j → agents s !! j = Some (Some c) →
                  notifies j = true → running_on_agent s' !! j = Some [])
        ∧ reported s `prefix_of` reported s'.
Proof.
  induction remaining as [|remaining IH]; intros i s Hi Hlen.
  { exists s. split; [done|]. split_and!; try done.
    - intros j Hj. lia.
    - intros j c Hj Hc. apply lookup_lt_Some in Hc. lia. }
  destruct (lookup_lt_is_Some_2 (agents s) i) as [a Ha]; [lia|].
  cbn [close_loop]. unfold mbind at 1, M_bind, bind, gets at 1. rewrite Ha.
  destruct a as [c|].
  - unfold mbind at 1, M_bind, bind, assign_agent.
    rewrite decide_True by lia.
    set (s1 := set_agents <[i := None]> s).
    assert (∃ s2, ((if notifies i then on_agent_disconnection i else ret tt) s1
                   = Returned tt s2)
                  ∧ closed s2 = closed s ∧ calls s2 = calls s
                  ∧ agents s2 = <[i := None]> (agents s)
                  ∧ running_on_agent s2
                    = (if notifies i then <[i := []]> (running_on_agent s)
                       else running_on_agent s)
                  ∧ reported s `prefix_of` reported s2)
      as (s2 & Hs2 & Hcl2 & Hcalls2 & Hag2 & Hrun2 & Hrep2).
    { destruct (notifies i).
      - unfold on_agent_disconnection, mbind, M_bind, bind, modify.
        set (s1' := add_printed MsgAgentDisconnected s1).
        destruct (lookup_lt_is_Some_2 (running_on_agent s1') i) as [l Hl].
        { simpl. lia. }
        destruct (agent_shutdown_spec _ _ _ Hl) as (js & l' & -> & _).
        eexists. split; [done|]. unfold after_shutdown.
        rewrite decide_True by (simpl; rewrite length_insert; lia). simpl.
        split_and!; try done.
        + by rewrite list_insert_insert_eq.
        + by apply prefix_app_r.
      - exists s1. by split_and!. }
    unfold mbind, M_bind, bind. rewrite Hs2.
    destruct (IH (S i) s2) as (s' & Hs' & Hcl & Hcalls & Hlag & Hlrun & Hlow
                               & Hhigh & Hkeep & Hempty & Hrep).
    { rewrite Hag2, length_insert. lia. }
    { rewrite Hag2, Hrun2. destruct (notifies i);
        rewrite ?length_insert; lia. }
    exists s'. split; [done|]. split_and!.
    + congruence.
    + congruence.
    + by rewrite Hlag, Hag2, length_insert.
    + done.
    + intros j Hj. rewrite Hlow by lia. rewrite Hag2.
      by rewrite list_lookup_insert_ne by lia.
    + intros j Hj. destruct (decide (j = i)) as [->|Hne].
      * rewrite Hlow by lia. rewrite Hag2. apply list_lookup_insert_eq. lia.
      * apply Hhigh. rewrite Hag2, length_insert. lia.
    + intros j Hj.
      assert (j ≠ i ∨ notifies i = false) as Hji.
      { destruct Hj as [Hj|[Hj|Hj]]; [left; lia|..].
        - destruct (decide (j = i)) as [->|]; [by right|by left].
        - left. intros ->. by rewrite Ha in Hj. }
      rewrite Hkeep.
      * rewrite Hrun2. destruct Hji as [Hne| ->]; [|done].
        destruct (notifies i); [|done].
        by rewrite list_lookup_insert_ne.
      * destruct Hj as [Hj|[Hj|Hj]]; [left; lia|by right; left|].
        right. right. rewrite Hag2.
        destruct (decide (j = i)) as [->|Hne].
        -- apply list_lookup_insert_eq. lia.
        -- by rewrite list_lookup_insert_ne.
    + intros j c' Hj Hc' Hn. destruct (decide (j = i)) as [->|Hne].
      * rewrite Hkeep by (left; lia). rewrite Hrun2, Hn.
        apply list_lookup_insert_eq. lia.
      * apply (Hempty j c'); [lia| |done].
        rewrite Hag2. by rewrite list_lookup_insert_ne.
    + by etrans.
  - destruct (IH (S i) s) as (s' & Hs' & Hcl & Hcalls & Hlag & Hlrun & Hlow
                              & Hhigh & Hkeep & Hempty & Hrep); [lia|done|].
    exists s'. split; [done|]. split_and!; try done.
    + intros j Hj. apply Hlow. lia.
    + intros j Hj. destruct (decide (j = i)) as [->|Hne].
      * rewrite Hlow by lia. done.
      * apply Hhigh. lia.
    + intros j Hj. apply Hkeep. destruct Hj as [Hj|[Hj|Hj]]; [|by right; left|by right; right].
      destruct (decide (j = i)) as [->|Hne]; [by right; right|left; lia].
    + intros j c' Hj Hc' Hn. apply (Hempty j c'); [|done|done].
      destruct (decide (j = i)) as [->|Hne]; [by rewrite Ha in Hc'|lia].
Qed.

(** X14.  [close] on a manager with one running list per slot never raises.
    It sets the closed flag and empties every slot, so that no agent is
    available any more, and it makes no remote call.  The running list
    of a slot is emptied only when closing its connection runs the
    disconnection hook; otherwise the list stays as it is.  On the
    closed manager both timers do nothing and are not armed again,
    whatever the transport does, and a submission gets the no-agent
    crash. *)
Theorem close_spec (s : State) :
  length (running_on_agent s) = length (agents s) →
  ∃ s', close notifies s = Returned tt s'
        ∧ closed s' = true
        ∧ no_agent_connected s'
        ∧ number_agents_available s' = 0
        ∧ length (agents s') = length (agents s)
        ∧ calls s' = calls s
        ∧ (∀ j, notifies j = false ∨ agents s !! j = Some None →
                running_on_agent s' !! j = running_on_agent s !! j)
        ∧ (∀ j c, agents s !! j = Some (Some c) → notifies j = true →
                  running_on_agent s' !! j = Some [])
        ∧ (∀ raises connect,
             try_agent_connection raises connect s' = Returned tt s')
        ∧ (∀ raises current,
             try_synchronize_task_dir raises current s' = Returned tt s')
        ∧ (∀ env jobid task inputdata debug,
             execute_job env jobid task inputdata debug s'
             = Returned tt (add_reported (jobid, crash_no_agent) s')).
Proof.
  intros Hlen. unfold close. unfold mbind, M_bind, bind, modify, gets.
  destruct (close_loop_spec (length (agents s)) 0 (set_closed true s))
    as (s' & Hs' & Hcl & Hcalls & Hlag & Hlrun & _ & Hhigh & Hkeep & Hempty & _);
    [done|done|].
  change (length (agents (set_closed true s))) with (length (agents s)) in *.
  change (agents (set_closed true s)) with (agents s) in *.
  rewrite Hs'. exists s'. split; [done|].
  assert (no_agent_connected s') as Hnone.
  { unfold no_agent_connected. apply Forall_lookup. intros j a Hj.
    pose proof (lookup_lt_Some _ _ _ Hj) as Hlt.
    rewrite Hhigh in Hj by lia. by injection Hj as <-. }
  assert (available_agents s' = []) as Hnil by (by apply available_agents_nil).
  split_and!; try done.
  - by rewrite number_agents_available_length, Hnil.
  - intros j Hj. apply Hkeep. by right.
  - intros j c Hc Hn. apply (Hempty j c); [lia|done|done].
  - intros raises connect. by apply try_agent_connection_closed.
  - intros raises current. by apply try_synchronize_task_dir_closed.
  - intros env jobid task inputdata debug. unfold execute_job.
    rewrite execute_job_fuel_S, select_agent_None by done.
    apply job_ended_None.
Qed.
End Closing.

(** ** More on paths *)

Section MorePaths.
Import PosixPath.

Lemma split_sep_not_nil (p : string) : split_sep p ≠ [].
Proof.
  destruct p as [|c p]; simpl; [done|].
  destruct (Ascii.eqb c "/"); [done|]. by destruct (split_sep p).
Qed.

Lemma concat_cons_cons (x y : string) (l : list string) :
  String.concat "/" (x :: y :: l) = x +:+ "/" +:+ String.concat "/" (y :: l).
Proof. done. Qed.

Lemma split_sep_join (p : string) : String.concat "/" (split_sep p) = p.
Proof.
  induction p as [|c p IH]; [done|]. simpl.
  pose proof (split_sep_not_nil p) as Hne.
  destruct (Ascii.eqb_spec c "/") as [->|Hc].
  - destruct (split_sep p) as [|w ws]; [done|].
    rewrite concat_cons_cons, IH. done.
  - destruct (split_sep p) as [|w ws]; [done|].
    destruct ws as [|w' ws].
    + simpl in *. by rewrite IH.
    + rewrite concat_cons_cons. rewrite concat_cons_cons in IH.
      rewrite <- IH. reflexivity.
Qed.

Lemma split_sep_component (p w : string) :
  w ∈ split_sep p → split_sep w = [w].
Proof.
  revert w. induction p as [|c p IH]; intros w; simpl.
  - by intros ->%list_elem_of_singleton.
  - pose proof (split_sep_not_nil p) as Hne.
    destruct (Ascii.eqb_spec c "/") as [->|Hc].
    + intros [->|Hw]%elem_of_cons; [done|by apply IH].
    + destruct (split_sep p) as [|w0 ws] eqn:Hsplit; [done|].
      intros [->|Hw]%elem_of_cons.
      * simpl. rewrite (proj2 (Ascii.eqb_neq _ _)) by done.
        rewrite (IH w0) by (by left). done.
      * apply IH. by right.
Qed.

(** [s.split('/')] and ['/'.join] are inverse to each other: joining the
    pieces of a string gives the string back, no piece holds a
    separator, and there is always at least one piece. *)
Theorem split_sep_round_trip (p : string) :
  String.concat "/" (split_sep p) = p
  ∧ split_sep p ≠ []
  ∧ (∀ w, w ∈ split_sep p → str_in "/" w = false ∧ split_sep w = [w]).
Proof.
  split; [apply split_sep_join|]. split; [apply split_sep_not_nil|].
  intros w Hw. split; [|by eapply split_sep_component].
  apply split_sep_component in Hw. clear p.
  induction w as [|c w IH]; [done|].
  simpl in Hw. cbn [str_in].
  destruct (Ascii.eqb_spec c "/") as [->|Hc]; [done|].
  rewrite prefix_sep_cons by done. simpl.
  apply IH. destruct (split_sep w) as [|w0 ws] eqn:Hs.
  - by destruct (split_sep_not_nil w).
  - by injection Hw as -> ->.
Qed.

Lemma string_app_assoc (a b c : string) : (a +:+ b) +:+ c = a +:+ b +:+ c.
Proof.
  induction a as [|x a IH]; [done|].
  change (String x ((a +:+ b) +:+ c) = String x (a +:+ b +:+ c)).
  by rewrite IH.
Qed.

Lemma split_sep_app (a b : string) :
  split_sep (a +:+ "/" +:+ b) = split_sep a ++ split_sep b.
Proof.
  induction a as [|c a IH]; [done|].
  change (String c a +:+ "/" +:+ b) with (String c (a +:+ "/" +:+ b)).
  cbn [split_sep]. rewrite IH.
  pose proof (split_sep_not_nil a) as Hne.
  destruct (Ascii.eqb c "/"); [done|]. by destruct (split_sep a).
Qed.

Lemma endswith_sep_inv (s : string) :
  endswith_sep s = true → ∃ s', s = s' +:+ "/".
Proof.
  induction s as [|c s IH]; [done|]. destruct s as [|c' s].
  - simpl. intros ->%Ascii.eqb_eq. by exists "".
  - intros Hs. destruct (IH Hs) as [s' ->]. by exists (String c s').
Qed.

Lemma endswith_sep_app (a b : string) :
  b ≠ "" → endswith_sep (a +:+ b) = endswith_sep b.
Proof.
  intros Hb. induction a as [|c a IH]; [done|].
  change (String c a +:+ b) with (String c (a +:+ b)).
  cbn [endswith_sep]. destruct (a +:+ b) eqn:Hab; [|done].
  destruct a; [|done]. simpl in Hab. by subst.
Qed.

Lemma endswith_sep_component (w : string) :
  split_sep w = [w] → endswith_sep w = false.
Proof.
  intros Hw. destruct (endswith_sep w) eqn:He; [|done].
  destruct (endswith_sep_inv w He) as [w' ->].
  pose proof (split_sep_app w' "") as Happ. simpl in Happ.
  assert (w' +:+ "/" +:+ "" = w' +:+ "/") as Heq by done.
  rewrite Heq, Hw in Happ. apply (f_equal length) in Happ.
  rewrite length_app in Happ. simpl in Happ.
  pose proof (split_sep_not_nil w'). destruct (split_sep w'); [done|].
  simpl in Happ. lia.
Qed.

Lemma no_leading_sep_component (w : string) :
  split_sep w = [w] → startswith w "/" = false.
Proof.
  intros Hw. apply (split_sep_no_leading_sep w). rewrite Hw. by left.
Qed.

(** [normpath], one component at a time *)

Lemma normpath_step_skip (n : nat) (C : list string) (comp : string) :
  comp = "" ∨ comp = "." → normpath_step n C comp = C.
Proof. intros [-> | ->]; done. Qed.

Lemma normpath_step_plain (n : nat) (C : list string) (comp : string) :
  comp ≠ "" → comp ≠ "." → comp ≠ ".." → normpath_step n C comp = C ++ [comp].
Proof.
  intros H1 H2 H3. unfold normpath_step.
  rewrite !bool_decide_eq_false_2 by done. done.
Qed.

Lemma normpath_step_absolute (n m : nat) (C : list string) (comp : string) :
  n ≠ 0 → m ≠ 0 → normpath_step n C comp = normpath_step m C comp.
Proof.
  intros Hn Hm. unfold normpath_step.
  by rewrite !(bool_decide_eq_false_2 (_ = 0)) by done.
Qed.

Lemma foldl_normpath_step_absolute (n m : nat) (l C : list string) :
  n ≠ 0 → m ≠ 0 →
  foldl (normpath_step n) C l = foldl (normpath_step m) C l.
Proof.
  intros Hn Hm. revert C. induction l as [|x l IH]; intros C; [done|].
  simpl. by rewrite IH, (normpath_step_absolute n m).
Qed.

Lemma foldl_normpath_step_plain (n : nat) (l C : list string) :
  Forall (λ w, w ≠ "" ∧ w ≠ "." ∧ w ≠ "..") l →
  foldl (normpath_step n) C l = C ++ l.
Proof.
  intros Hl. revert C. induction Hl as [|x l (? & ? & ?) _ IH]; intros C.
  - by rewrite app_nil_r.
  - simpl. rewrite normpath_step_plain, IH by done.
    by rewrite <- (assoc_L (++)).
Qed.

Lemma removelast_subseteq (C : list string) : removelast C ⊆ C.
Proof.
  induction C as [|x C IH]; [done|]. simpl. destruct C as [|y C].
  - apply list_subseteq_nil.
  - intros w [->|Hw]%elem_of_cons; [by left|]. right. by apply IH.
Qed.

Lemma foldl_normpath_step_elem_of (n : nat) (l C : list string) (w : string) :
  w ∈ foldl (normpath_step n) C l → w ∈ C ∨ (w ∈ l ∧ w ≠ "").
Proof.
  revert C. induction l as [|x l IH]; intros C; [by left|].
  simpl. intros [Hw|[Hw Hne]]%IH; [|right; split; [by right|done]].
  unfold normpath_step in Hw.
  destruct (bool_decide (x = "")) eqn:Hx; [by left|].
  apply bool_decide_eq_false in Hx.
  destruct (_ || _); [by left|]. destruct (_ || _).
  - apply elem_of_app in Hw as [Hw| ->%list_elem_of_singleton]; [by left|].
    right. split; [by left|done].
  - left. by apply removelast_subseteq.
Qed.

(** The components of a string built from components *)

Lemma split_sep_concat (C : list string) :
  C ≠ [] → Forall (λ w, split_sep w = [w]) C →
  split_sep (String.concat "/" C) = C.
Proof.
  intros Hne HC. induction HC as [|x C Hx HC IH]; [done|].
  destruct C as [|y C]; [done|].
  rewrite concat_cons_cons, split_sep_app, Hx, IH by done. done.
Qed.

Lemma components_concat (C : list string) :
  Forall (λ w, w ≠ "" ∧ split_sep w = [w]) C →
  components (String.concat "/" C) = C.
Proof.
  intros HC. unfold components. destruct C as [|x C]; [done|].
  rewrite split_sep_concat; [|done|by eapply Forall_impl; [done|intros ? []]].
  induction HC as [|y D [Hy _] _ IH]; [done|].
  by rewrite filter_cons_True, IH.
Qed.

Lemma components_leading_sep (s : string) :
  components ("/" +:+ s) = components s.
Proof. done. Qed.

Lemma components_normpath (path : string) :
  startswith path "/" = true →
  components (normpath path) = foldl (normpath_step 1) [] (split_sep path).
Proof.
  intros Habs. unfold normpath.
  rewrite bool_decide_eq_false_2 by (by intros ->). rewrite Habs.
  set (n := if _ && _ then 2 else 1).
  assert (n ≠ 0) as Hn by (unfold n; by destruct (_ && _)).
  rewrite (foldl_normpath_step_absolute n 1) by done.
  set (C := foldl _ _ _).
  assert (Forall (λ w, w ≠ "" ∧ split_sep w = [w]) C) as HC.
  { apply Forall_forall. intros w Hw.
    apply foldl_normpath_step_elem_of in Hw as [Hw|[Hw ?]];
      [by apply elem_of_nil in Hw|].
    split; [done|]. by eapply split_sep_component. }
  assert (∃ r, String.concat "" (replicate n "/") +:+ String.concat "/" C
               = "/" +:+ r ∧ components r = C) as (r & -> & Hr).
  { unfold n. destruct (_ && _).
    - exists ("/" +:+ String.concat "/" C). split; [done|].
      rewrite components_leading_sep. by apply components_concat.
    - exists (String.concat "/" C). split; [done|]. by apply components_concat. }
  rewrite bool_decide_eq_false_2 by done.
  by rewrite components_leading_sep.
Qed.

Lemma commonprefix_app (C P : list string) :
  commonprefix C (C ++ P) = C.
Proof.
  induction C as [|x C IH]; [by destruct P|]. simpl.
  by rewrite bool_decide_eq_true_2, IH.
Qed.

(** [join] of components *)

Lemma join_components (a : string) (p : list string) :
  a ≠ "" → endswith_sep a = false →
  Forall (λ w, w ≠ "" ∧ split_sep w = [w]) p →
  join a p = String.concat "/" (a :: p).
Proof.
  intros Ha He Hp. revert a Ha He.
  induction Hp as [|b p [Hb Hsb] _ IH]; intros a Ha He; [done|].
  unfold join. simpl foldl. fold (join (join2 a b) p).
  assert (join2 a b = a +:+ "/" +:+ b) as ->.
  { unfold join2. rewrite no_leading_sep_component by done.
    by rewrite bool_decide_eq_false_2, He by done. }
  rewrite IH.
  - rewrite concat_cons_cons. destruct p as [|c p]; [done|].
    rewrite !concat_cons_cons. by rewrite !string_app_assoc.
  - by destruct a.
  - rewrite <- string_app_assoc, endswith_sep_app by done.
    by apply endswith_sep_component.
Qed.

Lemma plain_components (path : string) :
  Forall (λ w, w ≠ "" ∧ w ≠ ".") (split_sep path) →
  str_in ".." path = false →
  Forall (λ w, w ≠ "" ∧ w ≠ "." ∧ w ≠ "..") (split_sep path)
  ∧ Forall (λ w, w ≠ "" ∧ split_sep w = [w]) (split_sep path)
  ∧ startswith path "/" = false.
Proof.
  intros Hplain Hdots. split_and!.
  - apply Forall_forall. intros w Hw.
    rewrite Forall_forall in Hplain. destruct (Hplain w Hw) as [? ?].
    split_and!; try done. intros ->.
    assert (has_pardir_component path = true) as Hc
      by (by apply bool_decide_eq_true).
    apply has_pardir_component_str_in in Hc. congruence.
  - apply Forall_forall. intros w Hw.
    rewrite Forall_forall in Hplain. destruct (Hplain w Hw) as [? ?].
    split; [done|]. by eapply split_sep_component.
  - destruct path as [|c path]; [done|].
    destruct (Ascii.eqb_spec c "/") as [->|Hc]; [|by apply prefix_sep_cons].
    simpl in Hplain. apply Forall_cons in Hplain as [[? _] _]. done.
Qed.

(** The components of a plain path joined to an absolute base follow
    those of the base. *)
Lemma components_join_plain (base path : string) :
  startswith base "/" = true →
  Forall (λ w, w ≠ "" ∧ w ≠ ".") (split_sep path) →
  str_in ".." path = false →
  startswith (join base [path]) "/" = true
  ∧ components (normpath (join base [path]))
    = components (normpath base) ++ split_sep path.
Proof.
  intros Habs Hplain Hdots.
  destruct (plain_components path Hplain Hdots) as (Hp & _ & Hrel).
  assert (base ≠ "") as Hbase by (by intros ->).
  unfold join. simpl foldl. unfold join2. rewrite Hrel.
  rewrite (bool_decide_eq_false_2 (base = "")) by done. simpl orb.
  destruct (endswith_sep base) eqn:He.
  - split; [by apply prefix_append|].
    rewrite !components_normpath by (by try apply prefix_append).
    destruct (endswith_sep_inv base He) as [b ->].
    rewrite string_app_assoc.
    rewrite split_sep_app, foldl_app, foldl_normpath_step_plain by done.
    pose proof (split_sep_app b "") as Hb.
    change (b +:+ "/" +:+ "") with (b +:+ "/") in Hb.
    rewrite Hb, foldl_app. done.
  - split; [by apply prefix_append|].
    rewrite !components_normpath by (by try apply prefix_append).
    by rewrite split_sep_app, foldl_app, foldl_normpath_step_plain.
Qed.
End MorePaths.

Section AcceptedPaths.
Import PosixPath.
Context (tasks_directory cwd : string).

Lemma join_join (path : string) :
  cwd ≠ "" → tasks_directory ≠ "" →
  startswith tasks_directory "/" = false → startswith path "/" = false →
  join cwd [join tasks_directory [path]] = join (join cwd [tasks_directory]) [path]
  ∧ startswith (join tasks_directory [path]) "/" = false.
Proof.
  intros Hcwd Htd Hrel Hpath. unfold join. simpl foldl. unfold join2.
  rewrite Hrel, Hpath. rewrite !(bool_decide_eq_false_2 (_ = "")); try done.
  - simpl orb.
    assert (∀ sep, endswith_sep (cwd +:+ sep +:+ tasks_directory)
                   = endswith_sep tasks_directory) as Hend.
    { intros sep. rewrite <- string_app_assoc. by apply endswith_sep_app. }
    assert (∀ rest, startswith (tasks_directory +:+ rest) "/" = false) as Hstart.
    { intros rest. destruct tasks_directory as [|c td]; [done|].
      change (String c td +:+ rest) with (String c (td +:+ rest)).
      unfold startswith in *. cbn -[ascii_dec] in *.
      destruct (ascii_dec "/" c); [by destruct td|done]. }
    destruct (endswith_sep tasks_directory) eqn:Htde;
      destruct (endswith_sep cwd) eqn:Hcwde;
      rewrite ?Hstart; split; try done.
    + rewrite (endswith_sep_app cwd tasks_directory), Htde by done.
      by rewrite string_app_assoc.
    + rewrite (Hend "/"). by rewrite !string_app_assoc.
    + rewrite (endswith_sep_app cwd tasks_directory), Htde by done.
      by rewrite !string_app_assoc.
    + rewrite (Hend "/"). by rewrite !string_app_assoc.
  - destruct (endswith_sep cwd); by destruct cwd.
Qed.

Lemma relpath_plain (path : string) :
  startswith tasks_directory "/" = true
  ∨ (startswith cwd "/" = true ∧ tasks_directory ≠ "") →
  Forall (λ w, w ≠ "" ∧ w ≠ ".") (split_sep path) →
  str_in ".." path = false →
  relpath cwd (join tasks_directory [path]) tasks_directory = Some path.
Proof.
  intros Hdir Hplain Hdots.
  destruct (plain_components path Hplain Hdots) as (_ & Hcomp & Hrel).
  assert (tasks_directory ≠ "") as Htd.
  { destruct Hdir as [Habs|[_ ?]]; [by intros Heq; rewrite Heq in Habs|done]. }
  unfold relpath.
  rewrite bool_decide_eq_false_2 by (by apply join_not_empty).
  assert (∃ base,
            startswith base "/" = true
            ∧ abspath cwd tasks_directory = normpath base
            ∧ abspath cwd (join tasks_directory [path])
              = normpath (join base [path]))
    as (base & Hbase & -> & ->).
  { unfold abspath.
    destruct (startswith tasks_directory "/") eqn:Habs.
    - exists tasks_directory. split; [done|]. split; [done|].
      by rewrite (proj1 (components_join_plain _ _ Habs Hplain Hdots)).
    - destruct Hdir as [?|[Hcwd _]]; [done|].
      assert (cwd ≠ "") as Hne by (by intros Heq; rewrite Heq in Hcwd).
      destruct (join_join path Hne Htd Habs Hrel) as [Hjj ->].
      exists (join cwd [tasks_directory]). split_and!; [|done|by rewrite Hjj].
      unfold join. simpl foldl. unfold join2. rewrite Habs.
      destruct (_ || _); by apply prefix_append. }
  rewrite (proj2 (components_join_plain _ _ Hbase Hplain Hdots)).
  rewrite commonprefix_app, Nat.sub_diag, drop_app_length. simpl.
  pose proof (split_sep_join path) as Hjoin.
  pose proof (split_sep_not_nil path) as Hne.
  destruct (split_sep path) as [|a p]; [done|].
  apply Forall_cons in Hcomp as [[Ha Hsa] Hp].
  rewrite join_components; [by rewrite Hjoin|done| |done].
  by apply endswith_sep_component.
Qed.

(** X17.  The test of the archive loop accepts every ordinary path: with an
    absolute tasks directory (or a relative one under an absolute
    working directory), a path in which no two dots follow each other
    and no component is empty or [.] passes the test.  So the loop
    leaves out no file with such a name. *)
Theorem path_accepted_plain (path : string) :
  startswith tasks_directory "/" = true
  ∨ (startswith cwd "/" = true ∧ tasks_directory ≠ "") →
  Forall (λ w, w ≠ "" ∧ w ≠ ".") (split_sep path) →
  str_in ".." path = false →
  path_accepted tasks_directory cwd path = true.
Proof.
  intros Hdir Hplain Hdots. unfold path_accepted.
  rewrite relpath_plain, Hdots by done.
  by rewrite bool_decide_eq_true_2.
Qed.

Lemma join_head (c : ascii) (a : string) (parts : list string) :
  Forall (λ b, startswith b "/" = false) parts →
  ∃ r, join (String c a) parts = String c r.
Proof.
  intros Hparts.
  assert (String.prefix (String c "") (join (String c a) parts) = true) as Hp.
  { apply join_keeps_prefix; [|done]. cbn -[ascii_dec].
    destruct (ascii_dec c c); [by destruct a|done]. }
  destruct (join (String c a) parts) as [|c' r]; [done|].
  cbn -[ascii_dec] in Hp. destruct (ascii_dec c c') as [<-|]; [|done].
  by exists r.
Qed.

(** X18.  Whatever passes the test of the archive loop is a relative path: it
    is not empty, it does not start with a separator, and no two dots
    follow each other in it.  An absolute path is left out even when it
    points into the tasks directory. *)
Theorem path_accepted_relative (path : string) :
  path_accepted tasks_directory cwd path = true →
  path ≠ ""
  ∧ startswith path "/" = false
  ∧ str_in ".." path = false.
Proof.
  unfold path_accepted, relpath. case_bool_decide; [done|].
  set (start_list := components (abspath cwd tasks_directory)).
  set (path_list := components (abspath cwd (join tasks_directory [path]))).
  set (rel_list := replicate _ pardir ++ drop _ path_list).
  assert (Forall (λ w, w ≠ "" ∧ startswith w "/" = false) rel_list) as Hrel.
  { apply Forall_app. split.
    - by apply Forall_replicate.
    - apply Forall_drop, Forall_forall. intros w Hw. split.
      + unfold path_list, components in Hw.
        by apply list_elem_of_filter in Hw as [? _].
      + by eapply components_no_leading_sep. }
  destruct rel_list as [|a p].
  - intros [Heq Hdots]%andb_true_iff. apply bool_decide_eq_true in Heq.
    apply negb_true_iff in Hdots. by subst path.
  - apply Forall_cons in Hrel as [[Ha Hsa] Hp].
    destruct a as [|c a]; [done|].
    destruct (join_head c a p) as [r Hr].
    { eapply Forall_impl; [exact Hp|]. by intros w [_ ?]. }
    rewrite Hr. intros [Heq Hdots]%andb_true_iff.
    apply bool_decide_eq_true in Heq. apply negb_true_iff in Hdots.
    subst path. split_and!; [done| |done].
    apply prefix_sep_cons. intros ->. by destruct a.
Qed.

(** X19.  When every changed path is an ordinary one and names a file
    that can be read, the archive loop adds them all, in order, each
    under its own name, and prints no warning. *)
Theorem add_to_archive_plain (files : Files) (to_update : list string)
    (s : State) :
  startswith tasks_directory "/" = true
  ∨ (startswith cwd "/" = true ∧ tasks_directory ≠ "") →
  Forall (λ path, Forall (λ w, w ≠ "" ∧ w ≠ ".") (split_sep path)
                  ∧ str_in ".." path = false) to_update →
  Forall (λ path, file_readable files (join tasks_directory [path]) = true)
         to_update →
  Manager.add_to_archive tasks_directory cwd files to_update [] s
  = Returned ((λ p, (p, join tasks_directory [p])) <$> to_update) s.
Proof.
  intros Hdir Hplain Hfiles.
  assert (tasks_directory ≠ "") as Htd.
  { destruct Hdir as [Habs|[_ ?]]; [by intros Heq; rewrite Heq in Habs|done]. }
  assert (Forall (λ p, path_accepted tasks_directory cwd p = true) to_update)
    as Hacc.
  { eapply Forall_impl; [exact Hplain|]. intros path [Hp Hdots].
    unfold path_accepted. rewrite relpath_plain, Hdots by done.
    by rewrite bool_decide_eq_true_2. }
  rewrite add_to_archive_spec; [|done|].
  2: { unfold all_readable. eapply Forall_impl; [exact Hfiles|]. by intros. }
  clear Hplain Hfiles.
  assert (filter (λ p, path_accepted tasks_directory cwd p = true) to_update
          = to_update
          ∧ filter (λ p, path_accepted tasks_directory cwd p ≠ true) to_update
            = []) as [-> ->].
  { induction Hacc as [|p l Hp _ [IH1 IH2]]; [done|].
    rewrite filter_cons_True by done.
    rewrite filter_cons_False by (intros Hne; by apply Hne).
    by rewrite IH1, IH2. }
  simpl. unfold add_prints. by rewrite app_nil_r, state_eta.
Qed.
End AcceptedPaths.

(** ** Disconnections *)

Section Disconnection.
Import Manager.

(** X9.  When the connection of a slot goes away, the manager prints a
    message and runs fault recovery: the slot is emptied together with
    its running list, the other slots and their running lists are left
    as they are, no remote call is made, and selection does not return
    that slot again; if the slot was connected, one agent fewer is
    available. *)
Theorem on_agent_disconnection_unselectable (agent_id : nat) (s : State) :
  agent_id < length (agents s) →
  length (running_on_agent s) = length (agents s) →
  ∃ s', on_agent_disconnection agent_id s = Returned tt s'
        ∧ printed s' = printed s ++ [MsgAgentDisconnected]
        ∧ agents s' = <[agent_id := None]> (agents s)
        ∧ running_on_agent s' = <[agent_id := []]> (running_on_agent s)
        ∧ calls s' = calls s
        ∧ (∀ r s'', select_agent s' = Returned r s'' → r ≠ Some agent_id)
        ∧ (connected s agent_id →
           number_agents_available s = S (number_agents_available s')).
Proof.
  intros Hlt Hlen. unfold on_agent_disconnection, mbind, M_bind, bind, modify.
  set (s1 := add_printed MsgAgentDisconnected s).
  destruct (lookup_lt_is_Some_2 (running_on_agent s1) agent_id) as [l Hl].
  { simpl. lia. }
  destruct (agent_shutdown_spec _ _ _ Hl) as (js & l' & -> & _).
  eexists. split; [done|]. unfold after_shutdown.
  rewrite decide_True by done. simpl. split_and!; try done.
  - intros r s'' Hsel ->.
    match type of Hsel with select_agent ?s0 = _ => set (s' := s0) in * end.
    destruct (select_agent_cases s') as [[_ Hnone]|(i & [c Hc] & Hsome)].
    + rewrite Hnone in Hsel. discriminate.
    + rewrite Hsome in Hsel. injection Hsel as -> _.
      simpl in Hc. by rewrite list_lookup_insert_eq in Hc.
  - intros Hconn. rewrite !number_agents_available_length.
    by apply (available_agents_disconnect _ _ agent_id).
Qed.
End Disconnection.

(** ** Submissions in a row *)

Section SubmissionsInARow.
Import Manager.
Context (env : nat → TryOutcome) (task : Task)
        (inputdata : gmap string string) (debug : bool).

Lemma run_cons (ev : Event) (evs : list Event) (s : State) :
  run (ev :: evs) s = run evs (step s ev).
Proof. done. Qed.

Lemma submit_accepted (j : string) (s : State) :
  (∀ i, env i = CallAccepted) →
  available_agents s ≠ [] →
  length (running_on_agent s) = length (agents s) →
  ∃ i c l,
    available_agents s !! (next_agent s mod length (available_agents s)) = Some i
    ∧ agents s !! i = Some (Some c)
    ∧ running_on_agent s !! i = Some l
    ∧ step s (EvSubmit env j task inputdata debug)
      = set_running_on_agent <[i := l ++ [j]]>
          (add_call (CallNewJob i c j (get_course_id task) (get_id task)
                                inputdata debug)
                    (set_next_agent (λ n, n + 1) s)).
Proof.
  intros Henv Hne Hlen.
  destruct (select_agent_Some s Hne) as (i & Hi & Hsel).
  assert (connected s i) as [c Hc].
  { apply elem_of_available_agents. by eapply list_elem_of_lookup_2. }
  destruct (lookup_lt_is_Some_2 (running_on_agent s) i) as [l Hl].
  { rewrite Hlen. by eapply lookup_lt_Some. }
  exists i, c, l. split_and!; try done.
  unfold step, handle, execute_job. rewrite execute_job_fuel_S, Hsel.
  rewrite (dispatch_connected _ _ _ _ _ i _ c) by done. cbv zeta.
  rewrite Henv.
  change (running_on_agent (set_next_agent (λ n, n + 1) s) !! i)
    with (running_on_agent s !! i). by rewrite Hl.
Qed.

Lemma submissions_accepted (jobs : list string) : ∀ s,
  (∀ i, env i = CallAccepted) →
  available_agents s ≠ [] →
  length (running_on_agent s) = length (agents s) →
  let s' := run ((λ j, EvSubmit env j task inputdata debug) <$> jobs) s in
  agents s' = agents s
  ∧ reported s' = reported s
  ∧ next_agent s' = next_agent s + length jobs
  ∧ calls s `prefix_of` calls s'
  ∧ length (calls s') = length (calls s) + length jobs
  ∧ flat s' ≡ₚ flat s ++ jobs
  ∧ (∀ i l0, running_on_agent s !! i = Some l0 →
             ∃ l, running_on_agent s' !! i = Some l ∧ l0 ⊆ l)
  ∧ (∀ t j, jobs !! t = Some j →
       ∃ i c l,
         available_agents s
           !! ((next_agent s + t) mod length (available_agents s)) = Some i
         ∧ agents s !! i = Some (Some c)
         ∧ calls s' !! (length (calls s) + t)
           = Some (CallNewJob i c j (get_course_id task) (get_id task)
                              inputdata debug)
         ∧ running_on_agent s' !! i = Some l
         ∧ j ∈ l).
Proof.
  induction jobs as [|j jobs IH]; intros s Henv Hne Hlen; cbv zeta.
  { simpl. split_and!; try done; try lia.
    - by rewrite app_nil_r.
    - intros i l0 Hl0. by exists l0. }
  destruct (submit_accepted j s Henv Hne Hlen) as (i & c & l & Hi & Hc & Hl & Hstep).
  rewrite fmap_cons, run_cons, Hstep.
  set (call := CallNewJob i c j (get_course_id task) (get_id task)
                          inputdata debug).
  set (s1 := set_running_on_agent _ _).
  assert (available_agents s1 = available_agents s) as Hav by done.
  destruct (IH s1) as (Hag & Hrep & Hnext & Hpre & Hcalls & Hflat & Hgrow & Hjobs).
  { done. } { by rewrite Hav. } { simpl. by rewrite length_insert. }
  set (s' := run _ s1) in *.
  assert (calls s1 = calls s ++ [call]) as Hcalls1 by done.
  split_and!.
  - by rewrite Hag.
  - by rewrite Hrep.
  - rewrite Hnext. simpl. lia.
  - etrans; [|exact Hpre]. rewrite Hcalls1. by apply prefix_app_r.
  - rewrite Hcalls, Hcalls1, length_app. simpl. lia.
  - rewrite Hflat. unfold flat. simpl.
    rewrite (concat_insert_snoc _ _ _ _ Hl). simpl.
    by rewrite Permutation_middle.
  - intros i0 l0 Hl0. destruct (decide (i0 = i)) as [->|Hne0].
    + destruct (Hgrow i (l ++ [j])) as (l' & Hl' & Hsub).
      { simpl. apply list_lookup_insert_eq. by eapply lookup_lt_Some. }
      exists l'. split; [done|]. rewrite Hl in Hl0. injection Hl0 as <-.
      intros x Hx. apply Hsub, elem_of_app. by left.
    + apply Hgrow. simpl. by rewrite list_lookup_insert_ne.
  - intros [|t] j' Hj'.
    + injection Hj' as <-.
      destruct (Hgrow i (l ++ [j])) as (l' & Hl' & Hsub).
      { simpl. apply list_lookup_insert_eq. by eapply lookup_lt_Some. }
      exists i, c, l'. rewrite !Nat.add_0_r. split_and!; try done.
      * eapply prefix_lookup_Some; [|exact Hpre].
        rewrite Hcalls1. by apply list_lookup_middle.
      * apply Hsub, elem_of_app. right. by left.
    + destruct (Hjobs t j' Hj') as (i' & c' & l' & Hi' & Hc' & Hcall' & Hl' & Hin).
      exists i', c', l'. split_and!; try done.
      * rewrite <- Hi', Hav. simpl. do 2 f_equal. lia.
      * rewrite <- Hcall'. f_equal. rewrite Hcalls1, length_app. simpl. lia.
Qed.

(** X4.  Submissions in a row that the agents accept are dealt out in
    round-robin order: with [n] agents available and the cursor at [c],
    submission number [t] goes to the agent at position [(c + t) mod n]
    among the available ones, which gets the [new_job] call for it and
    has the job in its running list at the end.  Nothing is reported, no
    slot changes, the cursor moves by the number of submissions, one
    remote call is made for each, and the running lists gain exactly the
    submitted jobs. *)
Theorem submissions_round_robin (jobs : list string) (s : State) :
  (∀ i, env i = CallAccepted) →
  available_agents s ≠ [] →
  length (running_on_agent s) = length (agents s) →
  let s' := run ((λ j, EvSubmit env j task inputdata debug) <$> jobs) s in
  agents s' = agents s
  ∧ reported s' = reported s
  ∧ next_agent s' = next_agent s + length jobs
  ∧ length (calls s') = length (calls s) + length jobs
  ∧ flat s' ≡ₚ flat s ++ jobs
  ∧ (∀ t j, jobs !! t = Some j →
       ∃ i c l,
         available_agents s
           !! ((next_agent s + t) mod length (available_agents s)) = Some i
         ∧ agents s !! i = Some (Some c)
         ∧ calls s' !! (length (calls s) + t)
           = Some (CallNewJob i c j (get_course_id task) (get_id task)
                              inputdata debug)
         ∧ running_on_agent s' !! i = Some l
         ∧ j ∈ l).
Proof.
  intros Henv Hne Hlen.
  destruct (submissions_accepted jobs s Henv Hne Hlen)
    as (? & ? & ? & _ & ? & ? & _ & ?).
  by split_and!.
Qed.
End SubmissionsInARow.

(** * The further statements on concrete managers *)

Section MoreInstances.
Import Manager.

(** Agent 0 runs [j1], [j2], [j3] and shuts down: [j1] and [j3] are
    reported, [j2] is not. *)
Lemma agent_shutdown_every_other_job_witness :
  ∃ s', agent_shutdown 0 busy_pool = Returned tt s'
        ∧ reported s'
          = reported busy_pool
            ++ ((λ j, (j, crash_agent_shutdown)) <$> evens ["j1"; "j2"; "j3"]).
Proof.
  destruct (agent_shutdown_every_other_job 0 busy_pool ["j1"; "j2"; "j3"])
    as (s' & Hrun & Hrep & _).
  - reflexivity.
  - apply (bool_decide_unpack _). vm_compute. exact I.
  - vm_compute. lia.
  - exists s'. split; [exact Hrun|exact Hrep].
Defined.

Lemma agent_shutdown_idempotent_witness :
  ∃ s', agent_shutdown 0 busy_pool = Returned tt s'
        ∧ agent_shutdown 0 s' = Returned tt s'.
Proof.
  eexists. split.
  - vm_compute. reflexivity.
  - apply (agent_shutdown_idempotent 0 busy_pool).
    + vm_compute. lia.
    + vm_compute. reflexivity.
Defined.

(** A completion for [j9], which agent 0 does not run. *)
Lemma execute_job_callback_stale_witness :
  ∃ e s', execute_job_callback "j9" (AsyncValue ∅) 0 busy_pool = Raised e s'
          ∧ reported s' = reported busy_pool.
Proof.
  destruct (execute_job_callback_stale "j9" (AsyncValue ∅) 0 busy_pool)
    as (e & s' & Hrun & _ & Hrep & _).
  - intros l Hl. vm_compute in Hl. injection Hl as <-.
    apply (bool_decide_unpack _). vm_compute. exact I.
  - exists e, s'. split; [exact Hrun|exact Hrep].
Defined.

(** [j2] completes on agent 0 after the shutdown of agent 0. *)
Lemma execute_job_callback_after_shutdown_witness :
  ∃ s' s'', agent_shutdown 0 busy_pool = Returned tt s'
            ∧ execute_job_callback "j2" (AsyncValue ∅) 0 s'
              = Raised Py.ValueError s''
            ∧ reported s'' = reported s'.
Proof.
  eexists.
  assert (∀ s', agent_shutdown 0 busy_pool = Returned tt s' →
            ∃ s'', execute_job_callback "j2" (AsyncValue ∅) 0 s'
                   = Raised Py.ValueError s''
                   ∧ reported s'' = reported s') as Hlate.
  { intros s' Hs'.
    destruct (execute_job_callback_after_shutdown 0 busy_pool s' "j2"
                (AsyncValue ∅)) as (s'' & Hrun & Hrep & _).
    - vm_compute. lia.
    - exact Hs'.
    - exists s''. split; [exact Hrun|exact Hrep]. }
  destruct (Hlate _ eq_refl) as (s'' & Hrun & Hrep).
  exists s''. split; [reflexivity|]. split; [exact Hrun|exact Hrep].
Defined.

(** A submission to the busy pool returns. *)
Lemma execute_job_always_returns_witness :
  ∃ s', execute_job (λ _, CallRaises) "j4" (Build_Task "c1" "t1") ∅ false
          busy_pool = Returned tt s'.
Proof.
  destruct (execute_job_always_returns (λ _, CallRaises) "j4"
              (Build_Task "c1" "t1") ∅ false busy_pool)
    as (s' & Hrun & _).
  - reflexivity.
  - exists s'. exact Hrun.
Defined.

(** [j4] is submitted to the busy pool, goes to agent 0 and completes
    there. *)
Lemma submit_then_complete_witness :
  ∃ s1 s2,
    execute_job (λ _, CallAccepted) "j4" (Build_Task "c1" "t1") ∅ false
      busy_pool = Returned tt s1
    ∧ execute_job_callback "j4" (AsyncValue {[ "result" := "success" ]}) 0 s1
      = Returned tt s2
    ∧ running_on_agent s2 = running_on_agent busy_pool.
Proof.
  destruct (submit_then_complete (λ _, CallAccepted) "j4"
              (Build_Task "c1" "t1") ∅ false busy_pool 0 ["j1"; "j2"; "j3"]
              (AsyncValue {[ "result" := "success" ]}))
    as (s1 & s2 & Hsubmit & _ & _ & Hdone & Hrun & _).
  - vm_compute. reflexivity.
  - reflexivity.
  - reflexivity.
  - apply (bool_decide_unpack _). vm_compute. exact I.
  - exists s1, s2. split; [exact Hsubmit|]. split; [exact Hdone|exact Hrun].
Defined.

(** Two idle agents; registering the callback raises on agent 0, agent
    1 accepts. *)
Lemma execute_job_reports_twice_witness :
  ∃ s', execute_job (λ i, if decide (i = 0) then AddCallbackRaises
                          else CallAccepted)
          "j1" (Build_Task "c1" "t1") ∅ false (idle_pool 2) = Returned tt s'
        ∧ ("j1", crash_agent_shutdown) ∈ reported s'.
Proof.
  destruct (execute_job_reports_twice
              (λ i, if decide (i = 0) then AddCallbackRaises else CallAccepted)
              "j1" (Build_Task "c1" "t1") ∅ false (idle_pool 2) 0 [])
    as (s' & Hrun & Hrep & _).
  - reflexivity.
  - vm_compute. reflexivity.
  - reflexivity.
  - reflexivity.
  - constructor.
  - apply not_elem_of_nil.
  - reflexivity.
  - exists s'. split; [exact Hrun|exact Hrep].
Defined.

(** Two empty slots, both agents can be reached and answer. *)
Lemma try_agent_connection_round_witness :
  ∃ s', try_agent_connection reliable (λ i, Some i) (disconnected_pool 2)
        = Returned tt s'.
Proof.
  destruct (try_agent_connection_round reliable (λ i, Some i)
              (disconnected_pool 2)) as (_ & Hpass & _).
  - reflexivity.
  - eexists. apply Hpass; [reflexivity|].
    apply Forall_forall. intros c _. reflexivity.
Defined.

Lemma try_agent_connection_keeps_connections_witness :
  ∃ s', final_state (try_agent_connection reliable (λ _, None) busy_pool)
        = Some s'
        ∧ running_on_agent s' = running_on_agent busy_pool.
Proof.
  destruct (try_agent_connection_keeps_connections reliable (λ _, None)
              busy_pool)
    as (s' & Hrun & _ & _ & Hsame & _).
  - reflexivity.
  - exists s'. split; [exact Hrun|exact Hsame].
Defined.

(** The agent answers with the local snapshot itself. *)
Lemma synchronize_task_dir_p2_outcome_witness :
  ∃ o s', synchronize_task_dir_p2 "/tasks" "/" sound_files reliable 0
            {[ "a.txt" := "H1" ]} (AsyncValue (Some {[ "a.txt" := "H1" ]}))
            busy_pool = o
          ∧ final_state o = Some s'
          ∧ agents s' = agents busy_pool.
Proof.
  destruct (synchronize_task_dir_p2_outcome "/tasks" "/" sound_files reliable 0
              {[ "a.txt" := "H1" ]} (AsyncValue (Some {[ "a.txt" := "H1" ]}))
              busy_pool)
    as (o & s' & Hrun & Hend & Hag & _).
  - discriminate.
  - exists o, s'. split; [exact Hrun|]. split; [exact Hend|exact Hag].
Defined.

(** The busy pool is closed; closing a connection runs the hook. *)
Lemma close_spec_witness :
  ∃ s', close (λ _, true) busy_pool = Returned tt s'
        ∧ closed s' = true
        ∧ no_agent_connected s'.
Proof.
  destruct (close_spec (λ _, true) busy_pool)
    as (s' & Hrun & Hclosed & Hnone & _).
  - reflexivity.
  - exists s'. split; [exact Hrun|]. split; [exact Hclosed|exact Hnone].
Defined.

Lemma path_accepted_plain_witness :
  path_accepted "/tasks" "/" "c1/t1/run" = true.
Proof.
  apply (path_accepted_plain "/tasks" "/" "c1/t1/run").
  - left. reflexivity.
  - assert (PosixPath.split_sep "c1/t1/run" = ["c1"; "t1"; "run"]) as ->
      by reflexivity.
    repeat (apply Forall_cons; split; [split; discriminate|]).
    constructor.
  - reflexivity.
Defined.

Lemma path_accepted_relative_witness :
  "c1/t1/run" ≠ ""
  ∧ PosixPath.startswith "c1/t1/run" "/" = false
  ∧ PosixPath.str_in ".." "c1/t1/run" = false.
Proof.
  apply (path_accepted_relative "/tasks" "/" "c1/t1/run").
  vm_compute. reflexivity.
Defined.

Lemma add_to_archive_plain_witness :
  add_to_archive "/tasks" "/" sound_files ["a.txt"; "c1/t1/run"] [] busy_pool
  = Returned ((λ p, (p, PosixPath.join "/tasks" [p])) <$> ["a.txt"; "c1/t1/run"])
             busy_pool.
Proof.
  apply (add_to_archive_plain "/tasks" "/" sound_files ["a.txt"; "c1/t1/run"]
           busy_pool).
  - left. reflexivity.
  - assert (PosixPath.split_sep "a.txt" = ["a.txt"]) as Ha by reflexivity.
    assert (PosixPath.split_sep "c1/t1/run" = ["c1"; "t1"; "run"]) as Hc
      by reflexivity.
    apply Forall_cons. split.
    { rewrite Ha. split; [|reflexivity].
      repeat (apply Forall_cons; split; [split; discriminate|]).
      constructor. }
    apply Forall_cons. split; [|constructor].
    rewrite Hc. split; [|reflexivity].
    repeat (apply Forall_cons; split; [split; discriminate|]).
    constructor.
  - repeat constructor.
Defined.

(** Agent 0 of the busy pool goes away. *)
Lemma on_agent_disconnection_unselectable_witness :
  ∃ s', on_agent_disconnection 0 busy_pool = Returned tt s'
        ∧ agents s' = <[0 := None]> (agents busy_pool).
Proof.
  destruct (on_agent_disconnection_unselectable 0 busy_pool)
    as (s' & Hrun & _ & Hag & _).
  - vm_compute. lia.
  - reflexivity.
  - exists s'. split; [exact Hrun|exact Hag].
Defined.
(** Three jobs dealt out to two idle agents. *)
Lemma submissions_round_robin_witness :
  flat (run ((λ j, EvSubmit (λ _, CallAccepted) j (Build_Task "c1" "t1") ∅ false)
               <$> ["j1"; "j2"; "j3"]) (idle_pool 2))
  ≡ₚ flat (idle_pool 2) ++ ["j1"; "j2"; "j3"].
Proof.
  pose proof (submissions_round_robin (λ _, CallAccepted) (Build_Task "c1" "t1")
                ∅ false ["j1"; "j2"; "j3"] (idle_pool 2)) as Hrr.
  cbv zeta in Hrr. destruct Hrr as (_ & _ & _ & _ & Hflat & _).
  - intros i. reflexivity.
  - vm_compute. discriminate.
  - reflexivity.
  - exact Hflat.
Defined.
End MoreInstances.
